(** * simple-webrtc-p2p-game: transport and state replication

    A shallow embedding of the TypeScript sources
      model/AbstractWorld.ts, model/Entity.ts, model/WorldMap.ts,
      model/ClientWorld.ts, model/ServerWorld.ts, SimpleGameMap.ts,
      transport/WebChannel.ts, transport/WebChannelServer.ts and the key
      handlers of SimpleP2PGame.ts
    with theorems about the movement integrator, the snapshot protocol and
    the connection life cycle.

    Conventions of the embedding.
    - JavaScript objects live in a store (a list, a reference is an index);
      arrays of objects are lists of references, so that [===] on objects
      is equality of references and a mutation through one alias is seen
      through every other.
    - Numbers.  Every number the modelled code computes is an integer
      (positions are 16-bit words or spawn points moved by whole steps),
      apart from [stepSize] and [localSequenceNumber] of the client world,
      which are multiples of 1/2; these two are stored doubled.  A number
      is a [Z], or [NaN], or the value [undefined] that a read past the end
      of a typed array produces.
    - Callbacks and sends are outputs: a handler returns the list of
      callbacks it fired, or of messages it sent, next to the new state.
      Logging is left out. *)

From stdpp Require Import base numbers list gmap strings.

Local Open Scope Z_scope.

(** ** JavaScript numbers *)

Module JS.

Inductive num : Type :=
| Num (z : Z)
| NaN
| Undefined.

#[global] Instance num_eq_dec : EqDecision num.
Proof. solve_decision. Defined.

(** [a + k] and [a - k] for a numeric constant [k]: [undefined] converts
    to NaN, NaN is absorbing. *)
Definition add (a : num) (k : Z) : num :=
  match a with Num z => Num (z + k) | _ => NaN end.

Definition sub (a : num) (k : Z) : num :=
  match a with Num z => Num (z - k) | _ => NaN end.

(** [a > b] and [a < b]: false as soon as one side is NaN or undefined. *)
Definition gt (a b : num) : bool :=
  match a, b with Num p, Num q => bool_decide (q < p) | _, _ => false end.

Definition lt (a b : num) : bool :=
  match a, b with Num p, Num q => bool_decide (p < q) | _, _ => false end.

(** [a !== b]: NaN differs from everything, itself included. *)
Definition strict_neq (a b : num) : bool :=
  match a, b with
  | Num p, Num q => negb (bool_decide (p = q))
  | Undefined, Undefined => false
  | _, _ => true
  end.

(** ToInt32 of an integer: wrap into [-2^31, 2^31). *)
Definition wrap32 (z : Z) : Z := (z + 2147483648) `mod` 4294967296 - 2147483648.

Definition ToInt32 (a : num) : Z :=
  match a with Num z => wrap32 z | _ => 0 end.

(** ToUint16, the conversion [new Uint16Array(data)] applies to every
    element of [data]. *)
Definition ToUint16 (a : num) : Z :=
  match a with Num z => z `mod` 65536 | _ => 0 end.

(** The bit operators work on the ToInt32 of their operands and give an
    int32. *)
Definition band (a b : num) : Z := Z.land (ToInt32 a) (ToInt32 b).
Definition bor (a b : num) : Z := Z.lor (ToInt32 a) (ToInt32 b).
Definition shl (a : num) (n : Z) : Z := wrap32 (Z.shiftl (ToInt32 a) n).

(** [Math.floor] of a number of the model (integers are their own floor). *)
Definition floor (a : num) : num :=
  match a with Num z => Num z | _ => NaN end.

(** A [Uint16Array] is the list of its words; [state[i]] is [undefined]
    past the end. *)
Abbreviation Uint16Array := (list Z) (only parsing).

Definition get (a : Uint16Array) (i : nat) : num :=
  match a !! i with Some w => Num w | None => Undefined end.

Definition newUint16Array (data : list num) : Uint16Array := ToUint16 <$> data.

(** [array.includes(x)], [array.indexOf(x)] and [array.splice(start, 1)] on
    an array of references; a negative [start] counts from the end. *)
Definition includes (x : nat) (l : list nat) : bool := bool_decide (x ∈ l).

Definition indexOf (x : nat) (l : list nat) : Z :=
  match list_find (λ y, y = x) l with
  | Some (i, _) => Z.of_nat i
  | None => -1
  end.

Definition splice1 (start : Z) (l : list nat) : list nat :=
  let len := Z.of_nat (length l) in
  let start := if decide (start < 0) then Z.max (len + start) 0 else Z.min start len in
  delete (Z.to_nat start) l.

End JS.

(** ** model/Entity.ts *)

Module Entity.

Record t : Type := mk {
  id : Z;
  x : JS.num;
  y : JS.num;
  type : JS.num;
  faceLeft : bool;
  moving : bool;
  left : bool;
  right : bool;
  up : bool;
  down : bool
}.

#[global] Instance eq_dec : EqDecision t.
Proof. solve_decision. Defined.

(** [new Entity(id, x, y, type)]: the field initialisers give
    [faceLeft = true] and everything else false. *)
Definition new (id : Z) (x y type : JS.num) : t :=
  {| id := id; x := x; y := y; type := type;
     faceLeft := true; moving := false;
     left := false; right := false; up := false; down := false |}.

Definition updateState (x y type : JS.num) (left right up down : bool) (e : t) : t :=
  {| id := id e; x := x; y := y; type := type;
     faceLeft := faceLeft e; moving := moving e;
     left := left; right := right; up := up; down := down |}.

End Entity.

(** A reference to an entity object, and the object store. *)
Abbreviation ref := nat (only parsing).
Abbreviation store := (list Entity.t) (only parsing).

(** ** model/WorldMap.ts *)

Class WorldMap (M : Type) : Type := {
  blockedAt : M → JS.num → JS.num → bool;
  width : M → Z;
  height : M → Z
}.

(** ** model/AbstractWorld.ts *)

Definition LEFT : Z := 1.
Definition RIGHT : Z := 2.
Definition UP : Z := 4.
Definition DOWN : Z := 8.
Definition SERVER_UPDATES_PER_SECOND : Z := 20.
Definition CLIENT_UPDATES_PER_SECOND : Z := 40.
Definition MOVE_SPEED : Z := 8.

Module AbstractWorld.
Section defs.
Context {M : Type} `{WorldMap M}.

(** [stepSize2] is twice the source's [stepSize]: 2 for the server world
    ([stepSize = 1]) and 1 for the client world
    ([stepSize = SERVER_UPDATES_PER_SECOND / CLIENT_UPDATES_PER_SECOND]).
    The earlier revision of the file moves by the constant [MOVE_SPEED = 6]
    and excludes no entity; nothing below depends on the value of the
    step. *)
Record t : Type := mk {
  objects : store;
  entities : list ref;
  map : M;
  stepSize2 : Z
}.

Definition moveStep (w : t) : Z := MOVE_SPEED * stepSize2 w / 2.

(** The candidate position of the loop body of [moveEntities]. *)
Definition candidate (step : Z) (e : Entity.t) : JS.num * JS.num :=
  let nx := Entity.x e in
  let ny := Entity.y e in
  let ny := if Entity.up e then JS.sub ny step else ny in
  let ny := if Entity.down e then JS.add ny step else ny in
  let nx := if Entity.left e then JS.sub nx step else nx in
  let nx := if Entity.right e then JS.add nx step else nx in
  (nx, ny).

(** The body of the loop of [moveEntities], for one entity that is not
    excluded. *)
Definition moveEntity (m : M) (step : Z) (e : Entity.t) : Entity.t :=
  let '(nx, ny) := candidate step e in
  let faceLeft := if JS.gt nx (Entity.x e) then false else Entity.faceLeft e in
  let faceLeft := if JS.lt nx (Entity.x e) then true else faceLeft in
  let moving := JS.strict_neq (Entity.x e) nx || JS.strict_neq (Entity.y e) ny in
  let commit := moving && negb (blockedAt m nx ny) in
  {| Entity.id := Entity.id e;
     Entity.x := if commit then nx else Entity.x e;
     Entity.y := if commit then ny else Entity.y e;
     Entity.type := Entity.type e;
     Entity.faceLeft := faceLeft;
     Entity.moving := moving;
     Entity.left := Entity.left e; Entity.right := Entity.right e;
     Entity.up := Entity.up e; Entity.down := Entity.down e |}.

(** [moveEntities(exclude?)]: the loop runs over the array of references
    and mutates the objects in place. *)
Definition moveOne (m : M) (step : Z) (exclude : option ref) (o : store) (entity : ref) : store :=
  if decide (Some entity = exclude) then o
  else alter (moveEntity m step) entity o.

Definition moveEntities (exclude : option ref) (w : t) : t :=
  {| objects := foldl (moveOne (map w) (moveStep w) exclude) (objects w) (entities w);
     entities := entities w;
     map := map w;
     stepSize2 := stepSize2 w |}.

Definition withObjects (o : store) (w : t) : t :=
  {| objects := o; entities := entities w; map := map w; stepSize2 := stepSize2 w |}.

Definition withEntities (es : list ref) (w : t) : t :=
  {| objects := objects w; entities := es; map := map w; stepSize2 := stepSize2 w |}.

(** [entities.find(entity => entity.id === id)]: the first reference of the
    array whose object carries the id. *)
Definition hasId (o : store) (i : Z) (l : ref) : bool :=
  match o !! l with
  | Some e => bool_decide (Entity.id e = i)
  | None => false
  end.

Definition findById (i : Z) (w : t) : option ref :=
  List.find (hasId (objects w) i) (entities w).

End defs.
Arguments t M : clear implicits.
End AbstractWorld.


(** ** SimpleGameMap.ts *)

Module SimpleGameMap.

(** The wall tiles, 30 columns by 20 rows. *)
Definition MAP : list Z := [
  226;2;2;2;2;2;2;2;2;2;2;2;2;2;2;2;2;2;2;2;2;2;2;2;2;2;2;2;2;227;
  258;34;65;34;34;34;34;34;34;34;34;34;34;34;34;34;34;34;34;34;34;34;34;34;34;34;34;65;34;259;
  257;0;0;0;0;0;0;0;0;0;0;0;0;0;0;0;0;0;0;0;0;0;0;0;0;0;0;0;0;256;
  257;0;0;0;0;0;0;0;0;0;0;0;0;0;0;0;0;0;0;0;0;0;0;0;0;0;0;0;0;256;
  257;0;0;0;0;0;0;0;0;0;0;0;0;0;0;0;0;0;0;0;0;0;0;0;0;0;0;0;0;256;
  257;0;0;0;0;0;0;0;0;0;0;0;0;0;0;0;0;0;0;0;0;0;0;0;0;0;0;0;0;256;
  257;0;0;0;0;0;0;0;0;0;0;0;0;0;0;0;0;0;0;0;0;0;0;0;0;0;0;0;0;256;
  257;0;0;0;0;0;0;0;0;0;0;0;0;0;0;0;0;0;0;0;0;0;0;0;0;0;0;0;0;256;
  257;0;0;0;0;0;0;0;0;0;0;0;0;0;0;0;0;0;0;0;0;0;0;0;0;0;0;0;0;256;
  257;0;0;0;0;0;0;0;0;0;0;0;0;0;0;0;0;0;0;0;0;0;0;0;0;0;0;0;0;256;
  257;0;0;0;0;0;0;0;0;0;0;0;0;0;0;0;0;0;0;0;0;0;0;0;0;0;0;0;0;256;
  257;0;0;0;0;0;0;0;0;0;0;0;0;0;0;0;0;0;0;0;0;0;0;0;0;0;0;0;0;256;
  257;0;0;0;0;0;0;0;0;0;0;0;0;0;0;0;0;0;0;0;0;0;0;0;0;0;0;0;0;256;
  257;0;0;0;0;0;0;0;0;0;0;0;0;0;0;0;0;0;0;0;0;0;0;0;0;0;0;0;0;256;
  257;0;0;0;0;0;0;0;0;0;0;0;0;0;0;0;0;0;0;0;0;0;0;0;0;0;0;0;0;256;
  257;0;0;0;0;0;0;0;0;0;0;0;0;0;0;0;0;0;0;0;0;0;0;0;0;0;0;0;0;256;
  257;0;0;0;0;0;0;0;0;0;0;0;0;0;0;0;0;0;0;0;0;0;0;0;0;0;0;0;0;256;
  257;0;0;0;0;0;0;0;0;0;0;0;0;0;0;0;0;0;0;0;0;0;0;0;0;0;0;0;0;256;
  290;2;2;2;2;2;2;2;2;2;2;2;2;2;2;2;2;2;2;2;2;2;2;2;2;2;2;2;2;291;
  34;34;34;34;34;34;34;34;34;34;34;34;34;34;34;34;34;34;34;34;34;34;34;34;34;34;34;34;34;34
].

(** The floor tiles are drawn at random by the constructor and only used
    for rendering. *)
Record t : Type := mk { floors : list Z }.

Definition width (m : t) : Z := 30.
Definition height (m : t) : Z := 20.

(** [MAP[tx+(ty*this.width)]]: an index that is not a non-negative integer
    below the length reads [undefined]. *)
Definition getTile (m : t) (tx ty : JS.num) : JS.num :=
  match tx, ty with
  | JS.Num a, JS.Num b =>
      let i := a + b * width m in
      if decide (0 ≤ i) then JS.get MAP (Z.to_nat i) else JS.Undefined
  | _, _ => JS.Undefined
  end.

(** [Math.floor(v / 16)] *)
Definition floorDiv16 (v : JS.num) : JS.num :=
  match v with JS.Num z => JS.Num (z / 16) | _ => JS.NaN end.

Definition blockedAt (m : t) (x y : JS.num) : bool :=
  let y := JS.add y 20 in
  let x := JS.add x 8 in
  JS.strict_neq (getTile m (floorDiv16 x) (floorDiv16 y)) (JS.Num 0).

End SimpleGameMap.

#[global] Instance SimpleGameMap_WorldMap : WorldMap SimpleGameMap.t := {
  blockedAt := SimpleGameMap.blockedAt;
  width := SimpleGameMap.width;
  height := SimpleGameMap.height
}.

(** ** Decoding of the control bits, shared by both worlds *)

Definition controlBit (controls : JS.num) (bit : Z) : bool :=
  negb (bool_decide (JS.band controls (JS.Num bit) = 0)).

(** [controls += entity.left ? LEFT : 0; ...] *)
Definition encodeControls (e : Entity.t) : Z :=
  0 + (if Entity.left e then LEFT else 0)
    + (if Entity.right e then RIGHT else 0)
    + (if Entity.up e then UP else 0)
    + (if Entity.down e then DOWN else 0).

(** ** model/ClientWorld.ts *)

Module ClientWorld.

(** One entity record as the loop of [handleState] reads it:
    [id], [x], [y], [type], [controls]. *)
Abbreviation EntityRecord := (Z * JS.num * JS.num * JS.num * JS.num)%type (only parsing).

Section defs.
Context {M : Type} `{WorldMap M}.

(** [localSequenceNumber2] is twice the source's [localSequenceNumber]. *)
Record t : Type := mk {
  world : AbstractWorld.t M;
  myId : Z;
  lastSequenceNumber : Z;
  nameById : gmap Z string;
  localSequenceNumber2 : Z
}.

Definition withWorld (w : AbstractWorld.t M) (cw : t) : t :=
  {| world := w; myId := myId cw; lastSequenceNumber := lastSequenceNumber cw;
     nameById := nameById cw; localSequenceNumber2 := localSequenceNumber2 cw |}.

Definition getLocalEntity (cw : t) : option ref :=
  AbstractWorld.findById (myId cw) (world cw).

(** [sendState]: the words handed to [sendUnorderedBinary], when there is a
    local entity. *)
Definition sendState (cw : t) : option JS.Uint16Array :=
  match getLocalEntity cw with
  | Some l =>
      match AbstractWorld.objects (world cw) !! l with
      | Some entity =>
          Some (JS.newUint16Array
                  [JS.floor (Entity.x entity); JS.floor (Entity.y entity);
                   JS.Num (encodeControls entity)])
      | None => None
      end
  | None => None
  end.

(** The parsed JSON of a reliable message, by its [type] tag. *)
Inductive Reliable : Type :=
| identify (entityId : Z)
| name (entityId : Z) (name : string)
| time (seq : Z)
| unrecognized.

Definition handleReliable (message : Reliable) (cw : t) : t :=
  match message with
  | identify entityId =>
      {| world := world cw; myId := entityId;
         lastSequenceNumber := lastSequenceNumber cw;
         nameById := nameById cw; localSequenceNumber2 := localSequenceNumber2 cw |}
  | name entityId n =>
      {| world := world cw; myId := myId cw;
         lastSequenceNumber := lastSequenceNumber cw;
         nameById := <[entityId := n]> (nameById cw);
         localSequenceNumber2 := localSequenceNumber2 cw |}
  | time seq =>
      {| world := world cw; myId := myId cw;
         lastSequenceNumber := lastSequenceNumber cw;
         nameById := nameById cw; localSequenceNumber2 := 2 * seq |}
  | unrecognized => cw
  end.

(** [state[0] | ((state[1] << 16) & 0xFFFF0000)] *)
Definition decodeSequence (state : JS.Uint16Array) : Z :=
  JS.bor (JS.get state 0)
         (JS.Num (JS.band (JS.Num (JS.shl (JS.get state 1) 16)) (JS.Num 4294901760))).

(** The records the [while (index < state.length)] loop reads from the words
    at [index]: five words each; the loop only tests the length before it
    reads the id, so the fields of a last short record are [undefined]. *)
Fixpoint readRecords (words : list Z) : list EntityRecord :=
  match words with
  | [] => []
  | id :: x :: y :: type :: controls :: rest =>
      (id, JS.Num x, JS.Num y, JS.Num type, JS.Num controls) :: readRecords rest
  | id :: last =>
      [(id, JS.get last 0, JS.get last 1, JS.get last 2, JS.get last 3)]
  end.

(** The body of the loop, on the client world and [entitiesInUpdate]. *)
Definition applyRecord (acc : t * list ref) (r : EntityRecord)
  : t * list ref :=
  let '(cw, entitiesInUpdate) := acc in
  let '(id, x, y, type, controls) := r in
  let found := AbstractWorld.findById id (world cw) in
  let created := bool_decide (found = None) in
  let entity := default (length (AbstractWorld.objects (world cw))) found in
  let cw :=
    if created
    then withWorld
           (AbstractWorld.withEntities (AbstractWorld.entities (world cw) ++ [entity])
              (AbstractWorld.withObjects
                 (AbstractWorld.objects (world cw)
                    ++ [Entity.new id (JS.Num 0) (JS.Num 0) (JS.Num 0)])
                 (world cw))) cw
    else cw in
  let localEntity := getLocalEntity cw in
  let cw :=
    if bool_decide (Some entity ≠ localEntity) || created
    then withWorld
           (AbstractWorld.withObjects
              (alter (Entity.updateState x y type
                        (controlBit controls LEFT) (controlBit controls RIGHT)
                        (controlBit controls UP) (controlBit controls DOWN))
                     entity (AbstractWorld.objects (world cw)))
              (world cw)) cw
    else cw in
  (cw, entitiesInUpdate ++ [entity]).

(** The loop over the copy [[...this.entities]] that drops what the update
    did not mention. *)
Definition removeUnmentioned (entitiesInUpdate : list ref) (es : list ref) : list ref :=
  foldl (λ cur entity,
           if JS.includes entity entitiesInUpdate then cur
           else JS.splice1 (JS.indexOf entity cur) cur)
        es es.

(** [Math.floor((localSequenceNumber - lastSequenceNumber) / step)] with
    [step = SERVER_UPDATES_PER_SECOND / CLIENT_UPDATES_PER_SECOND]: on the
    doubled values the quotient is
    [(localSequenceNumber2 - 2 * lastSequenceNumber) / (2 * step)]. *)
Definition step2 : Z := 2 * SERVER_UPDATES_PER_SECOND / CLIENT_UPDATES_PER_SECOND.

Definition stepsAhead (cw : t) : Z :=
  (localSequenceNumber2 cw - 2 * lastSequenceNumber cw) / step2.

Definition replay (cw : t) : t :=
  let n := stepsAhead cw in
  if decide (n > 0)
  then Nat.iter (Z.to_nat n)
         (λ cw, withWorld (AbstractWorld.moveEntities (getLocalEntity cw) (world cw)) cw) cw
  else {| world := world cw; myId := myId cw;
          lastSequenceNumber := lastSequenceNumber cw;
          nameById := nameById cw;
          localSequenceNumber2 := 2 * lastSequenceNumber cw |}.

Definition handleState (state : JS.Uint16Array) (cw : t) : t :=
  let seq := decodeSequence state in
  if decide (seq ≤ lastSequenceNumber cw) then cw
  else
    let cw := {| world := world cw; myId := myId cw; lastSequenceNumber := seq;
                 nameById := nameById cw;
                 localSequenceNumber2 := localSequenceNumber2 cw |} in
    let '(cw, entitiesInUpdate) :=
      foldl applyRecord (cw, []) (readRecords (drop 2 state)) in
    let cw := withWorld
                (AbstractWorld.withEntities
                   (removeUnmentioned entitiesInUpdate (AbstractWorld.entities (world cw)))
                   (world cw)) cw in
    replay cw.

(** The 1000 / CLIENT_UPDATES_PER_SECOND timer of the constructor. *)
Definition clientTick (cw : t) : t :=
  let w := AbstractWorld.moveEntities None (world cw) in
  {| world := w; myId := myId cw; lastSequenceNumber := lastSequenceNumber cw;
     nameById := nameById cw;
     localSequenceNumber2 :=
       if decide (localSequenceNumber2 cw ≠ 0)
       then localSequenceNumber2 cw + step2
       else localSequenceNumber2 cw |}.

(** [new ClientWorld(client, map)] *)
Definition new (map : M) : t :=
  {| world := AbstractWorld.mk [] [] map step2; myId := 0; lastSequenceNumber := 0;
     nameById := ∅; localSequenceNumber2 := 0 |}.

(** What reaches the client world: the two handlers the constructor sets
    on the channel ([onOrderedText], [onUnorderedBinary]) and its two
    timers, the one that sends the state report (it changes nothing) and
    the one that moves the entities. *)
Inductive Event : Type :=
| orderedText (message : Reliable)
| unorderedBinary (buffer : JS.Uint16Array)
| sendTimer
| moveTimer.

Definition handle (ev : Event) (cw : t) : t :=
  match ev with
  | orderedText message => handleReliable message cw
  | unorderedBinary buffer => handleState buffer cw
  | sendTimer => cw
  | moveTimer => clientTick cw
  end.

Definition run (evs : list Event) (cw : t) : t := foldl (λ cw ev, handle ev cw) cw evs.

End defs.
Arguments t M : clear implicits.
End ClientWorld.


(** ** The ready state of an RTCDataChannel, as a status handler reads it *)

Inductive RTCDataChannelState : Type :=
| connecting
| open
| closing
| closed.

#[global] Instance RTCDataChannelState_eq_dec : EqDecision RTCDataChannelState.
Proof. solve_decision. Defined.

(** ** transport/WebChannel.ts (the client side of a connection) *)

Module WebChannel.

(** What the channel reports to its owner. *)
Inductive Callback : Type :=
| Connect
| Disconnect.

#[global] Instance Callback_eq_dec : EqDecision Callback.
Proof. solve_decision. Defined.

(** [orderedChannel] and [unorderedChannel] hold the label of the data
    channel received, [None] for [undefined]; [onConnect] and
    [onDisconnect] tell whether the callback is set. *)
Record t : Type := mk {
  unorderedChannel : option string;
  orderedChannel : option string;
  onConnect : bool;
  onDisconnect : bool
}.

Definition connected (c : t) : bool :=
  bool_decide (is_Some (orderedChannel c)) && bool_decide (is_Some (unorderedChannel c)).

Definition receiveOrderedChannel (channel : string) (c : t) : t :=
  {| unorderedChannel := unorderedChannel c; orderedChannel := Some channel;
     onConnect := onConnect c; onDisconnect := onDisconnect c |}.

Definition receiveUnorderedChannel (channel : string) (c : t) : t :=
  {| unorderedChannel := Some channel; orderedChannel := orderedChannel c;
     onConnect := onConnect c; onDisconnect := onDisconnect c |}.

(** [remoteConnection.ondatachannel] *)
Definition ondatachannel (label : string) (c : t) : t :=
  let c :=
    if bool_decide (label = "unordered"%string) then receiveUnorderedChannel label c else c in
  if bool_decide (label = "ordered"%string) then receiveOrderedChannel label c else c.

Definition handleUnorderedReceiveChannelStatusChange (readyState : RTCDataChannelState) (c : t)
  : t * list Callback :=
  match unorderedChannel c with
  | Some _ =>
      if decide (readyState = open)
      then (c, if onConnect c && connected c then [Connect] else [])
      else
        ({| unorderedChannel := None; orderedChannel := orderedChannel c;
            onConnect := onConnect c; onDisconnect := onDisconnect c |},
         if connected c then (if onDisconnect c then [Disconnect] else []) else [])
  | None => (c, [])
  end.

Definition handleOrderedReceiveChannelStatusChange (readyState : RTCDataChannelState) (c : t)
  : t * list Callback :=
  match orderedChannel c with
  | Some _ =>
      if decide (readyState = open)
      then (c, if onConnect c && connected c then [Connect] else [])
      else
        ({| unorderedChannel := unorderedChannel c; orderedChannel := None;
            onConnect := onConnect c; onDisconnect := onDisconnect c |},
         if connected c then (if onDisconnect c then [Disconnect] else []) else [])
  | None => (c, [])
  end.

(** What the browser delivers to the channel: a data channel announced by
    the peer, or the open/close event of one of the two channels, with the
    ready state its handler reads. *)
Inductive Event : Type :=
| datachannel (label : string)
| orderedStatus (readyState : RTCDataChannelState)
| unorderedStatus (readyState : RTCDataChannelState).

Definition handle (ev : Event) (c : t) : t * list Callback :=
  match ev with
  | datachannel label => (ondatachannel label c, [])
  | orderedStatus readyState => handleOrderedReceiveChannelStatusChange readyState c
  | unorderedStatus readyState => handleUnorderedReceiveChannelStatusChange readyState c
  end.

(** The callbacks fired along a sequence of events, in order. *)
Fixpoint run (evs : list Event) (c : t) : t * list Callback :=
  match evs with
  | [] => (c, [])
  | ev :: evs =>
      let '(c, fired) := handle ev c in
      let '(c, later) := run evs c in
      (c, fired ++ later)
  end.

(** The channel after [startConnection]: no data channel received yet. *)
Definition started (onConnect onDisconnect : bool) : t :=
  {| unorderedChannel := None; orderedChannel := None;
     onConnect := onConnect; onDisconnect := onDisconnect |}.

End WebChannel.

(** ** transport/WebChannelServer.ts (the server side) *)

Module WebChannelServer.

(** A reference to a [WebChannelClient] object. *)
Abbreviation cref := nat (only parsing).

Inductive Callback : Type :=
| Connect (client : cref)
| Disconnect (client : cref).

#[global] Instance Callback_eq_dec : EqDecision Callback.
Proof. solve_decision. Defined.

(** The two channels are created by the constructor; the fields hold their
    labels, [None] for [undefined]. *)
Record WebChannelClient : Type := mkClient {
  unorderedChannel : option string;
  orderedChannel : option string;
  unorderedChannelConnected : bool;
  orderedChannelConnected : bool;
  id : Z;
  username : string
}.

(** The server: the store of client objects, the roster [clients] of
    references, and whether the two callbacks are set. *)
Record t : Type := mk {
  clientObjects : list WebChannelClient;
  clients : list cref;
  nextId : Z;
  onConnect : bool;
  onDisconnect : bool
}.

Definition connected (c : WebChannelClient) : bool :=
  unorderedChannelConnected c && orderedChannelConnected c.

Definition withClients (l : list cref) (s : t) : t :=
  {| clientObjects := clientObjects s; clients := l; nextId := nextId s;
     onConnect := onConnect s; onDisconnect := onDisconnect s |}.

Definition withClientObjects (o : list WebChannelClient) (s : t) : t :=
  {| clientObjects := o; clients := clients s; nextId := nextId s;
     onConnect := onConnect s; onDisconnect := onDisconnect s |}.

Definition removeClient (client : cref) (s : t) : t :=
  if JS.includes client (clients s)
  then withClients (JS.splice1 (JS.indexOf client (clients s)) (clients s)) s
  else s.

(** [new WebChannelClient(id, server, username)] *)
Definition newClient (id : Z) (username : string) : WebChannelClient :=
  {| unorderedChannel := Some "unordered"%string; orderedChannel := Some "ordered"%string;
     unorderedChannelConnected := false; orderedChannelConnected := false;
     id := id; username := username |}.

Definition connectionRequest (username : string) (s : t) : t :=
  let remoteClient := length (clientObjects s) in
  {| clientObjects := clientObjects s ++ [newClient (nextId s) username];
     clients := clients s ++ [remoteClient];
     nextId := nextId s + 1;
     onConnect := onConnect s; onDisconnect := onDisconnect s |}.

Definition handleOrderedStatusChange (readyState : RTCDataChannelState) (this : cref) (s : t)
  : t * list Callback :=
  match clientObjects s !! this with
  | Some c =>
      match orderedChannel c with
      | Some _ =>
          if decide (readyState = open)
          then
            let c := {| unorderedChannel := unorderedChannel c;
                        orderedChannel := orderedChannel c;
                        unorderedChannelConnected := unorderedChannelConnected c;
                        orderedChannelConnected := true;
                        id := id c; username := username c |} in
            (withClientObjects (<[this := c]> (clientObjects s)) s,
             if connected c then (if onConnect s then [Connect this] else []) else [])
          else
            let '(s, fired) :=
              if connected c
              then (removeClient this s, if onDisconnect s then [Disconnect this] else [])
              else (s, []) in
            let c := {| unorderedChannel := unorderedChannel c;
                        orderedChannel := None;
                        unorderedChannelConnected := false;
                        orderedChannelConnected := orderedChannelConnected c;
                        id := id c; username := username c |} in
            (withClientObjects (<[this := c]> (clientObjects s)) s, fired)
      | None => (s, [])
      end
  | None => (s, [])
  end.

Definition handleUnorderedStatusChange (readyState : RTCDataChannelState) (this : cref) (s : t)
  : t * list Callback :=
  match clientObjects s !! this with
  | Some c =>
      match unorderedChannel c with
      | Some _ =>
          if decide (readyState = open)
          then
            let c := {| unorderedChannel := unorderedChannel c;
                        orderedChannel := orderedChannel c;
                        unorderedChannelConnected := true;
                        orderedChannelConnected := orderedChannelConnected c;
                        id := id c; username := username c |} in
            (withClientObjects (<[this := c]> (clientObjects s)) s,
             if connected c then (if onConnect s then [Connect this] else []) else [])
          else
            let '(s, fired) :=
              if connected c
              then (removeClient this s, if onDisconnect s then [Disconnect this] else [])
              else (s, []) in
            let c := {| unorderedChannel := None;
                        orderedChannel := orderedChannel c;
                        unorderedChannelConnected := false;
                        orderedChannelConnected := orderedChannelConnected c;
                        id := id c; username := username c |} in
            (withClientObjects (<[this := c]> (clientObjects s)) s, fired)
      | None => (s, [])
      end
  | None => (s, [])
  end.

(** The events the server reacts to: a [connect] request on the relay, and
    the open/close events of the two channels of a client. *)
Inductive Event : Type :=
| connect (username : string)
| orderedStatus (client : cref) (readyState : RTCDataChannelState)
| unorderedStatus (client : cref) (readyState : RTCDataChannelState).

#[global] Instance Event_eq_dec : EqDecision Event.
Proof. solve_decision. Defined.

Definition handle (ev : Event) (s : t) : t * list Callback :=
  match ev with
  | connect username => (connectionRequest username s, [])
  | orderedStatus client readyState => handleOrderedStatusChange readyState client s
  | unorderedStatus client readyState => handleUnorderedStatusChange readyState client s
  end.

Fixpoint run (evs : list Event) (s : t) : t * list Callback :=
  match evs with
  | [] => (s, [])
  | ev :: evs =>
      let '(s, fired) := handle ev s in
      let '(s, later) := run evs s in
      (s, fired ++ later)
  end.

(** [new WebChannelServer(serverId, relayServer)] *)
Definition new (onConnect onDisconnect : bool) : t :=
  {| clientObjects := []; clients := []; nextId := 1;
     onConnect := onConnect; onDisconnect := onDisconnect |}.

(** [client.sendUnorderedBinary(data)]: the data handed to the unordered
    channel of the client, when that channel exists. *)
Definition sendUnorderedBinary (s : t) (client : cref) (data : JS.Uint16Array)
  : list (cref * JS.Uint16Array) :=
  match clientObjects s !! client with
  | Some c =>
      match unorderedChannel c with
      | Some _ => [(client, data)]
      | None => []
      end
  | None => []
  end.

(** What a relay message makes a client object do with its peer
    connection. *)
Inductive PeerAction : Type :=
| setRemoteDescription
| addIceCandidate.

#[global] Instance PeerAction_eq_dec : EqDecision PeerAction.
Proof. solve_decision. Defined.

(** [onRelayMessage(from, message)] of a client object; [type] is
    [message.type], [None] when the message has none.  The empty string is
    as falsy as [undefined]. *)
Definition onRelayMessage (type : option string) : list PeerAction :=
  match type with
  | Some ty =>
      if bool_decide (ty = ""%string) then []
      else if bool_decide (ty = "answer"%string) then [setRemoteDescription]
      else if bool_decide (ty = "candidate"%string) then [addIceCandidate]
      else []
  | None => []
  end.

(** [clients.find(client => client.username === from)] *)
Definition findByUsername (from : string) (s : t) : option cref :=
  List.find (λ client, bool_decide (username <$> clientObjects s !! client = Some from))
    (clients s).

(** [relayServer.onMessage] as the constructor sets it: the new server and
    the actions on the peer connections of its clients. *)
Definition onMessage (from : string) (type : option string) (s : t)
  : t * list (cref * PeerAction) :=
  match type with
  | Some ty =>
      if bool_decide (ty = ""%string) then (s, [])
      else if bool_decide (ty = "connect"%string) then (connectionRequest from s, [])
      else
        match findByUsername from s with
        | Some targetClient => (s, (λ a, (targetClient, a)) <$> onRelayMessage type)
        | None => (s, [])
        end
  | None => (s, [])
  end.

End WebChannelServer.


(** ** model/ServerWorld.ts *)

Module ServerWorld.
Section defs.
Context {M : Type} `{WorldMap M}.

(** [clientToEntity] maps the id of a client to the entity object bound to
    it. *)
Record t : Type := mk {
  world : AbstractWorld.t M;
  nextEntityId : Z;
  clientToEntity : gmap Z ref;
  sequenceNumber : Z
}.

Definition withWorld (w : AbstractWorld.t M) (sw : t) : t :=
  {| world := w; nextEntityId := nextEntityId sw;
     clientToEntity := clientToEntity sw; sequenceNumber := sequenceNumber sw |}.

(** [this.sequenceNumber++; if (this.sequenceNumber > 50000) this.sequenceNumber = 0;] *)
Definition advanceSequence (sequenceNumber : Z) : Z :=
  let sequenceNumber := sequenceNumber + 1 in
  if decide (sequenceNumber > 50000) then 0 else sequenceNumber.

(** The five numbers [createState] pushes for one entity. *)
Definition encodeEntity (entity : Entity.t) : list JS.num :=
  [JS.Num (Entity.id entity); Entity.x entity; Entity.y entity; Entity.type entity;
   JS.Num (encodeControls entity)].

(** The objects of the array [this.entities], in order. *)
Definition entityObjects (w : AbstractWorld.t M) : list Entity.t :=
  omap (λ l, AbstractWorld.objects w !! l) (AbstractWorld.entities w).

Definition createState (sequence : Z) (sw : t) : JS.Uint16Array :=
  JS.newUint16Array
    (JS.Num sequence :: concat (encodeEntity <$> entityObjects (world sw))).

Definition clientStateReceived (client : Z) (array : JS.Uint16Array) (sw : t) : t :=
  match clientToEntity sw !! client with
  | Some entity =>
      if negb (blockedAt (AbstractWorld.map (world sw)) (JS.get array 0) (JS.get array 1))
      then
        let left := controlBit (JS.get array 2) LEFT in
        let right := controlBit (JS.get array 2) RIGHT in
        let up := controlBit (JS.get array 2) UP in
        let down := controlBit (JS.get array 2) DOWN in
        withWorld
          (AbstractWorld.withObjects
             (alter (λ e, Entity.updateState (JS.get array 0) (JS.get array 1)
                            (Entity.type e) left right up down e)
                    entity (AbstractWorld.objects (world sw)))
             (world sw)) sw
      else sw
  | None => sw
  end.

(** [sendReliable(client, data)]: the message handed to the ordered channel
    of the client, when that channel exists. *)
Definition sendReliable (server : WebChannelServer.t) (client : WebChannelServer.cref)
    (data : ClientWorld.Reliable) : list (WebChannelServer.cref * ClientWorld.Reliable) :=
  match WebChannelServer.clientObjects server !! client with
  | Some c =>
      match WebChannelServer.orderedChannel c with
      | Some _ => [(client, data)]
      | None => []
      end
  | None => []
  end.

Definition sendAllReliable (server : WebChannelServer.t) (data : ClientWorld.Reliable)
  : list (WebChannelServer.cref * ClientWorld.Reliable) :=
  flat_map
    (λ client,
       match WebChannelServer.clientObjects server !! client with
       | Some c =>
           if WebChannelServer.connected c then sendReliable server client data else []
       | None => []
       end)
    (WebChannelServer.clients server).

(** [sendToAll(buffer)]: what is handed to the unordered channels, in the
    order of the roster. *)
Definition sendToAll (server : WebChannelServer.t) (buffer : JS.Uint16Array)
  : list (WebChannelServer.cref * JS.Uint16Array) :=
  flat_map
    (λ client,
       match WebChannelServer.clientObjects server !! client with
       | Some c =>
           if WebChannelServer.connected c
           then WebChannelServer.sendUnorderedBinary server client buffer
           else []
       | None => []
       end)
    (WebChannelServer.clients server).

(** [clientConnected(client)]; [rx], [ry] and [rt] are the three values
    [Math.floor(Math.random() * 100)], [Math.floor(Math.random() * 100)]
    and [Math.floor(Math.random() * 8)].  The result is the new world and
    the reliable messages sent, in order. *)
Definition clientConnected (server : WebChannelServer.t) (client : WebChannelServer.cref)
    (rx ry rt : Z) (sw : t) : t * list (WebChannelServer.cref * ClientWorld.Reliable) :=
  match WebChannelServer.clientObjects server !! client with
  | Some c =>
      let entity :=
        Entity.new (nextEntityId sw) (JS.Num (100 + rx)) (JS.Num (100 + ry)) (JS.Num (1 + rt)) in
      let sent :=
        sendReliable server client (ClientWorld.time (sequenceNumber sw))
        ++ sendReliable server client (ClientWorld.identify (Entity.id entity))
        ++ sendAllReliable server (ClientWorld.name (Entity.id entity) (WebChannelServer.username c))
        ++ flat_map
             (λ other,
                if decide (client ≠ other)
                then
                  match WebChannelServer.clientObjects server !! other with
                  | Some o =>
                      match clientToEntity sw !! WebChannelServer.id o with
                      | Some l =>
                          match AbstractWorld.objects (world sw) !! l with
                          | Some e =>
                              sendReliable server client
                                (ClientWorld.name (Entity.id e) (WebChannelServer.username o))
                          | None => []
                          end
                      | None => []
                      end
                  | None => []
                  end
                else [])
             (WebChannelServer.clients server) in
      let l := length (AbstractWorld.objects (world sw)) in
      ({| world :=
            AbstractWorld.withEntities (AbstractWorld.entities (world sw) ++ [l])
              (AbstractWorld.withObjects (AbstractWorld.objects (world sw) ++ [entity])
                 (world sw));
          nextEntityId := nextEntityId sw + 1;
          clientToEntity := <[WebChannelServer.id c := l]> (clientToEntity sw);
          sequenceNumber := sequenceNumber sw |},
       sent)
  | None => (sw, [])
  end.

Definition clientDisconnected (server : WebChannelServer.t) (client : WebChannelServer.cref)
    (sw : t) : t :=
  match WebChannelServer.clientObjects server !! client with
  | Some c =>
      match clientToEntity sw !! WebChannelServer.id c with
      | Some entity =>
          {| world :=
               AbstractWorld.withEntities
                 (JS.splice1 (JS.indexOf entity (AbstractWorld.entities (world sw)))
                    (AbstractWorld.entities (world sw)))
                 (world sw);
             nextEntityId := nextEntityId sw;
             clientToEntity := delete (WebChannelServer.id c) (clientToEntity sw);
             sequenceNumber := sequenceNumber sw |}
      | None => sw
      end
  | None => sw
  end.

(** The state update timer: the buffer made for [sendToAll] and the world
    after the tick.  With [simulateNetworkDelayAndLoss] the same buffer is
    sent late or not at all; the world after the tick is the same. *)
Definition tick (sw : t) : JS.Uint16Array * t :=
  let sw := {| world := world sw; nextEntityId := nextEntityId sw;
               clientToEntity := clientToEntity sw;
               sequenceNumber := advanceSequence (sequenceNumber sw) |} in
  let buffer := createState (sequenceNumber sw) sw in
  (buffer, withWorld (AbstractWorld.moveEntities None (world sw)) sw).

(** What reaches the server world: the callbacks of the transport server
    (with the state of the transport server and, for a connection, the
    three random draws), a state report of a client, and the timer. *)
Inductive Event : Type :=
| connected (server : WebChannelServer.t) (client : WebChannelServer.cref) (rx ry rt : Z)
| disconnected (server : WebChannelServer.t) (client : WebChannelServer.cref)
| unorderedBinary (client : Z) (array : JS.Uint16Array)
| timer.

Definition handle (ev : Event) (sw : t) : t :=
  match ev with
  | connected server client rx ry rt => (clientConnected server client rx ry rt sw).1
  | disconnected server client => clientDisconnected server client sw
  | unorderedBinary client array => clientStateReceived client array sw
  | timer => (tick sw).2
  end.

Definition run (evs : list Event) (sw : t) : t := foldl (λ sw ev, handle ev sw) sw evs.

(** [new ServerWorld(server, map)] *)
Definition new (map : M) : t :=
  {| world := AbstractWorld.mk [] [] map 2; nextEntityId := 1;
     clientToEntity := ∅; sequenceNumber := 0 |}.

End defs.
Arguments t M : clear implicits.
End ServerWorld.


(** ** SimpleP2PGame.ts (the key handlers) *)

Module SimpleP2PGame.
Section defs.
Context {M : Type} `{WorldMap M}.

(** The fields of the game the key handlers read and write: [inGame] and
    [clientWorld], [None] for [undefined]. *)
Record t : Type := mk {
  inGame : bool;
  clientWorld : option (ClientWorld.t M)
}.

(** [startServer()], as far as these two fields go: it sets [inGame]; the
    transport server it constructs starts the server world, and later the
    client, from its callbacks. *)
Definition startServer (g : t) : t :=
  {| inGame := true; clientWorld := clientWorld g |}.

(** The four conditional assignments of a key handler to the flags of the
    local entity; [value] is [true] in [keyDown] and [false] in [keyUp]. *)
Definition applyKey (key : string) (value : bool) (e : Entity.t) : Entity.t :=
  {| Entity.id := Entity.id e; Entity.x := Entity.x e; Entity.y := Entity.y e;
     Entity.type := Entity.type e;
     Entity.faceLeft := Entity.faceLeft e; Entity.moving := Entity.moving e;
     Entity.left :=
       if bool_decide (key = "ArrowLeft"%string ∨ key = "a"%string)
       then value else Entity.left e;
     Entity.right :=
       if bool_decide (key = "ArrowRight"%string ∨ key = "d"%string)
       then value else Entity.right e;
     Entity.up :=
       if bool_decide (key = "ArrowUp"%string ∨ key = "w"%string)
       then value else Entity.up e;
     Entity.down :=
       if bool_decide (key = "ArrowDown"%string ∨ key = "s"%string)
       then value else Entity.down e |}.

(** [if (this.clientWorld) { const localEntity = this.clientWorld.getLocalEntity();
    if (localEntity) { ... } }]: the assignments go to the object of the
    local entity, in place. *)
Definition withLocalEntity (f : Entity.t → Entity.t) (g : t) : t :=
  match clientWorld g with
  | Some cw =>
      match ClientWorld.getLocalEntity cw with
      | Some localEntity =>
          {| inGame := inGame g;
             clientWorld :=
               Some (ClientWorld.withWorld
                       (AbstractWorld.withObjects
                          (alter f localEntity (AbstractWorld.objects (ClientWorld.world cw)))
                          (ClientWorld.world cw)) cw) |}
      | None => g
      end
  | None => g
  end.

Definition keyDown (key : string) (g : t) : t :=
  let g := if negb (inGame g) && bool_decide (key = "s"%string) then startServer g else g in
  withLocalEntity (applyKey key true) g.

Definition keyUp (key : string) (g : t) : t :=
  withLocalEntity (applyKey key false) g.

End defs.
Arguments t M : clear implicits.
End SimpleP2PGame.


(** * State predicates *)

(** The roster never holds the same client object twice, and only holds
    objects that were constructed. *)
Definition roster_ok (s : WebChannelServer.t) : Prop :=
  NoDup (WebChannelServer.clients s) ∧
  ∀ c, c ∈ WebChannelServer.clients s → (c < length (WebChannelServer.clientObjects s))%nat.

Section predicates.
Context {M : Type} `{WorldMap M}.

(** Every reference of the array [entities] points to an object of the
    store. *)
Definition allocated (w : AbstractWorld.t M) : Prop :=
  ∀ l, l ∈ AbstractWorld.entities w → (l < length (AbstractWorld.objects w))%nat.

(** No entity of the world stands on a position the map reports blocked. *)
Definition unblocked (w : AbstractWorld.t M) : Prop :=
  ∀ l e, l ∈ AbstractWorld.entities w → AbstractWorld.objects w !! l = Some e →
    blockedAt (AbstractWorld.map w) (Entity.x e) (Entity.y e) = false.

End predicates.

(** The entity stands on the floor inside the walls of the game map. *)
Definition inside (e : Entity.t) : Prop :=
  ∃ px py, Entity.x e = JS.Num px ∧ Entity.y e = JS.Num py ∧
    8 ≤ px < 456 ∧ 12 ≤ py < 268.

(** The ids of the entities of an array, in the order of the array. *)
Definition entityIds (o : list Entity.t) (es : list nat) : list Z :=
  omap (λ l, Entity.id <$> o !! l) es.

(** The id, the position and the type of the entity are integers that fit
    an unsigned 16-bit word. *)
Definition fits16 (e : Entity.t) : Prop :=
  0 ≤ Entity.id e < 65536 ∧
  ∃ px py pt, Entity.x e = JS.Num px ∧ Entity.y e = JS.Num py ∧ Entity.type e = JS.Num pt ∧
    0 ≤ px < 65536 ∧ 0 ≤ py < 65536 ∧ 0 ≤ pt < 65536.

(** The ids of the client objects are their rank of construction, counted
    from 1, and [nextId] is the rank of the next one. *)
Definition ids_ok (s : WebChannelServer.t) : Prop :=
  WebChannelServer.nextId s = 1 + Z.of_nat (length (WebChannelServer.clientObjects s)) ∧
  ∀ (c : nat) obj, WebChannelServer.clientObjects s !! c = Some obj →
    WebChannelServer.id obj = 1 + Z.of_nat c.

Section books.
Context {M : Type} `{WorldMap M}.

(** The entities of a world are apart: every reference of the array points
    to an object, no object is in the array twice, and no two entities of
    the array carry the same id. *)
Definition wellformed (w : AbstractWorld.t M) : Prop :=
  allocated w ∧ NoDup (AbstractWorld.entities w) ∧
  NoDup (entityIds (AbstractWorld.objects w) (AbstractWorld.entities w)).

(** The server world keeps its books: the entities are apart, every id in
    use is positive and below the next one to hand out, and every client
    bound to an entity is bound to an entity of the world that no other
    client is bound to. *)
Definition server_ok (sw : ServerWorld.t M) : Prop :=
  wellformed (ServerWorld.world sw) ∧
  (∀ i, i ∈ entityIds (AbstractWorld.objects (ServerWorld.world sw))
              (AbstractWorld.entities (ServerWorld.world sw)) →
        0 < i < ServerWorld.nextEntityId sw) ∧
  0 < ServerWorld.nextEntityId sw ∧
  (∀ c l, ServerWorld.clientToEntity sw !! c = Some l →
          l ∈ AbstractWorld.entities (ServerWorld.world sw)) ∧
  (∀ c c' l, ServerWorld.clientToEntity sw !! c = Some l →
             ServerWorld.clientToEntity sw !! c' = Some l → c = c').

End books.

(** * Theorems *)

(** ** Arrays of references *)

Lemma includes_true (x : nat) (l : list nat) : JS.includes x l = true ↔ x ∈ l.
Proof. unfold JS.includes. by rewrite bool_decide_eq_true. Qed.

Lemma indexOf_elem (x : nat) (l : list nat) :
  x ∈ l → ∃ i : nat, JS.indexOf x l = Z.of_nat i ∧ l !! i = Some x ∧ ∀ j : nat, (j < i)%nat → l !! j ≠ Some x.
Proof.
  intros Hx. unfold JS.indexOf.
  destruct (list_find (λ y, y = x) l) as [[i y]|] eqn:Hf.
  - apply list_find_Some in Hf as (Hi & -> & Hlt).
    exists i. split_and!; [done..|].
    intros j Hj Hl. by apply (Hlt j x).
  - apply list_find_None in Hf. exfalso.
    rewrite Forall_forall in Hf. by apply (Hf x).
Qed.

Lemma indexOf_not_elem (x : nat) (l : list nat) : x ∉ l → JS.indexOf x l = -1.
Proof.
  intros Hx. unfold JS.indexOf.
  destruct (list_find (λ y, y = x) l) as [[i y]|] eqn:Hf; [|done].
  apply list_find_Some in Hf as (Hi & -> & _).
  exfalso. apply Hx. by eapply list_elem_of_lookup_2.
Qed.

Lemma delete_past_end (i : nat) (l : list nat) : (length l ≤ i)%nat → delete i l = l.
Proof.
  intros Hi. rewrite delete_take_drop.
  rewrite take_ge by lia. rewrite drop_ge by lia. apply app_nil_r.
Qed.

Lemma splice1_nat (i : nat) (l : list nat) : JS.splice1 (Z.of_nat i) l = delete i l.
Proof.
  unfold JS.splice1. case_decide; [lia|].
  destruct (decide (i < length l)%nat).
  - f_equal. lia.
  - rewrite !delete_past_end; [done|lia..].
Qed.

Lemma NoDup_delete_not_elem (x : nat) (i : nat) (l : list nat) :
  NoDup l → l !! i = Some x → x ∉ delete i l.
Proof.
  intros Hnd Hi Hin.
  apply list_elem_of_lookup in Hin as [j Hj].
  destruct (decide (j < i)%nat) as [Hlt|Hge].
  - rewrite list_lookup_delete_lt in Hj by done.
    pose proof (NoDup_lookup _ _ _ _ Hnd Hi Hj). lia.
  - rewrite list_lookup_delete_ge in Hj by lia.
    pose proof (NoDup_lookup _ _ _ _ Hnd Hi Hj). lia.
Qed.

(** ** The roster of the transport server *)

Lemma removeClient_absent (s : WebChannelServer.t) (client : WebChannelServer.cref) :
  client ∉ WebChannelServer.clients s → WebChannelServer.removeClient client s = s.
Proof.
  intros Hc. unfold WebChannelServer.removeClient.
  destruct (JS.includes client (WebChannelServer.clients s)) eqn:Hi; [|done].
  apply includes_true in Hi. contradiction.
Qed.

Lemma removeClient_present (s : WebChannelServer.t) (client : WebChannelServer.cref) :
  client ∈ WebChannelServer.clients s →
  ∃ i : nat, WebChannelServer.clients s !! i = Some client ∧
    WebChannelServer.removeClient client s
    = WebChannelServer.withClients (delete i (WebChannelServer.clients s)) s.
Proof.
  intros Hc. unfold WebChannelServer.removeClient.
  destruct (indexOf_elem _ _ Hc) as (i & Hidx & Hi & _).
  exists i. split; [done|].
  apply includes_true in Hc as ->. by rewrite Hidx, splice1_nat.
Qed.

Lemma removeClient_clients_sublist (s : WebChannelServer.t) (client : WebChannelServer.cref) :
  WebChannelServer.clients (WebChannelServer.removeClient client s)
    `sublist_of` WebChannelServer.clients s.
Proof.
  destruct (decide (client ∈ WebChannelServer.clients s)) as [Hc|Hc].
  - destruct (removeClient_present _ _ Hc) as (i & _ & ->). apply sublist_delete.
  - by rewrite removeClient_absent.
Qed.

Lemma removeClient_clientObjects (s : WebChannelServer.t) (client : WebChannelServer.cref) :
  WebChannelServer.clientObjects (WebChannelServer.removeClient client s)
  = WebChannelServer.clientObjects s.
Proof. unfold WebChannelServer.removeClient. by case_match. Qed.

Lemma roster_ok_new (onConnect onDisconnect : bool) :
  roster_ok (WebChannelServer.new onConnect onDisconnect).
Proof. split; [constructor|]. intros c Hc. by apply elem_of_nil in Hc. Qed.

Lemma roster_ok_removeClient (s : WebChannelServer.t) (client : WebChannelServer.cref) :
  roster_ok s → roster_ok (WebChannelServer.removeClient client s).
Proof.
  intros [Hnd Hlt]. pose proof (removeClient_clients_sublist s client) as Hsub. split.
  - by eapply sublist_NoDup.
  - intros c Hc. rewrite removeClient_clientObjects. apply Hlt.
    by eapply elem_of_sublist.
Qed.

Lemma roster_ok_withClientObjects (s : WebChannelServer.t) (o : list WebChannelServer.WebChannelClient) :
  length o = length (WebChannelServer.clientObjects s) →
  roster_ok s → roster_ok (WebChannelServer.withClientObjects o s).
Proof. intros Hlen [Hnd Hlt]. split; [done|]. simpl. intros c Hc. rewrite Hlen. by apply Hlt. Qed.

Lemma roster_ok_connectionRequest (s : WebChannelServer.t) (username : string) :
  roster_ok s → roster_ok (WebChannelServer.connectionRequest username s).
Proof.
  intros [Hnd Hlt]. split; simpl.
  - apply NoDup_app. split_and!; [done| |apply NoDup_singleton].
    intros c Hc ->%list_elem_of_singleton. apply Hlt in Hc. lia.
  - intros c [Hc| ->%list_elem_of_singleton]%elem_of_app; rewrite length_app; simpl.
    + apply Hlt in Hc. lia.
    + lia.
Qed.

Lemma roster_ok_handle (ev : WebChannelServer.Event) (s : WebChannelServer.t) :
  roster_ok s → roster_ok (WebChannelServer.handle ev s).1.
Proof.
  intros Hok. destruct ev as [username|client readyState|client readyState]; simpl.
  - by apply roster_ok_connectionRequest.
  - unfold WebChannelServer.handleOrderedStatusChange.
    repeat case_match; simplify_eq/=; try done;
      apply roster_ok_withClientObjects;
      rewrite ?length_insert, ?removeClient_clientObjects; try done;
      by apply roster_ok_removeClient.
  - unfold WebChannelServer.handleUnorderedStatusChange.
    repeat case_match; simplify_eq/=; try done;
      apply roster_ok_withClientObjects;
      rewrite ?length_insert, ?removeClient_clientObjects; try done;
      by apply roster_ok_removeClient.
Qed.

(** Every state the server reaches from its constructor has a roster
    without repetition. *)
Lemma roster_ok_run (evs : list WebChannelServer.Event) (s : WebChannelServer.t) :
  roster_ok s → roster_ok (WebChannelServer.run evs s).1.
Proof.
  revert s. induction evs as [|ev evs IH]; intros s Hok; simpl; [done|].
  pose proof (roster_ok_handle ev s Hok) as Hstep.
  destruct (WebChannelServer.handle ev s) as [s1 fired]. simpl in Hstep.
  specialize (IH s1 Hstep).
  by destruct (WebChannelServer.run evs s1) as [s2 later].
Qed.

(** C9. [removeClient] is idempotent on a roster: a client that is not in
    the roster leaves the server unchanged, and removing the same client a
    second time changes nothing more.  The roster is an array of object
    references in which no object occurs twice ([roster_ok_run]: every
    state reached from the constructor is such). *)
Theorem removeClient_idempotent (s : WebChannelServer.t) (client : WebChannelServer.cref) :
  NoDup (WebChannelServer.clients s) →
  (client ∉ WebChannelServer.clients s → WebChannelServer.removeClient client s = s) ∧
  WebChannelServer.removeClient client (WebChannelServer.removeClient client s)
  = WebChannelServer.removeClient client s.
Proof.
  intros Hnd. split; [apply removeClient_absent|].
  destruct (decide (client ∈ WebChannelServer.clients s)) as [Hc|Hc].
  - destruct (removeClient_present _ _ Hc) as (i & Hi & ->).
    apply removeClient_absent. simpl. by apply NoDup_delete_not_elem.
  - rewrite (removeClient_absent s client Hc). by apply removeClient_absent.
Qed.

Lemma removeClient_idempotent_witness :
  let s := (WebChannelServer.run
              [WebChannelServer.connect "alice"; WebChannelServer.connect "bob"]
              (WebChannelServer.new true true)).1 in
  WebChannelServer.clients s = [0%nat; 1%nat] ∧
  WebChannelServer.removeClient 2%nat s = s ∧
  WebChannelServer.removeClient 0%nat (WebChannelServer.removeClient 0%nat s)
  = WebChannelServer.removeClient 0%nat s.
Proof.
  intros s.
  assert (Hnd : NoDup (WebChannelServer.clients s)).
  { apply (bool_decide_unpack _). vm_compute. exact I. }
  split; [reflexivity|]. split.
  - destruct (removeClient_idempotent s 2%nat Hnd) as [Habsent _].
    apply Habsent. apply (bool_decide_unpack _). vm_compute. exact I.
  - destruct (removeClient_idempotent s 0%nat Hnd) as [_ Htwice].
    exact Htwice.
Defined.

(** ** The movement integrator *)

Section movement.
Context {M : Type} `{WorldMap M}.

Lemma moveEntity_id (m : M) (step : Z) (e : Entity.t) :
  Entity.id (AbstractWorld.moveEntity m step e) = Entity.id e.
Proof. unfold AbstractWorld.moveEntity. by destruct (AbstractWorld.candidate step e). Qed.

(** One iteration of the loop leaves every other object alone. *)
Lemma moveOne_lookup_ne (m : M) (step : Z) (exclude : option ref) (o : store) (entity l : ref) :
  entity ≠ l → AbstractWorld.moveOne m step exclude o entity !! l = o !! l.
Proof.
  intros Hne. unfold AbstractWorld.moveOne. case_decide; [done|].
  by apply list_lookup_alter_ne.
Qed.

Lemma moveOne_lookup_excluded (m : M) (step : Z) (o : store) (entity l : ref) :
  AbstractWorld.moveOne m step (Some l) o entity !! l = o !! l.
Proof.
  unfold AbstractWorld.moveOne. case_decide as Heq; [done|].
  apply list_lookup_alter_ne. congruence.
Qed.

Lemma moveOne_lookup_eq (m : M) (step : Z) (exclude : option ref) (o : store) (l : ref) :
  Some l ≠ exclude →
  AbstractWorld.moveOne m step exclude o l !! l = AbstractWorld.moveEntity m step <$> o !! l.
Proof.
  intros Hne. unfold AbstractWorld.moveOne. case_decide; [done|].
  apply list_lookup_alter_eq.
Qed.

Lemma moveOne_length (m : M) (step : Z) (exclude : option ref) (o : store) (entity : ref) :
  length (AbstractWorld.moveOne m step exclude o entity) = length o.
Proof. unfold AbstractWorld.moveOne. case_decide; [done|]. apply length_alter. Qed.

(** The loop only touches objects of the array, and never the excluded one. *)
Lemma moveLoop_lookup_untouched (m : M) (step : Z) (exclude : option ref) (es : list ref)
    (o : store) (l : ref) :
  l ∉ es ∨ Some l = exclude →
  foldl (AbstractWorld.moveOne m step exclude) o es !! l = o !! l.
Proof.
  revert o. induction es as [|entity es IH]; intros o Hl; simpl; [done|].
  rewrite IH.
  - destruct Hl as [Hl| <-].
    + apply moveOne_lookup_ne. intros ->. apply Hl. left.
    + apply moveOne_lookup_excluded.
  - destruct Hl as [Hl|Hl]; [left|by right].
    intros Hin. apply Hl. by right.
Qed.

(** An object that occurs once in the array gets the loop body once. *)
Lemma moveLoop_lookup_moved (m : M) (step : Z) (exclude : option ref) (es : list ref)
    (o : store) (l : ref) :
  NoDup es → l ∈ es → Some l ≠ exclude →
  foldl (AbstractWorld.moveOne m step exclude) o es !! l
  = AbstractWorld.moveEntity m step <$> o !! l.
Proof.
  revert o. induction es as [|entity es IH]; intros o Hnd Hin Hex; simpl.
  - by apply elem_of_nil in Hin.
  - apply NoDup_cons in Hnd as [Hfresh Hnd].
    apply elem_of_cons in Hin as [->|Hin].
    + rewrite moveLoop_lookup_untouched by (by left). by apply moveOne_lookup_eq.
    + rewrite IH by done. f_equal. apply moveOne_lookup_ne. by intros ->.
Qed.

Lemma moveLoop_length (m : M) (step : Z) (exclude : option ref) (es : list ref) (o : store) :
  length (foldl (AbstractWorld.moveOne m step exclude) o es) = length o.
Proof.
  revert o. induction es as [|entity es IH]; intros o; simpl; [done|].
  by rewrite IH, moveOne_length.
Qed.

(** A property of objects that the loop body keeps is kept by the loop, on
    any set of references. *)
Lemma moveOne_preserves (P : Entity.t → Prop) (S : ref → Prop) (m : M) (step : Z)
    (exclude : option ref) (entity : ref) (o : store) :
  (∀ e, P e → P (AbstractWorld.moveEntity m step e)) →
  (∀ l e, S l → o !! l = Some e → P e) →
  ∀ l e, S l → AbstractWorld.moveOne m step exclude o entity !! l = Some e → P e.
Proof.
  intros HP Ho l e HS. unfold AbstractWorld.moveOne. case_decide; [by apply Ho|].
  destruct (decide (entity = l)) as [->|Hne].
  - rewrite list_lookup_alter_eq. intros Hl.
    apply fmap_Some in Hl as (e0 & He0 & ->). apply HP. by eapply Ho.
  - rewrite list_lookup_alter_ne by done. by apply Ho.
Qed.

Lemma moveLoop_preserves (P : Entity.t → Prop) (S : ref → Prop) (m : M) (step : Z)
    (exclude : option ref) (es : list ref) (o : store) :
  (∀ e, P e → P (AbstractWorld.moveEntity m step e)) →
  (∀ l e, S l → o !! l = Some e → P e) →
  ∀ l e, S l → foldl (AbstractWorld.moveOne m step exclude) o es !! l = Some e → P e.
Proof.
  intros HP. revert o. induction es as [|entity es IH]; intros o Ho; simpl; [done|].
  apply IH. by apply moveOne_preserves.
Qed.

Lemma moveEntity_unblocked (m : M) (step : Z) (e : Entity.t) :
  blockedAt m (Entity.x e) (Entity.y e) = false →
  blockedAt m (Entity.x (AbstractWorld.moveEntity m step e))
              (Entity.y (AbstractWorld.moveEntity m step e)) = false.
Proof.
  intros He. unfold AbstractWorld.moveEntity.
  destruct (AbstractWorld.candidate step e) as [nx ny]. simpl.
  destruct (JS.strict_neq (Entity.x e) nx || JS.strict_neq (Entity.y e) ny); simpl; [|done].
  by destruct (blockedAt m nx ny) eqn:Hb.
Qed.

Lemma moveEntities_unblocked (exclude : option ref) (w : AbstractWorld.t M) :
  unblocked w → unblocked (AbstractWorld.moveEntities exclude w).
Proof.
  intros Hw l e Hl He. simpl in *.
  revert l e Hl He.
  apply (moveLoop_preserves
           (λ e, blockedAt (AbstractWorld.map w) (Entity.x e) (Entity.y e) = false)
           (λ l, l ∈ AbstractWorld.entities w)).
  - apply moveEntity_unblocked.
  - exact Hw.
Qed.

(** C8. Movement never moves an entity into a blocked position: when no
    entity of the world stands on a blocked position, none does after any
    finite sequence of [moveEntities] steps, whatever entity each step
    excludes. *)
Theorem moveEntities_never_blocked (w : AbstractWorld.t M) (excludes : list (option ref)) :
  unblocked w →
  unblocked (foldl (λ w exclude, AbstractWorld.moveEntities exclude w) w excludes).
Proof.
  revert w. induction excludes as [|exclude excludes IH]; intros w Hw; simpl; [done|].
  apply IH. by apply moveEntities_unblocked.
Qed.

(** The candidate of the loop body is the position plus one displacement
    per axis. *)
Lemma candidate_displacement (step : Z) (e : Entity.t) (px py : Z) :
  Entity.x e = JS.Num px → Entity.y e = JS.Num py →
  AbstractWorld.candidate step e
  = (JS.Num (px + ((if Entity.right e then step else 0) - (if Entity.left e then step else 0))),
     JS.Num (py + ((if Entity.down e then step else 0) - (if Entity.up e then step else 0)))).
Proof.
  intros Hx Hy. unfold AbstractWorld.candidate. rewrite Hx, Hy.
  destruct (Entity.left e), (Entity.right e), (Entity.up e), (Entity.down e);
    simpl; do 2 f_equal; lia.
Qed.

(** C7. One [moveEntities] step on an entity that is not excluded: the
    candidate position adds a fixed displacement per active direction flag
    (the two axes independently, no normalisation), [moving] is set iff the
    candidate differs from the current position, [faceLeft] follows the
    sign of the horizontal displacement when it is not zero, and the
    candidate is committed only when the map does not report it blocked;
    otherwise the position is kept. *)
Theorem moveEntities_reference_semantics (w : AbstractWorld.t M) (exclude : option ref)
    (l : ref) (e : Entity.t) (px py : Z) :
  NoDup (AbstractWorld.entities w) →
  l ∈ AbstractWorld.entities w →
  Some l ≠ exclude →
  AbstractWorld.objects w !! l = Some e →
  Entity.x e = JS.Num px → Entity.y e = JS.Num py →
  let step := MOVE_SPEED * AbstractWorld.stepSize2 w / 2 in
  let dx := (if Entity.right e then step else 0) - (if Entity.left e then step else 0) in
  let dy := (if Entity.down e then step else 0) - (if Entity.up e then step else 0) in
  ∃ e', AbstractWorld.objects (AbstractWorld.moveEntities exclude w) !! l = Some e' ∧
    (Entity.moving e' = true ↔ (px + dx, py + dy) ≠ (px, py)) ∧
    Entity.faceLeft e'
    = (if decide (dx > 0) then false else if decide (dx < 0) then true else Entity.faceLeft e) ∧
    (Entity.x e', Entity.y e')
    = (if blockedAt (AbstractWorld.map w) (JS.Num (px + dx)) (JS.Num (py + dy))
       then (JS.Num px, JS.Num py)
       else (JS.Num (px + dx), JS.Num (py + dy))) ∧
    Entity.id e' = Entity.id e ∧ Entity.type e' = Entity.type e ∧
    Entity.left e' = Entity.left e ∧ Entity.right e' = Entity.right e ∧
    Entity.up e' = Entity.up e ∧ Entity.down e' = Entity.down e.
Proof.
  intros Hnd Hl Hex He Hx Hy step dx dy.
  exists (AbstractWorld.moveEntity (AbstractWorld.map w) step e). split.
  { simpl. rewrite moveLoop_lookup_moved by done. by rewrite He. }
  unfold AbstractWorld.moveEntity.
  rewrite (candidate_displacement step e px py Hx Hy). fold dx dy.
  rewrite Hx, Hy. simpl.
  split_and!; try done.
  - rewrite orb_true_iff, !negb_true_iff, !bool_decide_eq_false.
    split.
    + intros [Hd|Hd] [= Hdx Hdy]; lia.
    + intros Hne. destruct (decide (px = px + dx)) as [Hdx|Hdx]; [|by left].
      right. intros Hdy. apply Hne. congruence.
  - repeat case_decide; repeat case_bool_decide; try done; lia.
  - destruct (blockedAt (AbstractWorld.map w) (JS.Num (px + dx)) (JS.Num (py + dy))).
    + by rewrite andb_false_r.
    + rewrite andb_true_r.
      repeat case_bool_decide; simpl; try done; congruence.
Qed.

(** The excluded entity, and every object outside the array, is left as it
    is. *)
Lemma moveEntities_untouched (w : AbstractWorld.t M) (exclude : option ref) (l : ref) :
  l ∉ AbstractWorld.entities w ∨ Some l = exclude →
  AbstractWorld.objects (AbstractWorld.moveEntities exclude w) !! l
  = AbstractWorld.objects w !! l.
Proof. intros Hl. simpl. by apply moveLoop_lookup_untouched. Qed.

End movement.

Lemma moveEntities_never_blocked_witness :
  let e := Entity.mk 7 (JS.Num 100) (JS.Num 100) (JS.Num 2) false false true false false false in
  let w := AbstractWorld.mk [e] [0%nat] (SimpleGameMap.mk []) 2 in
  let w' := foldl (λ w exclude, AbstractWorld.moveEntities exclude w) w (replicate 20 None) in
  unblocked w' ∧
  Entity.x <$> AbstractWorld.objects w' !! 0%nat = Some (JS.Num 12) ∧
  blockedAt (AbstractWorld.map w') (JS.Num 4) (JS.Num 100) = true.
Proof.
  intros e w w'. split; [|split; vm_compute; reflexivity].
  apply (moveEntities_never_blocked w (replicate 20 None)).
  intros l e' Hl%list_elem_of_singleton He'. subst l.
  injection He' as <-. vm_compute. reflexivity.
Defined.

Lemma moveEntities_reference_semantics_witness :
  let e := Entity.mk 7 (JS.Num 100) (JS.Num 100) (JS.Num 2) false false true false true false in
  let w := AbstractWorld.mk [e] [0%nat] (SimpleGameMap.mk []) 2 in
  ∃ e', AbstractWorld.objects (AbstractWorld.moveEntities None w) !! 0%nat = Some e' ∧
    Entity.moving e' = true ∧ Entity.faceLeft e' = true ∧
    (Entity.x e', Entity.y e') = (JS.Num 92, JS.Num 92).
Proof.
  intros e w.
  assert (Hnd : NoDup (AbstractWorld.entities w)).
  { apply (bool_decide_unpack _). vm_compute. exact I. }
  assert (Hin : 0%nat ∈ AbstractWorld.entities w).
  { apply (bool_decide_unpack _). vm_compute. exact I. }
  assert (Hex : Some 0%nat ≠ None) by discriminate.
  destruct (moveEntities_reference_semantics w None 0%nat e 100 100
              Hnd Hin Hex eq_refl eq_refl eq_refl)
    as (e' & Hlook & Hmoving & Hface & Hpos & _).
  exists e'. split; [exact Hlook|]. split; [|split].
  - apply Hmoving. vm_compute. discriminate.
  - exact Hface.
  - exact Hpos.
Defined.

(** ** The control bits *)

Lemma land_pow2_testbit (c k : Z) :
  0 ≤ k → Z.land c (2 ^ k) = if Z.testbit c k then 2 ^ k else 0.
Proof.
  intros Hk. apply Z.bits_inj'. intros n Hn.
  rewrite Z.land_spec, Z.pow2_bits_eqb by done.
  destruct (Z.eqb_spec k n) as [->|Hne].
  - rewrite andb_true_r. destruct (Z.testbit c n) eqn:Hc.
    + by rewrite Z.pow2_bits_true.
    + by rewrite Z.bits_0.
  - rewrite andb_false_r. destruct (Z.testbit c k).
    + rewrite Z.pow2_bits_false; [done|]. lia.
    + by rewrite Z.bits_0.
Qed.

Lemma wrap32_small (z : Z) : -2147483648 ≤ z < 2147483648 → JS.wrap32 z = z.
Proof. intros Hz. unfold JS.wrap32. rewrite Z.mod_small; lia. Qed.

(** A control word is a mask: bit [k] decides the flag whose constant is
    [2 ^ k]. *)
Lemma controlBit_testbit (c k : Z) :
  0 ≤ c < 65536 → 0 ≤ k < 16 → controlBit (JS.Num c) (2 ^ k) = Z.testbit c k.
Proof.
  intros Hc Hk. unfold controlBit, JS.band, JS.ToInt32.
  assert (2 ^ k < 2 ^ 16) by (apply Z.pow_lt_mono_r; lia).
  assert (0 < 2 ^ k) by (apply Z.pow_pos_nonneg; lia).
  rewrite !wrap32_small by lia.
  rewrite land_pow2_testbit by lia.
  destruct (Z.testbit c k); case_bool_decide; simpl; try done; lia.
Qed.

Lemma encodeControls_range (e : Entity.t) : 0 ≤ encodeControls e < 16.
Proof.
  unfold encodeControls, LEFT, RIGHT, UP, DOWN.
  destruct (Entity.left e), (Entity.right e), (Entity.up e), (Entity.down e); lia.
Qed.

(** Decoding the control word of an entity gives its four flags back. *)
Lemma controlBit_encodeControls (e : Entity.t) :
  controlBit (JS.Num (encodeControls e)) LEFT = Entity.left e ∧
  controlBit (JS.Num (encodeControls e)) RIGHT = Entity.right e ∧
  controlBit (JS.Num (encodeControls e)) UP = Entity.up e ∧
  controlBit (JS.Num (encodeControls e)) DOWN = Entity.down e.
Proof.
  unfold encodeControls, LEFT, RIGHT, UP, DOWN.
  destruct (Entity.left e), (Entity.right e), (Entity.up e), (Entity.down e);
    vm_compute; done.
Qed.

(** ** The server world: state reports of the clients *)

Section server.
Context {M : Type} `{WorldMap M}.

(** C6. Server-side validation of a state report is atomic: a report from
    a client with no bound entity, or whose decoded position is blocked,
    leaves the server world unchanged; any other report overwrites the
    position and the four input flags of the bound entity with the decoded
    values. *)
Theorem clientStateReceived_validation (sw : ServerWorld.t M) (client : Z) (array : list Z) :
  (ServerWorld.clientToEntity sw !! client = None →
   ServerWorld.clientStateReceived client array sw = sw) ∧
  (blockedAt (AbstractWorld.map (ServerWorld.world sw)) (JS.get array 0) (JS.get array 1) = true →
   ServerWorld.clientStateReceived client array sw = sw) ∧
  (∀ entity e,
     ServerWorld.clientToEntity sw !! client = Some entity →
     AbstractWorld.objects (ServerWorld.world sw) !! entity = Some e →
     blockedAt (AbstractWorld.map (ServerWorld.world sw)) (JS.get array 0) (JS.get array 1) = false →
     ∃ e',
       AbstractWorld.objects
         (ServerWorld.world (ServerWorld.clientStateReceived client array sw)) !! entity = Some e' ∧
       Entity.x e' = JS.get array 0 ∧ Entity.y e' = JS.get array 1 ∧
       Entity.left e' = controlBit (JS.get array 2) LEFT ∧
       Entity.right e' = controlBit (JS.get array 2) RIGHT ∧
       Entity.up e' = controlBit (JS.get array 2) UP ∧
       Entity.down e' = controlBit (JS.get array 2) DOWN).
Proof.
  unfold ServerWorld.clientStateReceived. split_and!.
  - by intros ->.
  - intros ->. simpl. by case_match.
  - intros entity e -> He ->. simpl.
    eexists. split.
    + rewrite list_lookup_alter_eq, He. reflexivity.
    + done.
Qed.

(** C10. An accepted state report only changes the position and the input
    flags of the bound entity: its id, appearance type, [faceLeft] and
    [moving] are kept, every other object is kept, and so is the rest of
    the server world. *)
Theorem clientStateReceived_frame (sw : ServerWorld.t M) (client : Z) (array : list Z)
    (entity : ref) (e : Entity.t) :
  ServerWorld.clientToEntity sw !! client = Some entity →
  AbstractWorld.objects (ServerWorld.world sw) !! entity = Some e →
  blockedAt (AbstractWorld.map (ServerWorld.world sw)) (JS.get array 0) (JS.get array 1) = false →
  let sw' := ServerWorld.clientStateReceived client array sw in
  (∃ e', AbstractWorld.objects (ServerWorld.world sw') !! entity = Some e' ∧
     Entity.id e' = Entity.id e ∧ Entity.type e' = Entity.type e ∧
     Entity.faceLeft e' = Entity.faceLeft e ∧ Entity.moving e' = Entity.moving e) ∧
  (∀ l, l ≠ entity →
     AbstractWorld.objects (ServerWorld.world sw') !! l
     = AbstractWorld.objects (ServerWorld.world sw) !! l) ∧
  length (AbstractWorld.objects (ServerWorld.world sw'))
  = length (AbstractWorld.objects (ServerWorld.world sw)) ∧
  AbstractWorld.entities (ServerWorld.world sw') = AbstractWorld.entities (ServerWorld.world sw) ∧
  AbstractWorld.map (ServerWorld.world sw') = AbstractWorld.map (ServerWorld.world sw) ∧
  AbstractWorld.stepSize2 (ServerWorld.world sw') = AbstractWorld.stepSize2 (ServerWorld.world sw) ∧
  ServerWorld.nextEntityId sw' = ServerWorld.nextEntityId sw ∧
  ServerWorld.clientToEntity sw' = ServerWorld.clientToEntity sw ∧
  ServerWorld.sequenceNumber sw' = ServerWorld.sequenceNumber sw.
Proof.
  intros Hbound He Hfree sw'. subst sw'.
  unfold ServerWorld.clientStateReceived. rewrite Hbound, Hfree. simpl.
  split_and!; try done.
  - eexists. split.
    + rewrite list_lookup_alter_eq, He. reflexivity.
    + done.
  - intros l Hl. by apply list_lookup_alter_ne.
  - apply length_alter.
Qed.

End server.

Lemma clientStateReceived_validation_witness :
  let e := Entity.mk 7 (JS.Num 100) (JS.Num 100) (JS.Num 2) true false false false false false in
  let sw := ServerWorld.mk (AbstractWorld.mk [e] [0%nat] (SimpleGameMap.mk []) 2) 8 {[ 1 := 0%nat ]} 0 in
  ServerWorld.clientStateReceived 2 [120; 104; 9] sw = sw ∧
  ServerWorld.clientStateReceived 1 [0; 0; 3] sw = sw ∧
  ∃ e', AbstractWorld.objects
          (ServerWorld.world (ServerWorld.clientStateReceived 1 [120; 104; 9] sw)) !! 0%nat
        = Some e' ∧
    Entity.x e' = JS.Num 120 ∧ Entity.y e' = JS.Num 104 ∧
    Entity.left e' = true ∧ Entity.right e' = false ∧
    Entity.up e' = false ∧ Entity.down e' = true.
Proof.
  intros e sw. split; [|split].
  - destruct (clientStateReceived_validation sw 2 [120; 104; 9]) as (Hunbound & _ & _).
    apply Hunbound. vm_compute. reflexivity.
  - destruct (clientStateReceived_validation sw 1 [0; 0; 3]) as (_ & Hblocked & _).
    apply Hblocked. vm_compute. reflexivity.
  - destruct (clientStateReceived_validation sw 1 [120; 104; 9]) as (_ & _ & Haccepted).
    destruct (Haccepted 0%nat e) as (e' & Hlook & Hx & Hy & Hl & Hr & Hu & Hd).
    + vm_compute. reflexivity.
    + reflexivity.
    + vm_compute. reflexivity.
    + exists e'. split; [exact Hlook|]. split; [exact Hx|]. split; [exact Hy|].
      split; [exact Hl|]. split; [exact Hr|]. split; [exact Hu|exact Hd].
Defined.

Lemma clientStateReceived_frame_witness :
  let e := Entity.mk 7 (JS.Num 100) (JS.Num 100) (JS.Num 2) true false false false false false in
  let sw := ServerWorld.mk (AbstractWorld.mk [e] [0%nat] (SimpleGameMap.mk []) 2) 8 {[ 1 := 0%nat ]} 0 in
  ∃ e', AbstractWorld.objects
          (ServerWorld.world (ServerWorld.clientStateReceived 1 [120; 104; 9] sw)) !! 0%nat
        = Some e' ∧
    Entity.x e' = JS.Num 120 ∧ Entity.id e' = 7 ∧ Entity.type e' = JS.Num 2 ∧
    Entity.faceLeft e' = true ∧ Entity.moving e' = false.
Proof.
  intros e sw.
  assert (Hbound : ServerWorld.clientToEntity sw !! 1 = Some 0%nat).
  { vm_compute. reflexivity. }
  assert (Hfree : blockedAt (AbstractWorld.map (ServerWorld.world sw))
                    (JS.get [120; 104; 9] 0) (JS.get [120; 104; 9] 1) = false).
  { vm_compute. reflexivity. }
  destruct (clientStateReceived_frame sw 1 [120; 104; 9] 0%nat e Hbound eq_refl Hfree)
    as ((e' & Hlook & Hid & Htype & Hface & Hmoving) & _).
  exists e'. split; [exact Hlook|]. split.
  - vm_compute in Hlook. injection Hlook as <-. reflexivity.
  - split; [exact Hid|]. split; [exact Htype|]. split; [exact Hface|exact Hmoving].
Defined.

(** ** The client world: snapshots *)

Section client.
Context {M : Type} `{WorldMap M}.

(** The loop over the records only touches the objects and the array of
    the world. *)
Lemma applyRecord_fields (acc : ClientWorld.t M * list ref) (r : ClientWorld.EntityRecord) :
  let cw := acc.1 in
  let cw' := (ClientWorld.applyRecord acc r).1 in
  ClientWorld.myId cw' = ClientWorld.myId cw ∧
  ClientWorld.lastSequenceNumber cw' = ClientWorld.lastSequenceNumber cw ∧
  ClientWorld.nameById cw' = ClientWorld.nameById cw ∧
  ClientWorld.localSequenceNumber2 cw' = ClientWorld.localSequenceNumber2 cw ∧
  AbstractWorld.map (ClientWorld.world cw') = AbstractWorld.map (ClientWorld.world cw) ∧
  AbstractWorld.stepSize2 (ClientWorld.world cw') = AbstractWorld.stepSize2 (ClientWorld.world cw).
Proof.
  destruct acc as [cw eiu], r as [[[[id x] y] type] controls].
  unfold ClientWorld.applyRecord. simpl.
  repeat case_match; done.
Qed.

Lemma applyRecords_fields (rs : list ClientWorld.EntityRecord) (acc : ClientWorld.t M * list ref) :
  let cw := acc.1 in
  let cw' := (foldl ClientWorld.applyRecord acc rs).1 in
  ClientWorld.myId cw' = ClientWorld.myId cw ∧
  ClientWorld.lastSequenceNumber cw' = ClientWorld.lastSequenceNumber cw ∧
  ClientWorld.nameById cw' = ClientWorld.nameById cw ∧
  ClientWorld.localSequenceNumber2 cw' = ClientWorld.localSequenceNumber2 cw ∧
  AbstractWorld.map (ClientWorld.world cw') = AbstractWorld.map (ClientWorld.world cw) ∧
  AbstractWorld.stepSize2 (ClientWorld.world cw') = AbstractWorld.stepSize2 (ClientWorld.world cw).
Proof.
  revert acc. induction rs as [|r rs IH]; intros acc; simpl; [done|].
  destruct (IH (ClientWorld.applyRecord acc r)) as (-> & -> & -> & -> & -> & ->).
  apply applyRecord_fields.
Qed.

(** The replay of the steps the client is ahead keeps the sequence number
    and the local id. *)
Lemma replay_iter_fields (n : nat) (cw : ClientWorld.t M) :
  let cw' := Nat.iter n
               (λ cw, ClientWorld.withWorld
                        (AbstractWorld.moveEntities (ClientWorld.getLocalEntity cw)
                           (ClientWorld.world cw)) cw) cw in
  ClientWorld.myId cw' = ClientWorld.myId cw ∧
  ClientWorld.lastSequenceNumber cw' = ClientWorld.lastSequenceNumber cw ∧
  AbstractWorld.entities (ClientWorld.world cw') = AbstractWorld.entities (ClientWorld.world cw).
Proof.
  induction n as [|n IH]; simpl; [done|].
  destruct IH as (IH1 & IH2 & IH3). by rewrite IH1, IH2, IH3.
Qed.

Lemma replay_fields (cw : ClientWorld.t M) :
  ClientWorld.myId (ClientWorld.replay cw) = ClientWorld.myId cw ∧
  ClientWorld.lastSequenceNumber (ClientWorld.replay cw) = ClientWorld.lastSequenceNumber cw ∧
  AbstractWorld.entities (ClientWorld.world (ClientWorld.replay cw))
  = AbstractWorld.entities (ClientWorld.world cw).
Proof.
  unfold ClientWorld.replay. case_decide; [|done].
  apply replay_iter_fields.
Qed.

(** An accepted snapshot becomes the last one accepted. *)
Lemma handleState_accepted_lastSequenceNumber (state : list Z) (cw : ClientWorld.t M) :
  ClientWorld.lastSequenceNumber cw < ClientWorld.decodeSequence state →
  ClientWorld.lastSequenceNumber (ClientWorld.handleState state cw)
  = ClientWorld.decodeSequence state.
Proof.
  intros Hnew. unfold ClientWorld.handleState. case_decide; [lia|].
  match goal with |- context [foldl ClientWorld.applyRecord ?a ?rs] =>
    pose proof (applyRecords_fields rs a) as (_ & Hlast & _);
    destruct (foldl ClientWorld.applyRecord a rs) as [cw1 eiu] end.
  simpl in Hlast.
  destruct (replay_fields
              (ClientWorld.withWorld
                 (AbstractWorld.withEntities
                    (ClientWorld.removeUnmentioned eiu
                       (AbstractWorld.entities (ClientWorld.world cw1)))
                    (ClientWorld.world cw1)) cw1)) as (_ & -> & _).
  exact Hlast.
Qed.

(** A snapshot that is not newer than the last one accepted is dropped
    whole. *)
Lemma handleState_stale (state : list Z) (cw : ClientWorld.t M) :
  ClientWorld.decodeSequence state ≤ ClientWorld.lastSequenceNumber cw →
  ClientWorld.handleState state cw = cw.
Proof. intros Hold. unfold ClientWorld.handleState. by case_decide. Qed.

(** C5. Stale snapshots are dropped atomically: a snapshot whose sequence
    number is at most the last accepted one leaves the whole client state
    as it is (entities, objects and [lastSequenceNumber] included), and a
    snapshot applied a second time changes nothing, since the first
    application made it stale. *)
Theorem handleState_stale_dropped (state : list Z) (cw : ClientWorld.t M) :
  (ClientWorld.decodeSequence state ≤ ClientWorld.lastSequenceNumber cw →
   ClientWorld.handleState state cw = cw) ∧
  ClientWorld.handleState state (ClientWorld.handleState state cw)
  = ClientWorld.handleState state cw.
Proof.
  split; [apply handleState_stale|].
  destruct (decide (ClientWorld.decodeSequence state ≤ ClientWorld.lastSequenceNumber cw))
    as [Hold|Hnew].
  - by rewrite !(handleState_stale state cw Hold).
  - apply handleState_stale.
    rewrite handleState_accepted_lastSequenceNumber; lia.
Qed.

End client.

Lemma handleState_stale_dropped_witness :
  let cw := ClientWorld.mk (AbstractWorld.mk [] [] (SimpleGameMap.mk []) 1) 0 0 ∅ 0 in
  let cw10 := ClientWorld.handleState [10; 0; 7; 100; 100; 2; 0] cw in
  ClientWorld.lastSequenceNumber cw10 = 10 ∧
  ClientWorld.handleState [9; 0; 7; 50; 50; 3; 1; 8; 60; 60; 1; 0] cw10 = cw10 ∧
  ClientWorld.handleState [10; 0; 7; 100; 100; 2; 0] cw10 = cw10.
Proof.
  intros cw cw10. split; [reflexivity|]. split.
  - destruct (handleState_stale_dropped [9; 0; 7; 50; 50; 3; 1; 8; 60; 60; 1; 0] cw10)
      as [Hstale _].
    apply Hstale. vm_compute. discriminate.
  - destruct (handleState_stale_dropped [10; 0; 7; 100; 100; 2; 0] cw) as [_ Htwice].
    exact Htwice.
Defined.

(** ** The client world: reconciliation of the records of a snapshot *)

Section reconciliation.
Context {M : Type} `{WorldMap M}.

Lemma hasId_true (o : list Entity.t) (i : Z) (l : ref) :
  AbstractWorld.hasId o i l = true ↔ ∃ e, o !! l = Some e ∧ Entity.id e = i.
Proof.
  unfold AbstractWorld.hasId. destruct (o !! l) as [e|].
  - rewrite bool_decide_eq_true. split; [by exists e|]. by intros (? & [= <-] & ?).
  - split; [done|]. by intros (? & ? & _).
Qed.

Lemma findById_Some (i : Z) (w : AbstractWorld.t M) (l : ref) :
  AbstractWorld.findById i w = Some l →
  l ∈ AbstractWorld.entities w ∧
  ∃ e, AbstractWorld.objects w !! l = Some e ∧ Entity.id e = i.
Proof.
  intros [Hin Hid]%find_some. split.
  - by apply list_elem_of_In.
  - by apply hasId_true.
Qed.

(** [find] by id returns the same object for two ids only when the ids are
    equal: the object found is the local entity iff the id is [myId]. *)
Lemma findById_same (i j : Z) (w : AbstractWorld.t M) (l : ref) :
  AbstractWorld.findById i w = Some l →
  AbstractWorld.findById j w = Some l ↔ i = j.
Proof.
  intros Hi. split.
  - intros Hj.
    apply findById_Some in Hi as (_ & e & He & <-).
    apply findById_Some in Hj as (_ & e' & He' & <-).
    congruence.
  - by intros <-.
Qed.

(** The record of the local entity, when the entity exists: nothing
    changes. *)
Lemma applyRecord_local (cw : ClientWorld.t M) (entitiesInUpdate : list ref)
    (id : Z) (x y type controls : JS.num) (l : ref) :
  AbstractWorld.findById id (ClientWorld.world cw) = Some l →
  id = ClientWorld.myId cw →
  ClientWorld.applyRecord (cw, entitiesInUpdate) (id, x, y, type, controls)
  = (cw, entitiesInUpdate ++ [l]).
Proof.
  intros Hfind ->. unfold ClientWorld.applyRecord, ClientWorld.getLocalEntity.
  rewrite Hfind. simpl.
  rewrite bool_decide_eq_false_2; [done|]. by intros Hne.
Qed.

(** The record of any other entity that exists: its object is updated in
    place. *)
Lemma applyRecord_other (cw : ClientWorld.t M) (entitiesInUpdate : list ref)
    (id : Z) (x y type controls : JS.num) (l : ref) :
  AbstractWorld.findById id (ClientWorld.world cw) = Some l →
  id ≠ ClientWorld.myId cw →
  ClientWorld.applyRecord (cw, entitiesInUpdate) (id, x, y, type, controls)
  = (ClientWorld.withWorld
       (AbstractWorld.withObjects
          (alter (Entity.updateState x y type
                    (controlBit controls LEFT) (controlBit controls RIGHT)
                    (controlBit controls UP) (controlBit controls DOWN))
                 l (AbstractWorld.objects (ClientWorld.world cw)))
          (ClientWorld.world cw)) cw,
     entitiesInUpdate ++ [l]).
Proof.
  intros Hfind Hne. unfold ClientWorld.applyRecord, ClientWorld.getLocalEntity.
  rewrite Hfind. simpl.
  rewrite bool_decide_eq_true_2; [done|].
  intros Heq. apply Hne. symmetry in Heq. by apply (findById_same id _ _ l Hfind).
Qed.

(** The record of an entity that does not exist: a new object is pushed
    and takes the values of the record. *)
Lemma applyRecord_created (cw : ClientWorld.t M) (entitiesInUpdate : list ref)
    (id : Z) (x y type controls : JS.num) :
  AbstractWorld.findById id (ClientWorld.world cw) = None →
  ClientWorld.applyRecord (cw, entitiesInUpdate) (id, x, y, type, controls)
  = (ClientWorld.withWorld
       (AbstractWorld.withEntities
          (AbstractWorld.entities (ClientWorld.world cw)
             ++ [length (AbstractWorld.objects (ClientWorld.world cw))])
          (AbstractWorld.withObjects
             (AbstractWorld.objects (ClientWorld.world cw)
                ++ [Entity.mk id x y type true false
                      (controlBit controls LEFT) (controlBit controls RIGHT)
                      (controlBit controls UP) (controlBit controls DOWN)])
             (ClientWorld.world cw))) cw,
     entitiesInUpdate ++ [length (AbstractWorld.objects (ClientWorld.world cw))]).
Proof.
  intros Hfind. unfold ClientWorld.applyRecord. rewrite Hfind. simpl.
  rewrite orb_true_r. unfold ClientWorld.withWorld, AbstractWorld.withEntities,
    AbstractWorld.withObjects. simpl.
  do 3 f_equal.
  rewrite <- (Nat.add_0_r (length (AbstractWorld.objects (ClientWorld.world cw)))) at 1.
  by rewrite alter_app_r.
Qed.

(** *** What the loops do to the array of references *)

Lemma indexOf_middle (x : nat) (pre post : list nat) :
  x ∉ pre → JS.indexOf x (pre ++ x :: post) = Z.of_nat (length pre).
Proof.
  intros Hpre.
  destruct (indexOf_elem x (pre ++ x :: post)) as (i & -> & Hi & Hmin).
  { apply elem_of_app. right. left. }
  f_equal. destruct (Nat.lt_trichotomy i (length pre)) as [Hlt|[->|Hgt]]; [|done|].
  - rewrite lookup_app_l in Hi by done.
    exfalso. apply Hpre. by eapply list_elem_of_lookup_2.
  - exfalso. apply (Hmin (length pre) Hgt). apply list_lookup_middle. done.
Qed.

Lemma removeLoop_filter (entitiesInUpdate todo pre : list ref) :
  (∀ x, x ∈ pre → x ∈ entitiesInUpdate) →
  foldl (λ cur entity,
           if JS.includes entity entitiesInUpdate then cur
           else JS.splice1 (JS.indexOf entity cur) cur)
        (pre ++ todo) todo
  = pre ++ filter (λ x, x ∈ entitiesInUpdate) todo.
Proof.
  revert pre. induction todo as [|a todo IH]; intros pre Hpre; simpl; [done|].
  destruct (JS.includes a entitiesInUpdate) eqn:Ha.
  - apply includes_true in Ha.
    rewrite filter_cons_True by done.
    replace (pre ++ a :: todo) with ((pre ++ [a]) ++ todo)
      by (by rewrite <- app_assoc).
    replace (pre ++ a :: filter (λ x, x ∈ entitiesInUpdate) todo)
      with ((pre ++ [a]) ++ filter (λ x, x ∈ entitiesInUpdate) todo)
      by (by rewrite <- app_assoc).
    apply IH. intros x [Hx| ->%list_elem_of_singleton]%elem_of_app; [by apply Hpre|done].
  - assert (a ∉ entitiesInUpdate) as Hnot.
    { intros Hin. apply includes_true in Hin. congruence. }
    rewrite filter_cons_False by done.
    rewrite indexOf_middle by (intros Hin; by apply Hnot, Hpre).
    rewrite splice1_nat, delete_middle. by apply IH.
Qed.

(** The removal loop keeps exactly the entities the update mentioned, in
    their order. *)
Lemma removeUnmentioned_filter (entitiesInUpdate es : list ref) :
  ClientWorld.removeUnmentioned entitiesInUpdate es
  = filter (λ x, x ∈ entitiesInUpdate) es.
Proof. apply (removeLoop_filter entitiesInUpdate es []). intros x Hx. by apply elem_of_nil in Hx. Qed.


Lemma find_ext_elem {A} (f g : A → bool) (l : list A) :
  (∀ x, x ∈ l → f x = g x) → List.find f l = List.find g l.
Proof.
  induction l as [|a l IH]; intros Hfg; simpl; [done|].
  rewrite (Hfg a) by left. destruct (g a); [done|].
  apply IH. intros x Hx. apply Hfg. by right.
Qed.


(** Updating an object without changing its id does not change what
    [find] by id returns. *)
Lemma hasId_alter (f : Entity.t → Entity.t) (k : ref) (o : list Entity.t) (i : Z) (l : ref) :
  (∀ e, Entity.id (f e) = Entity.id e) →
  AbstractWorld.hasId (alter f k o) i l = AbstractWorld.hasId o i l.
Proof.
  intros Hf. unfold AbstractWorld.hasId.
  destruct (decide (k = l)) as [->|Hne].
  - rewrite list_lookup_alter_eq. destruct (o !! l); simpl; [|done]. by rewrite Hf.
  - by rewrite list_lookup_alter_ne.
Qed.

Lemma hasId_app (o extra : list Entity.t) (i : Z) (l : ref) :
  (l < length o)%nat →
  AbstractWorld.hasId (o ++ extra) i l = AbstractWorld.hasId o i l.
Proof. intros Hl. unfold AbstractWorld.hasId. by rewrite lookup_app_l. Qed.

Lemma hasId_moveLoop (m : M) (step : Z) (exclude : option ref) (es : list ref)
    (o : list Entity.t) (i : Z) (l : ref) :
  AbstractWorld.hasId (foldl (AbstractWorld.moveOne m step exclude) o es) i l
  = AbstractWorld.hasId o i l.
Proof.
  revert o. induction es as [|entity es IH]; intros o; simpl; [done|].
  rewrite IH. unfold AbstractWorld.moveOne. case_decide; [done|].
  apply hasId_alter. intros e. apply moveEntity_id.
Qed.


(** *** The object of the local entity through [handleState] *)

Lemma updateState_id (x y type : JS.num) (left right up down : bool) (e : Entity.t) :
  Entity.id (Entity.updateState x y type left right up down e) = Entity.id e.
Proof. done. Qed.







End reconciliation.



(** ** The sequence number of a snapshot *)

Lemma advanceSequence_range (n : Z) :
  0 ≤ n ≤ 50000 → 0 ≤ ServerWorld.advanceSequence n ≤ 50000.
Proof. intros Hn. unfold ServerWorld.advanceSequence. case_decide; lia. Qed.

(** The counter of the server wraps from the ceiling back to zero. *)
Lemma advanceSequence_wraps : ServerWorld.advanceSequence 50000 = 0.
Proof. reflexivity. Qed.

Lemma wrap32_testbit (z n : Z) :
  0 ≤ n < 32 → Z.testbit (JS.wrap32 z) n = Z.testbit z n.
Proof.
  intros Hn.
  rewrite <- (Z.mod_pow2_bits_low (JS.wrap32 z) 32 n), <- (Z.mod_pow2_bits_low z 32 n) by lia.
  f_equal. unfold JS.wrap32. change (2 ^ 32) with 4294967296.
  rewrite Zminus_mod_idemp_l. f_equal. lia.
Qed.

(** Below the sign bit, a snapshot whose second word is zero decodes to
    its first word. *)
Lemma decodeSequence_low (s : Z) (records : list Z) :
  0 ≤ s < 2147483648 → ClientWorld.decodeSequence (s :: 0 :: records) = s.
Proof.
  intros Hs. unfold ClientWorld.decodeSequence, JS.bor, JS.get. simpl.
  rewrite wrap32_small by lia. apply Z.lor_0_r.
Qed.

(** A bit of the second word is a bit of the decoded sequence number, 16
    places up. *)
Lemma decodeSequence_high_bit (s0 s1 : Z) (rest : list Z) (k : Z) :
  0 ≤ k < 16 → Z.testbit s1 k = true →
  Z.testbit (ClientWorld.decodeSequence (s0 :: s1 :: rest)) (k + 16) = true.
Proof.
  intros Hk Hbit. unfold ClientWorld.decodeSequence, JS.bor, JS.band, JS.shl, JS.get. simpl.
  rewrite Z.lor_spec. apply orb_true_iff. right.
  rewrite wrap32_testbit, Z.land_spec by lia.
  rewrite !wrap32_testbit by lia.
  change 4294901760 with (Z.shiftl (Z.ones 16) 16).
  rewrite !Z.shiftl_spec by lia.
  replace (k + 16 - 16) with k by lia.
  rewrite wrap32_testbit by lia.
  rewrite Hbit, Z.ones_spec_low by lia. done.
Qed.

Lemma decodeSequence_second_word (s0 s1 : Z) (rest : list Z) :
  0 ≤ s0 < 65536 → 0 < s1 < 65536 →
  ClientWorld.decodeSequence (s0 :: s1 :: rest) ≠ s0.
Proof.
  intros Hs0 Hs1 Heq.
  assert (0 ≤ Z.log2 s1 < 16) as Hk.
  { split; [apply Z.log2_nonneg|]. apply Z.log2_lt_pow2; lia. }
  pose proof (decodeSequence_high_bit s0 s1 rest (Z.log2 s1) Hk) as Hbit.
  rewrite Heq in Hbit.
  rewrite <- (Z.mod_small s0 (2 ^ 16)) in Hbit by lia.
  rewrite Z.mod_pow2_bits_high in Hbit by lia.
  discriminate Hbit. apply Z.bit_log2. lia.
Qed.

Section snapshots.
Context {M : Type} `{WorldMap M}.

(** C1 (the code does not do what the claim asks).  [handleState] compares
    the decoded sequence number with the last accepted one and nothing
    else: a client whose last accepted sequence number is the ceiling
    50000 discards every snapshot that carries a sequence number the
    server counter can take afterwards (0 to 50000, so also the wrapped
    value 5), and its state stays as it was. *)
Theorem handleState_no_wraparound_tolerance (cw : ClientWorld.t M) (s : Z) (records : list Z) :
  ClientWorld.lastSequenceNumber cw = 50000 →
  0 ≤ s ≤ 50000 →
  ClientWorld.handleState (s :: 0 :: records) cw = cw.
Proof.
  intros Hlast Hs. apply handleState_stale.
  rewrite decodeSequence_low by lia. lia.
Qed.

Lemma createState_words (sw : ServerWorld.t M) (sequence : Z) (e : Entity.t)
    (rest : list Entity.t) :
  ServerWorld.entityObjects (ServerWorld.world sw) = e :: rest →
  ServerWorld.createState sequence sw
  = sequence `mod` 65536 :: Entity.id e `mod` 65536 :: JS.ToUint16 (Entity.x e)
      :: JS.ToUint16 (Entity.y e) :: JS.ToUint16 (Entity.type e)
      :: encodeControls e `mod` 65536
      :: JS.newUint16Array (concat (ServerWorld.encodeEntity <$> rest)).
Proof. intros Hobjects. unfold ServerWorld.createState. by rewrite Hobjects. Qed.

(** C2 (the code does not do what the claim asks).  The layouts of the two
    sides disagree as soon as the server world holds an entity: the server
    writes the sequence number in one word and the first record from word
    1 on; the client decodes the sequence number from words 0 and 1, which
    gives a number different from the one encoded, and reads its first
    record from word 2 on, so that it takes the [x] of the first entity
    for an id, its [y] for an [x], its type for a [y] and its control bits
    for a type. *)
Theorem createState_handleState_layouts_disagree (sw : ServerWorld.t M) (sequence : Z)
    (e : Entity.t) (rest : list Entity.t) :
  ServerWorld.entityObjects (ServerWorld.world sw) = e :: rest →
  0 ≤ sequence ≤ 50000 →
  0 < Entity.id e < 65536 →
  let state := ServerWorld.createState sequence sw in
  state !! 0%nat = Some sequence ∧
  state !! 1%nat = Some (Entity.id e) ∧
  ClientWorld.decodeSequence state ≠ sequence ∧
  ∃ controls records,
    ClientWorld.readRecords (drop 2 state)
    = (JS.ToUint16 (Entity.x e), JS.Num (JS.ToUint16 (Entity.y e)),
       JS.Num (JS.ToUint16 (Entity.type e)), JS.Num (encodeControls e), controls)
      :: records.
Proof.
  intros Hobjects Hseq Hid state. subst state.
  rewrite (createState_words sw sequence e rest Hobjects).
  pose proof (encodeControls_range e) as Hc.
  rewrite !Z.mod_small by lia. simpl.
  split_and!; [done|done|apply decodeSequence_second_word; lia|].
  destruct rest as [|e2 rest]; simpl; eauto.
Qed.

(** The two layouts only agree on the snapshot of a world without
    entities, which is the one word of the sequence number. *)
Lemma createState_no_entity (sw : ServerWorld.t M) (sequence : Z) :
  ServerWorld.entityObjects (ServerWorld.world sw) = [] →
  0 ≤ sequence ≤ 50000 →
  ServerWorld.createState sequence sw = [sequence] ∧
  ClientWorld.decodeSequence (ServerWorld.createState sequence sw) = sequence ∧
  ClientWorld.readRecords (drop 2 (ServerWorld.createState sequence sw)) = [].
Proof.
  intros Hobjects Hseq. unfold ServerWorld.createState. rewrite Hobjects. simpl.
  rewrite Z.mod_small by lia. split_and!; [done| |done].
  unfold ClientWorld.decodeSequence, JS.bor, JS.get. simpl.
  rewrite wrap32_small by lia. apply Z.lor_0_r.
Qed.

End snapshots.

Lemma handleState_no_wraparound_tolerance_witness :
  let e7 := Entity.mk 7 (JS.Num 120) (JS.Num 100) (JS.Num 2) false true false true false false in
  let cw := ClientWorld.mk (AbstractWorld.mk [e7] [0%nat] (SimpleGameMap.mk []) 1) 7 50000 ∅ 100000 in
  ClientWorld.handleState [5; 0; 7; 100; 100; 2; 0] cw = cw ∧
  ClientWorld.lastSequenceNumber (ClientWorld.handleState [5; 0; 7; 100; 100; 2; 0] cw) = 50000.
Proof.
  intros e7 cw.
  assert (Hdropped : ClientWorld.handleState [5; 0; 7; 100; 100; 2; 0] cw = cw).
  { apply (handleState_no_wraparound_tolerance cw 5 [7; 100; 100; 2; 0]).
    - reflexivity.
    - lia. }
  split; [exact Hdropped|]. rewrite Hdropped. reflexivity.
Defined.

Lemma createState_handleState_layouts_disagree_witness :
  let e7 := Entity.mk 7 (JS.Num 100) (JS.Num 100) (JS.Num 2) true false false false false false in
  let sw := ServerWorld.mk (AbstractWorld.mk [e7] [0%nat] (SimpleGameMap.mk []) 2) 8 {[ 1 := 0%nat ]} 1 in
  let cw := ClientWorld.mk (AbstractWorld.mk [] [] (SimpleGameMap.mk []) 1) 0 0 ∅ 0 in
  let state := ServerWorld.createState 1 sw in
  state = [1; 7; 100; 100; 2; 0] ∧
  ClientWorld.decodeSequence state ≠ 1 ∧
  ClientWorld.decodeSequence state = 458753 ∧
  ClientWorld.readRecords (drop 2 state)
  = [(100, JS.Num 100, JS.Num 2, JS.Num 0, JS.Undefined)] ∧
  AbstractWorld.objects (ClientWorld.world (ClientWorld.handleState state cw))
  = [Entity.mk 100 (JS.Num 100) (JS.Num 2) (JS.Num 0) true false false false false false].
Proof.
  intros e7 sw cw state.
  assert (Hid : 0 < Entity.id e7 < 65536) by (simpl; lia).
  assert (Hseq : 0 ≤ 1 ≤ 50000) by lia.
  destruct (createState_handleState_layouts_disagree sw 1 e7 [] eq_refl Hseq Hid)
    as (_ & _ & Hne & _).
  split; [reflexivity|]. split; [exact Hne|].
  split; [reflexivity|]. split; reflexivity.
Defined.

(** ** The connection life cycle *)

(** Once both data channels have been received, every open event of
    either channel reports the connection, whether the other channel has
    opened or not. *)
Lemma WebChannel_open_reports_when_received (c : WebChannel.t) :
  WebChannel.connected c = true → WebChannel.onConnect c = true →
  WebChannel.handle (WebChannel.orderedStatus open) c = (c, [WebChannel.Connect]) ∧
  WebChannel.handle (WebChannel.unorderedStatus open) c = (c, [WebChannel.Connect]).
Proof.
  intros Hboth Hset. simpl.
  unfold WebChannel.handleOrderedReceiveChannelStatusChange,
    WebChannel.handleUnorderedReceiveChannelStatusChange.
  rewrite Hboth, Hset. unfold WebChannel.connected in Hboth.
  apply andb_true_iff in Hboth as [[? ->]%bool_decide_eq_true [? ->]%bool_decide_eq_true].
  done.
Qed.

(** C3 (the code does not do what the claim asks).  On the client side of
    a connection, [connected] only tells that both data channels have been
    received.  When both are received before either reports open, the
    connect callback fires at the open event of the ordered channel, before
    the unordered channel has reported open, and a second time at the open
    event of the unordered channel. *)
Theorem WebChannel_connect_reported_twice :
  let c := WebChannel.started true true in
  (WebChannel.run
     [WebChannel.datachannel "ordered"; WebChannel.datachannel "unordered";
      WebChannel.orderedStatus open] c).2
  = [WebChannel.Connect] ∧
  (WebChannel.run
     [WebChannel.datachannel "ordered"; WebChannel.datachannel "unordered";
      WebChannel.orderedStatus open; WebChannel.unorderedStatus open] c).2
  = [WebChannel.Connect; WebChannel.Connect].
Proof. split; reflexivity. Qed.

(** ** The arrays of entities stay well formed *)

Section wellformed.
Context {M : Type} `{WorldMap M}.

Lemma moveEntities_wellformed (exclude : option ref) (w : AbstractWorld.t M) :
  allocated w ∧ NoDup (AbstractWorld.entities w) →
  allocated (AbstractWorld.moveEntities exclude w) ∧
  NoDup (AbstractWorld.entities (AbstractWorld.moveEntities exclude w)).
Proof.
  intros [Halloc Hnd]. split; [|done].
  intros l Hl. simpl in *. rewrite moveLoop_length. by apply Halloc.
Qed.

Lemma applyRecord_wellformed (cw : ClientWorld.t M) (entitiesInUpdate : list ref)
    (r : ClientWorld.EntityRecord) :
  allocated (ClientWorld.world cw) ∧ NoDup (AbstractWorld.entities (ClientWorld.world cw)) →
  let cw' := (ClientWorld.applyRecord (cw, entitiesInUpdate) r).1 in
  allocated (ClientWorld.world cw') ∧ NoDup (AbstractWorld.entities (ClientWorld.world cw')).
Proof.
  intros [Halloc Hnd]. destruct r as [[[[id x] y] type] controls].
  destruct (AbstractWorld.findById id (ClientWorld.world cw)) as [l|] eqn:Hfind.
  - destruct (decide (id = ClientWorld.myId cw)) as [Hid|Hid].
    + by rewrite (applyRecord_local _ _ _ _ _ _ _ l Hfind Hid).
    + rewrite (applyRecord_other _ _ _ _ _ _ _ l Hfind Hid). simpl.
      split; [|done]. intros l0 Hl0. simpl in *. rewrite length_alter. by apply Halloc.
  - rewrite (applyRecord_created _ _ _ _ _ _ _ Hfind). simpl. split.
    + intros l0 [Hl0| ->%list_elem_of_singleton]%elem_of_app; simpl in *;
        rewrite length_app; simpl; [|lia].
      apply Halloc in Hl0. lia.
    + apply NoDup_app. split_and!; [done| |apply NoDup_singleton].
      intros l0 Hl0 ->%list_elem_of_singleton. apply Halloc in Hl0. lia.
Qed.

Lemma applyRecords_wellformed (rs : list ClientWorld.EntityRecord) (cw : ClientWorld.t M)
    (entitiesInUpdate : list ref) :
  allocated (ClientWorld.world cw) ∧ NoDup (AbstractWorld.entities (ClientWorld.world cw)) →
  let cw' := (foldl ClientWorld.applyRecord (cw, entitiesInUpdate) rs).1 in
  allocated (ClientWorld.world cw') ∧ NoDup (AbstractWorld.entities (ClientWorld.world cw')).
Proof.
  revert cw entitiesInUpdate.
  induction rs as [|r rs IH]; intros cw eiu Hwf; cbn [foldl]; [done|].
  pose proof (applyRecord_wellformed cw eiu r Hwf) as Hstep.
  destruct (ClientWorld.applyRecord (cw, eiu) r) as [cw1 eiu1].
  exact (IH cw1 eiu1 Hstep).
Qed.

Lemma replay_wellformed (cw : ClientWorld.t M) :
  allocated (ClientWorld.world cw) ∧ NoDup (AbstractWorld.entities (ClientWorld.world cw)) →
  allocated (ClientWorld.world (ClientWorld.replay cw)) ∧
  NoDup (AbstractWorld.entities (ClientWorld.world (ClientWorld.replay cw))).
Proof.
  intros Hwf. unfold ClientWorld.replay. case_decide; [|done].
  induction (Z.to_nat (ClientWorld.stepsAhead cw)) as [|n IH]; simpl; [done|].
  by apply moveEntities_wellformed.
Qed.

(** Every reference the client holds points to an object and no object is
    held twice, before and after a snapshot. *)
Lemma handleState_wellformed (state : list Z) (cw : ClientWorld.t M) :
  allocated (ClientWorld.world cw) ∧ NoDup (AbstractWorld.entities (ClientWorld.world cw)) →
  allocated (ClientWorld.world (ClientWorld.handleState state cw)) ∧
  NoDup (AbstractWorld.entities (ClientWorld.world (ClientWorld.handleState state cw))).
Proof.
  intros Hwf. unfold ClientWorld.handleState. case_decide; [done|].
  match goal with |- context [foldl ClientWorld.applyRecord (?cw0, []) ?rs] =>
    pose proof (applyRecords_wellformed rs cw0 [] Hwf) as Hloop;
    destruct (foldl ClientWorld.applyRecord (cw0, []) rs) as [cw1 eiu] end.
  simpl in Hloop. destruct Hloop as [Halloc Hnd].
  apply replay_wellformed. simpl. rewrite removeUnmentioned_filter. split.
  - intros l [_ Hl]%list_elem_of_filter. by apply Halloc.
  - by apply NoDup_filter.
Qed.

Lemma clientTick_wellformed (cw : ClientWorld.t M) :
  allocated (ClientWorld.world cw) ∧ NoDup (AbstractWorld.entities (ClientWorld.world cw)) →
  allocated (ClientWorld.world (ClientWorld.clientTick cw)) ∧
  NoDup (AbstractWorld.entities (ClientWorld.world (ClientWorld.clientTick cw))).
Proof. intros Hwf. by apply moveEntities_wellformed. Qed.

(** After an accepted snapshot the client holds exactly the entities the
    snapshot mentioned: one object per id of a record. *)
Lemma handleState_entities_mentioned (state : list Z) (cw : ClientWorld.t M) :
  ClientWorld.lastSequenceNumber cw < ClientWorld.decodeSequence state →
  let acc := foldl ClientWorld.applyRecord
               (ClientWorld.mk (ClientWorld.world cw) (ClientWorld.myId cw)
                  (ClientWorld.decodeSequence state) (ClientWorld.nameById cw)
                  (ClientWorld.localSequenceNumber2 cw), [])
               (ClientWorld.readRecords (drop 2 state)) in
  AbstractWorld.entities (ClientWorld.world (ClientWorld.handleState state cw))
  = filter (λ l, l ∈ acc.2) (AbstractWorld.entities (ClientWorld.world acc.1)).
Proof.
  intros Hnew acc. unfold ClientWorld.handleState. case_decide; [lia|].
  fold acc. destruct acc as [cw1 eiu]. simpl.
  match goal with |- context [ClientWorld.replay ?c] =>
    destruct (replay_fields c) as (_ & _ & ->) end.
  simpl. apply removeUnmentioned_filter.
Qed.

End wellformed.

(** *** The server side reports a connection once *)

Section server_lifecycle.
Local Open Scope nat_scope.

(** Closes the goals on the flags and on the number of callbacks fired. *)
Ltac flags_done :=
  simpl;
  repeat (first [ rewrite filter_cons_True by done
                | rewrite filter_cons_False by congruence
                | rewrite filter_nil ]);
  simpl; split_and!; auto; try done; try (intros; lia).

(** What one event does to the object of client [c]: how its two flags
    move, and how many times the event reports [c] connected or
    disconnected. *)
Lemma handle_client (ev : WebChannelServer.Event) (s : WebChannelServer.t)
    (c : WebChannelServer.cref) (obj : WebChannelServer.WebChannelClient) :
  WebChannelServer.clientObjects s !! c = Some obj →
  ∃ obj', WebChannelServer.clientObjects (WebChannelServer.handle ev s).1 !! c = Some obj' ∧
    let fired := (WebChannelServer.handle ev s).2 in
    let nc := length (filter (λ cb, cb = WebChannelServer.Connect c) fired) in
    let nd := length (filter (λ cb, cb = WebChannelServer.Disconnect c) fired) in
    if decide (ev = WebChannelServer.orderedStatus c open) then
      WebChannelServer.unorderedChannelConnected obj'
      = WebChannelServer.unorderedChannelConnected obj ∧
      (WebChannelServer.orderedChannelConnected obj' = true ∨
       WebChannelServer.orderedChannelConnected obj'
       = WebChannelServer.orderedChannelConnected obj) ∧
      nc ≤ Nat.b2n (WebChannelServer.unorderedChannelConnected obj) ∧ nd = 0
    else if decide (ev = WebChannelServer.unorderedStatus c open) then
      WebChannelServer.orderedChannelConnected obj'
      = WebChannelServer.orderedChannelConnected obj ∧
      (WebChannelServer.unorderedChannelConnected obj' = true ∨
       WebChannelServer.unorderedChannelConnected obj'
       = WebChannelServer.unorderedChannelConnected obj) ∧
      nc ≤ Nat.b2n (WebChannelServer.orderedChannelConnected obj) ∧ nd = 0
    else
      WebChannelServer.orderedChannelConnected obj'
      = WebChannelServer.orderedChannelConnected obj ∧
      (WebChannelServer.unorderedChannelConnected obj'
       = WebChannelServer.unorderedChannelConnected obj ∨
       WebChannelServer.unorderedChannelConnected obj' = false) ∧
      nc = 0 ∧
      nd ≤ Nat.b2n (WebChannelServer.unorderedChannelConnected obj) ∧
      (nd = 1 → WebChannelServer.unorderedChannelConnected obj' = false).
Proof.
  intros Hobj. pose proof (lookup_lt_Some _ _ _ Hobj) as Hlt.
  destruct ev as [username|client readyState|client readyState].
  - exists obj. split.
    + simpl. by rewrite lookup_app_l.
    + repeat case_decide; try done. flags_done.
  - destruct (decide (client = c)) as [->|Hne].
    + simpl. unfold WebChannelServer.handleOrderedStatusChange. rewrite Hobj.
      destruct obj as [uCh [oCh|] uC oC i n]; simpl.
      * destruct (decide (readyState = open)) as [->|Hrs].
        -- eexists. split; [simpl; by apply list_lookup_insert_eq|].
           repeat case_decide; try congruence.
           unfold WebChannelServer.connected. simpl.
           destruct uC, (WebChannelServer.onConnect s); flags_done.
        -- eexists. split.
           { unfold WebChannelServer.connected. simpl.
             destruct (uC && oC); simpl; apply list_lookup_insert_eq;
               by rewrite ?removeClient_clientObjects. }
           repeat case_decide; try congruence.
           unfold WebChannelServer.connected. simpl.
           destruct uC, oC, (WebChannelServer.onDisconnect s); flags_done.
      * exists (WebChannelServer.mkClient uCh None uC oC i n). split; [done|].
        repeat case_decide; flags_done.
    + exists obj. split.
      * simpl. unfold WebChannelServer.handleOrderedStatusChange.
        repeat case_match; simplify_eq/=;
          rewrite ?list_lookup_insert_ne, ?removeClient_clientObjects by done; done.
      * repeat case_decide; try congruence.
        simpl. unfold WebChannelServer.handleOrderedStatusChange.
        repeat case_match; simplify_eq/=; flags_done.
  - destruct (decide (client = c)) as [->|Hne].
    + simpl. unfold WebChannelServer.handleUnorderedStatusChange. rewrite Hobj.
      destruct obj as [[uCh|] oCh uC oC i n]; simpl.
      * destruct (decide (readyState = open)) as [->|Hrs].
        -- eexists. split; [simpl; by apply list_lookup_insert_eq|].
           repeat case_decide; try congruence.
           unfold WebChannelServer.connected. simpl.
           destruct oC, (WebChannelServer.onConnect s); flags_done.
        -- eexists. split.
           { unfold WebChannelServer.connected. simpl.
             destruct (uC && oC); simpl; apply list_lookup_insert_eq;
               by rewrite ?removeClient_clientObjects. }
           repeat case_decide; try congruence.
           unfold WebChannelServer.connected. simpl.
           destruct uC, oC, (WebChannelServer.onDisconnect s); flags_done.
      * exists (WebChannelServer.mkClient None oCh uC oC i n). split; [done|].
        repeat case_decide; flags_done.
    + exists obj. split.
      * simpl. unfold WebChannelServer.handleUnorderedStatusChange.
        repeat case_match; simplify_eq/=;
          rewrite ?list_lookup_insert_ne, ?removeClient_clientObjects by done; done.
      * repeat case_decide; try congruence.
        simpl. unfold WebChannelServer.handleUnorderedStatusChange.
        repeat case_match; simplify_eq/=; flags_done.
Qed.

Lemma run_cons_fired (ev : WebChannelServer.Event) (evs : list WebChannelServer.Event)
    (s : WebChannelServer.t) :
  (WebChannelServer.run (ev :: evs) s).2
  = (WebChannelServer.handle ev s).2
    ++ (WebChannelServer.run evs (WebChannelServer.handle ev s).1).2.
Proof.
  simpl. destruct (WebChannelServer.handle ev s) as [s1 fired]. simpl.
  by destruct (WebChannelServer.run evs s1) as [s2 later].
Qed.

(** How many times a run can report client [c] connected or disconnected,
    from the flags of its object and the number of open events still to
    come on each of its channels, when a channel opens at most once. *)
Lemma callbacks_bound (c : WebChannelServer.cref) (evs : list WebChannelServer.Event)
    (s : WebChannelServer.t) (obj : WebChannelServer.WebChannelClient) :
  WebChannelServer.clientObjects s !! c = Some obj →
  let no := length (filter (λ ev, ev = WebChannelServer.orderedStatus c open) evs) in
  let nu := length (filter (λ ev, ev = WebChannelServer.unorderedStatus c open) evs) in
  no ≤ 1 → nu ≤ 1 →
  (no = 1 → WebChannelServer.orderedChannelConnected obj = false) →
  (nu = 1 → WebChannelServer.unorderedChannelConnected obj = false) →
  let fired := (WebChannelServer.run evs s).2 in
  length (filter (λ cb, cb = WebChannelServer.Connect c) fired)
  ≤ (if decide (no = 1 ∧ nu = 1) then 1
     else no * Nat.b2n (WebChannelServer.unorderedChannelConnected obj)
          + nu * Nat.b2n (WebChannelServer.orderedChannelConnected obj)) ∧
  length (filter (λ cb, cb = WebChannelServer.Disconnect c) fired)
  ≤ (if decide (nu = 1) then 1
     else Nat.b2n (WebChannelServer.unorderedChannelConnected obj)).
Proof.
  revert s obj. induction evs as [|ev evs IH]; intros s obj Hobj no nu Hno Hnu Hio Hiu fired.
  { subst fired no nu. simpl. split; lia. }
  destruct (handle_client ev s c obj Hobj) as (obj' & Hobj' & Hstep).
  cbv zeta in Hstep.
  specialize (IH (WebChannelServer.handle ev s).1 obj' Hobj'). cbv zeta in IH.
  subst fired. rewrite run_cons_fired, !filter_app, !length_app.
  subst no nu.
  destruct (decide (ev = WebChannelServer.orderedStatus c open)) as [->|Heo];
    [|destruct (decide (ev = WebChannelServer.unorderedStatus c open)) as [->|Heu]].
  - rewrite (filter_cons_True (λ ev, ev = WebChannelServer.orderedStatus c open)) in * by done.
    rewrite (filter_cons_False (λ ev, ev = WebChannelServer.unorderedStatus c open)) in * by done.
    simpl length in *.
    destruct Hstep as (HuC & HoC & Hnc & Hnd).
    destruct IH as [IHc IHd]; [lia|lia|intros; lia|rewrite HuC; exact Hiu|].
    rewrite HuC in IHc, IHd. rewrite Hnd. clear Hio.
    destruct (WebChannelServer.unorderedChannelConnected obj),
      (WebChannelServer.orderedChannelConnected obj');
      repeat case_decide; simpl in *; split; try lia;
      specialize (Hiu ltac:(lia)); congruence.
  - rewrite (filter_cons_False (λ ev, ev = WebChannelServer.orderedStatus c open)) in * by done.
    rewrite (filter_cons_True (λ ev, ev = WebChannelServer.unorderedStatus c open)) in * by done.
    simpl length in *.
    destruct Hstep as (HoC & HuC & Hnc & Hnd).
    destruct IH as [IHc IHd]; [lia|lia|rewrite HoC; exact Hio|intros; lia|].
    rewrite HoC in IHc. rewrite Hnd. clear Hiu.
    destruct (WebChannelServer.orderedChannelConnected obj),
      (WebChannelServer.unorderedChannelConnected obj');
      repeat case_decide; simpl in *; split; try lia;
      specialize (Hio ltac:(lia)); congruence.
  - rewrite (filter_cons_False (λ ev, ev = WebChannelServer.orderedStatus c open)) in * by done.
    rewrite (filter_cons_False (λ ev, ev = WebChannelServer.unorderedStatus c open)) in * by done.
    destruct Hstep as (HoC & HuC & Hnc & Hnd & Hnd1).
    destruct IH as [IHc IHd]; [lia|lia|rewrite HoC; exact Hio| |].
    { intros Hone. destruct HuC as [->| ->]; [by apply Hiu|done]. }
    rewrite HoC in IHc. rewrite Hnc.
    destruct (WebChannelServer.unorderedChannelConnected obj) eqn:EuC,
      (WebChannelServer.unorderedChannelConnected obj') eqn:EuC';
      repeat case_decide; simpl in *; split; try lia;
      try (destruct HuC; congruence);
      try (specialize (Hiu ltac:(lia)); congruence).
Qed.

(** The sibling of the client-side channel does what the claim asks: for a
    client whose two channels each report open at most once, the server
    reports the connection at most once and the disconnection at most
    once. *)
Lemma WebChannelClient_reports_once (username : string) (evs : list WebChannelServer.Event)
    (s : WebChannelServer.t) :
  let c := length (WebChannelServer.clientObjects s) in
  length (filter (λ ev, ev = WebChannelServer.orderedStatus c open) evs) ≤ 1 →
  length (filter (λ ev, ev = WebChannelServer.unorderedStatus c open) evs) ≤ 1 →
  let fired := (WebChannelServer.run (WebChannelServer.connect username :: evs) s).2 in
  length (filter (λ cb, cb = WebChannelServer.Connect c) fired) ≤ 1 ∧
  length (filter (λ cb, cb = WebChannelServer.Disconnect c) fired) ≤ 1.
Proof.
  intros c Hno Hnu fired. subst fired. rewrite run_cons_fired. simpl app.
  destruct (callbacks_bound c evs (WebChannelServer.connectionRequest username s)
              (WebChannelServer.newClient (WebChannelServer.nextId s) username))
    as [Hc Hd]; try done.
  { simpl. apply list_lookup_middle. done. }
  unfold WebChannelServer.newClient in Hc, Hd. simpl in Hc, Hd. split.
  - etransitivity; [exact Hc|].
    match goal with |- context [if ?d then _ else _] => destruct d end; lia.
  - etransitivity; [exact Hd|].
    match goal with |- context [if ?d then _ else _] => destruct d end; lia.
Qed.

Lemma elem_of_filter_length {A} `{EqDecision A} (x : A) (l : list A) :
  x ∈ l → 1 ≤ length (filter (λ y, y = x) l).
Proof.
  intros Hx.
  assert (x ∈ filter (λ y, y = x) l) as Hin by (by apply list_elem_of_filter).
  destruct (filter (λ y, y = x) l); [by apply elem_of_nil in Hin|simpl; lia].
Qed.

(** A connection is only reported when both flags are set, so after each
    of the two channels has reported open. *)
Lemma connect_needs_both_open (c : WebChannelServer.cref) (evs : list WebChannelServer.Event)
    (s : WebChannelServer.t) (obj : WebChannelServer.WebChannelClient) :
  WebChannelServer.clientObjects s !! c = Some obj →
  WebChannelServer.Connect c ∈ (WebChannelServer.run evs s).2 →
  (WebChannelServer.orderedChannelConnected obj = true ∨
   WebChannelServer.orderedStatus c open ∈ evs) ∧
  (WebChannelServer.unorderedChannelConnected obj = true ∨
   WebChannelServer.unorderedStatus c open ∈ evs).
Proof.
  revert s obj. induction evs as [|ev evs IH]; intros s obj Hobj Hin.
  { by apply elem_of_nil in Hin. }
  destruct (handle_client ev s c obj Hobj) as (obj' & Hobj' & Hstep).
  cbv zeta in Hstep.
  rewrite run_cons_fired in Hin. apply elem_of_app in Hin as [Hnow|Hlater].
  - apply (elem_of_filter_length (WebChannelServer.Connect c)) in Hnow.
    destruct (decide (ev = WebChannelServer.orderedStatus c open)) as [->|Heo];
      [|destruct (decide (ev = WebChannelServer.unorderedStatus c open)) as [->|Heu]].
    + destruct Hstep as (_ & _ & Hnc & _).
      destruct (WebChannelServer.unorderedChannelConnected obj);
        unfold Nat.b2n in Hnc; [|lia].
      split; [right; left|by left].
    + destruct Hstep as (_ & _ & Hnc & _).
      destruct (WebChannelServer.orderedChannelConnected obj);
        unfold Nat.b2n in Hnc; [|lia].
      split; [by left|right; left].
    + destruct Hstep as (_ & _ & Hnc & _). lia.
  - destruct (IH _ _ Hobj' Hlater) as [HO HU].
    destruct (decide (ev = WebChannelServer.orderedStatus c open)) as [->|Heo];
      [|destruct (decide (ev = WebChannelServer.unorderedStatus c open)) as [->|Heu]].
    + destruct Hstep as (HuC & _ & _). rewrite HuC in HU. split.
      * right. left.
      * destruct HU as [HU|HU]; [by left|right; by right].
    + destruct Hstep as (HoC & _ & _). rewrite HoC in HO. split.
      * destruct HO as [HO|HO]; [by left|right; by right].
      * right. left.
    + destruct Hstep as (HoC & HuC & _). rewrite HoC in HO. split.
      * destruct HO as [HO|HO]; [by left|right; by right].
      * destruct HU as [HU|HU]; [|right; by right].
        left. destruct HuC as [HuC|HuC]; congruence.
Qed.

(** For a client that has just been constructed: connected is reported
    only if both of its channels report open. *)
Lemma WebChannelClient_connect_after_both_open (username : string)
    (evs : list WebChannelServer.Event) (s : WebChannelServer.t) :
  let c := length (WebChannelServer.clientObjects s) in
  WebChannelServer.Connect c
    ∈ (WebChannelServer.run (WebChannelServer.connect username :: evs) s).2 →
  WebChannelServer.orderedStatus c open ∈ evs ∧
  WebChannelServer.unorderedStatus c open ∈ evs.
Proof.
  intros c Hin. rewrite run_cons_fired in Hin. simpl app in Hin.
  destruct (connect_needs_both_open c evs (WebChannelServer.connectionRequest username s)
              (WebChannelServer.newClient (WebChannelServer.nextId s) username))
    as [[HO|HO] [HU|HU]]; try done.
  simpl. apply list_lookup_middle. done.
Qed.

End server_lifecycle.

(** ** State reports and ticks *)

Section reports.
Context {M : Type} `{WorldMap M}.

(** The report the client sends for its local entity decodes, on the
    server, to the position and the input flags of that entity, as long as
    the position fits the 16-bit words. *)
Lemma sendState_decoded (cw : ClientWorld.t M) (l : ref) (e : Entity.t) (px py : Z) :
  ClientWorld.getLocalEntity cw = Some l →
  AbstractWorld.objects (ClientWorld.world cw) !! l = Some e →
  Entity.x e = JS.Num px → Entity.y e = JS.Num py →
  0 ≤ px < 65536 → 0 ≤ py < 65536 →
  ∃ array, ClientWorld.sendState cw = Some array ∧
    JS.get array 0 = JS.Num px ∧ JS.get array 1 = JS.Num py ∧
    controlBit (JS.get array 2) LEFT = Entity.left e ∧
    controlBit (JS.get array 2) RIGHT = Entity.right e ∧
    controlBit (JS.get array 2) UP = Entity.up e ∧
    controlBit (JS.get array 2) DOWN = Entity.down e.
Proof.
  intros Hlocal He Hx Hy Hpx Hpy. unfold ClientWorld.sendState.
  rewrite Hlocal, He, Hx, Hy. eexists. split; [done|].
  pose proof (encodeControls_range e) as Hc.
  unfold JS.get. simpl. rewrite !Z.mod_small by lia.
  split_and!; try done; apply controlBit_encodeControls.
Qed.

(** A tick of the server keeps the counter in range and keeps every entity
    off the blocked positions. *)
Lemma tick_sequenceNumber (sw : ServerWorld.t M) :
  0 ≤ ServerWorld.sequenceNumber sw ≤ 50000 →
  0 ≤ ServerWorld.sequenceNumber (ServerWorld.tick sw).2 ≤ 50000 ∧
  (ServerWorld.tick sw).1 !! 0%nat = Some (ServerWorld.sequenceNumber (ServerWorld.tick sw).2).
Proof.
  intros Hseq. simpl. pose proof (advanceSequence_range _ Hseq) as Hnext.
  split; [done|]. by rewrite Z.mod_small by lia.
Qed.

Lemma tick_unblocked (sw : ServerWorld.t M) :
  unblocked (ServerWorld.world sw) → unblocked (ServerWorld.world (ServerWorld.tick sw).2).
Proof. intros Hw. simpl. by apply moveEntities_unblocked. Qed.

Lemma clientTick_unblocked (cw : ClientWorld.t M) :
  unblocked (ClientWorld.world cw) → unblocked (ClientWorld.world (ClientWorld.clientTick cw)).
Proof. intros Hw. simpl. by apply moveEntities_unblocked. Qed.

End reports.

(** A client with no entity that receives, in its own layout, the snapshot
    with sequence number 1 and the record of entity 7 creates entity 7 at
    (100, 100). *)
Example handleState_creates_entity :
  let cw := ClientWorld.mk (AbstractWorld.mk [] [] (SimpleGameMap.mk []) 1) 0 0 ∅ 0 in
  let cw' := ClientWorld.handleState [1; 0; 7; 100; 100; 2; 0] cw in
  AbstractWorld.entities (ClientWorld.world cw') = [0%nat] ∧
  AbstractWorld.objects (ClientWorld.world cw')
  = [Entity.mk 7 (JS.Num 100) (JS.Num 100) (JS.Num 2) true false false false false false] ∧
  ClientWorld.lastSequenceNumber cw' = 1.
Proof. done. Qed.

(** An entity of snapshot 1 that snapshot 2 does not mention is gone after
    snapshot 2. *)
Example handleState_removes_entity :
  let cw := ClientWorld.mk (AbstractWorld.mk [] [] (SimpleGameMap.mk []) 1) 0 0 ∅ 0 in
  let cw1 := ClientWorld.handleState [1; 0; 7; 100; 100; 2; 0; 8; 60; 60; 1; 0] cw in
  let cw2 := ClientWorld.handleState [2; 0; 8; 60; 60; 1; 0] cw1 in
  AbstractWorld.entities (ClientWorld.world cw1) = [0%nat; 1%nat] ∧
  AbstractWorld.entities (ClientWorld.world cw2) = [1%nat] ∧
  AbstractWorld.findById 7 (ClientWorld.world cw2) = None.
Proof. done. Qed.

(** ** The authoritative world never holds an entity on a blocked position *)

Section server_invariant.
Context {M : Type} `{WorldMap M}.

Lemma clientStateReceived_invariant (client : Z) (array : list Z) (sw : ServerWorld.t M) :
  allocated (ServerWorld.world sw) ∧ NoDup (AbstractWorld.entities (ServerWorld.world sw)) ∧
  unblocked (ServerWorld.world sw) →
  let sw' := ServerWorld.clientStateReceived client array sw in
  allocated (ServerWorld.world sw') ∧ NoDup (AbstractWorld.entities (ServerWorld.world sw')) ∧
  unblocked (ServerWorld.world sw').
Proof.
  intros (Halloc & Hnd & Hfree). unfold ServerWorld.clientStateReceived.
  destruct (ServerWorld.clientToEntity sw !! client) as [entity|]; [|done].
  destruct (blockedAt _ (JS.get array 0) (JS.get array 1)) eqn:Hb; [done|]. simpl.
  split_and!; [|done|].
  - intros l Hl. simpl in *. rewrite length_alter. by apply Halloc.
  - intros l e Hl. simpl in *.
    destruct (decide (entity = l)) as [->|Hne].
    + rewrite list_lookup_alter_eq. intros (e0 & _ & ->)%fmap_Some. exact Hb.
    + rewrite list_lookup_alter_ne by done. by apply Hfree.
Qed.

Lemma clientConnected_invariant (server : WebChannelServer.t) (client : WebChannelServer.cref)
    (rx ry rt : Z) (sw : ServerWorld.t M) :
  blockedAt (AbstractWorld.map (ServerWorld.world sw))
    (JS.Num (100 + rx)) (JS.Num (100 + ry)) = false →
  allocated (ServerWorld.world sw) ∧ NoDup (AbstractWorld.entities (ServerWorld.world sw)) ∧
  unblocked (ServerWorld.world sw) →
  let sw' := (ServerWorld.clientConnected server client rx ry rt sw).1 in
  allocated (ServerWorld.world sw') ∧ NoDup (AbstractWorld.entities (ServerWorld.world sw')) ∧
  unblocked (ServerWorld.world sw').
Proof.
  intros Hspawn (Halloc & Hnd & Hfree). unfold ServerWorld.clientConnected.
  destruct (WebChannelServer.clientObjects server !! client) as [c|]; [|done]. simpl.
  split_and!.
  - intros l [Hl| ->%list_elem_of_singleton]%elem_of_app; simpl in *;
      rewrite length_app; simpl; [|lia].
    apply Halloc in Hl. lia.
  - apply NoDup_app. split_and!; [done| |apply NoDup_singleton].
    intros l Hl ->%list_elem_of_singleton. apply Halloc in Hl. lia.
  - intros l e [Hl| ->%list_elem_of_singleton]%elem_of_app; simpl in *.
    + rewrite lookup_app_l by (by apply Halloc). by apply Hfree.
    + rewrite list_lookup_middle by done. by intros [= <-].
Qed.

Lemma clientDisconnected_invariant (server : WebChannelServer.t)
    (client : WebChannelServer.cref) (sw : ServerWorld.t M) :
  allocated (ServerWorld.world sw) ∧ NoDup (AbstractWorld.entities (ServerWorld.world sw)) ∧
  unblocked (ServerWorld.world sw) →
  let sw' := ServerWorld.clientDisconnected server client sw in
  allocated (ServerWorld.world sw') ∧ NoDup (AbstractWorld.entities (ServerWorld.world sw')) ∧
  unblocked (ServerWorld.world sw').
Proof.
  intros (Halloc & Hnd & Hfree). unfold ServerWorld.clientDisconnected.
  destruct (WebChannelServer.clientObjects server !! client) as [c|]; [|done].
  destruct (ServerWorld.clientToEntity sw !! WebChannelServer.id c) as [entity|]; [|done].
  simpl.
  assert (JS.splice1 (JS.indexOf entity (AbstractWorld.entities (ServerWorld.world sw)))
            (AbstractWorld.entities (ServerWorld.world sw))
          `sublist_of` AbstractWorld.entities (ServerWorld.world sw)) as Hsub.
  { unfold JS.splice1. apply sublist_delete. }
  split_and!.
  - intros l Hl. simpl in *. apply Halloc. by eapply elem_of_sublist.
  - by eapply sublist_NoDup.
  - intros l e Hl. simpl in *. apply Hfree. by eapply elem_of_sublist.
Qed.

Lemma tick_invariant (sw : ServerWorld.t M) :
  allocated (ServerWorld.world sw) ∧ NoDup (AbstractWorld.entities (ServerWorld.world sw)) ∧
  unblocked (ServerWorld.world sw) →
  let sw' := (ServerWorld.tick sw).2 in
  allocated (ServerWorld.world sw') ∧ NoDup (AbstractWorld.entities (ServerWorld.world sw')) ∧
  unblocked (ServerWorld.world sw').
Proof.
  intros (Halloc & Hnd & Hfree). simpl.
  destruct (moveEntities_wellformed None (ServerWorld.world sw)) as [Halloc' Hnd']; [done|].
  split_and!; [done|done|]. by apply moveEntities_unblocked.
Qed.

Lemma handle_map (ev : ServerWorld.Event) (sw : ServerWorld.t M) :
  AbstractWorld.map (ServerWorld.world (ServerWorld.handle ev sw))
  = AbstractWorld.map (ServerWorld.world sw).
Proof.
  destruct ev; simpl; try done.
  - unfold ServerWorld.clientConnected. by case_match.
  - unfold ServerWorld.clientDisconnected. by repeat case_match.
  - unfold ServerWorld.clientStateReceived. by repeat case_match.
Qed.

(** Whatever the clients report and however they connect and disconnect,
    as long as every spawn position is free, the entities of the server
    world are allocated, distinct and off the blocked positions. *)
Lemma server_invariant (evs : list ServerWorld.Event) (sw : ServerWorld.t M) :
  (∀ server client rx ry rt,
     ServerWorld.connected server client rx ry rt ∈ evs →
     blockedAt (AbstractWorld.map (ServerWorld.world sw))
       (JS.Num (100 + rx)) (JS.Num (100 + ry)) = false) →
  allocated (ServerWorld.world sw) ∧ NoDup (AbstractWorld.entities (ServerWorld.world sw)) ∧
  unblocked (ServerWorld.world sw) →
  let sw' := ServerWorld.run evs sw in
  allocated (ServerWorld.world sw') ∧ NoDup (AbstractWorld.entities (ServerWorld.world sw')) ∧
  unblocked (ServerWorld.world sw').
Proof.
  revert sw. induction evs as [|ev evs IH]; intros sw Hspawn Hinv; [done|].
  unfold ServerWorld.run. cbn [foldl].
  apply IH.
  - intros server client rx ry rt Hin. rewrite handle_map.
    apply (Hspawn server client rx ry rt). by right.
  - destruct ev as [server client rx ry rt|server client|client array|]; simpl.
    + apply clientConnected_invariant; [|done].
      apply (Hspawn server client rx ry rt). left.
    + by apply clientDisconnected_invariant.
    + by apply clientStateReceived_invariant.
    + by apply tick_invariant.
Qed.

End server_invariant.

(** Every spawn position of [clientConnected] is free on the map of the
    game. *)
Lemma SimpleGameMap_spawn_free (m : SimpleGameMap.t) (rx ry : Z) :
  0 ≤ rx < 100 → 0 ≤ ry < 100 →
  blockedAt m (JS.Num (100 + rx)) (JS.Num (100 + ry)) = false.
Proof.
  intros Hrx Hry. simpl. unfold SimpleGameMap.blockedAt. simpl.
  assert (6 ≤ (100 + rx + 8) / 16 < 13) as Hcol.
  { split; [apply Z.div_le_lower_bound|apply Z.div_lt_upper_bound]; lia. }
  assert (7 ≤ (100 + ry + 20) / 16 < 14) as Hrow.
  { split; [apply Z.div_le_lower_bound|apply Z.div_lt_upper_bound]; lia. }
  generalize dependent ((100 + rx + 8) / 16). intros col Hcol.
  generalize dependent ((100 + ry + 20) / 16). intros row Hrow.
  assert (col = 6 ∨ col = 7 ∨ col = 8 ∨ col = 9 ∨ col = 10 ∨ col = 11 ∨ col = 12)
    as Hc by lia.
  assert (row = 7 ∨ row = 8 ∨ row = 9 ∨ row = 10 ∨ row = 11 ∨ row = 12 ∨ row = 13)
    as Hr by lia.
  destruct Hc as [->|[->|[->|[->|[->|[->| ->]]]]]];
    destruct Hr as [->|[->|[->|[->|[->|[->| ->]]]]]]; reflexivity.
Qed.

(** X5. On the map of the game, the server world started empty keeps every
    entity off the walls, whatever connections, disconnections, state
    reports and ticks reach it, as long as the spawn draws are in the
    range of [Math.floor(Math.random() * 100)]. *)
Lemma SimpleGameMap_server_unblocked (m : SimpleGameMap.t) (evs : list ServerWorld.Event) :
  (∀ server client rx ry rt,
     ServerWorld.connected server client rx ry rt ∈ evs → 0 ≤ rx < 100 ∧ 0 ≤ ry < 100) →
  unblocked (ServerWorld.world (ServerWorld.run evs (ServerWorld.new m))).
Proof.
  intros Hdraws.
  apply (server_invariant evs (ServerWorld.new m)).
  - intros server client rx ry rt Hin.
    destruct (Hdraws server client rx ry rt Hin). by apply SimpleGameMap_spawn_free.
  - split_and!; [|constructor|].
    + intros l Hl. by apply elem_of_nil in Hl.
    + intros l e Hl. by apply elem_of_nil in Hl.
Qed.

Lemma SimpleGameMap_server_unblocked_witness :
  let alice := WebChannelServer.mkClient (Some "unordered") (Some "ordered") true true 1 "alice" in
  let server := WebChannelServer.mk [alice] [0%nat] 2 true true in
  let sw := ServerWorld.run
              [ServerWorld.connected server 0%nat 5 6 1;
               ServerWorld.unorderedBinary 1 [12; 100; 1];
               ServerWorld.timer; ServerWorld.timer]
              (ServerWorld.new (SimpleGameMap.mk [])) in
  Entity.x <$> AbstractWorld.objects (ServerWorld.world sw) !! 0%nat = Some (JS.Num 12) ∧
  unblocked (ServerWorld.world sw).
Proof.
  intros alice server sw. split; [reflexivity|].
  apply SimpleGameMap_server_unblocked.
  intros server' client rx ry rt Hin.
  apply elem_of_cons in Hin as [Hin|Hin]; [simplify_eq; lia|].
  repeat (apply elem_of_cons in Hin as [Hin|Hin]; [discriminate Hin|]).
  by apply elem_of_nil in Hin.
Defined.

(** ** The walls of the game map *)

(** The free tiles of [MAP] are the columns 1 to 28 of the rows 2 to 17. *)
Lemma MAP_free_tiles (i : nat) :
  (i < 600)%nat →
  SimpleGameMap.MAP !! i = Some 0 ↔ (1 ≤ i mod 30 ≤ 28 ∧ 2 ≤ i / 30 ≤ 17)%nat.
Proof.
  intros Hi.
  assert (forallb
            (λ i, bool_decide (SimpleGameMap.MAP !! i = Some 0
                               ↔ (1 ≤ i mod 30 ≤ 28 ∧ 2 ≤ i / 30 ≤ 17)%nat))
            (seq 0 600) = true) as Hall by (vm_compute; reflexivity).
  rewrite forallb_forall in Hall.
  specialize (Hall i). rewrite bool_decide_eq_true in Hall. apply Hall.
  apply in_seq. lia.
Qed.

Lemma MAP_length : length SimpleGameMap.MAP = 600%nat.
Proof. reflexivity. Qed.

(** A position is free when its tile index falls on a 0 of [MAP]. *)
Lemma blockedAt_free (m : SimpleGameMap.t) (px py : Z) :
  blockedAt m (JS.Num px) (JS.Num py) = false ↔
  0 ≤ (px + 8) / 16 + (py + 20) / 16 * 30 ∧
  SimpleGameMap.MAP !! Z.to_nat ((px + 8) / 16 + (py + 20) / 16 * 30) = Some 0.
Proof.
  simpl. unfold SimpleGameMap.blockedAt, SimpleGameMap.getTile. simpl.
  unfold SimpleGameMap.width, JS.get.
  case_decide as Hi; [|simpl; split; [done|intros []; lia]].
  destruct (SimpleGameMap.MAP !! _) as [tile|]; simpl.
  - rewrite negb_false_iff, bool_decide_eq_true. split.
    + by intros ->.
    + intros [_ ?]. congruence.
  - split; [done|by intros []].
Qed.

Lemma blockedAt_inside (m : SimpleGameMap.t) (px py : Z) :
  -8 ≤ px < 472 → -20 ≤ py < 300 →
  blockedAt m (JS.Num px) (JS.Num py) = false ↔ 8 ≤ px < 456 ∧ 12 ≤ py < 268.
Proof.
  intros Hx Hy. rewrite blockedAt_free.
  assert (0 ≤ (px + 8) / 16 < 30) as Hcol.
  { split; [apply Z.div_le_lower_bound|apply Z.div_lt_upper_bound]; lia. }
  assert (0 ≤ (py + 20) / 16 < 20) as Hrow.
  { split; [apply Z.div_le_lower_bound|apply Z.div_lt_upper_bound]; lia. }
  assert (1 ≤ (px + 8) / 16 ≤ 28 ↔ 8 ≤ px < 456) as <-.
  { split.
    - intros [Hlo Hhi]. split.
      + destruct (decide (8 ≤ px)) as [|Hn]; [done|].
        assert ((px + 8) / 16 < 1) by (apply Z.div_lt_upper_bound; lia). lia.
      + destruct (decide (px < 456)) as [|Hn]; [done|].
        assert (29 ≤ (px + 8) / 16) by (apply Z.div_le_lower_bound; lia). lia.
    - intros [Hlo Hhi]. split.
      + apply Z.div_le_lower_bound; lia.
      + assert ((px + 8) / 16 < 29) by (apply Z.div_lt_upper_bound; lia). lia. }
  assert (2 ≤ (py + 20) / 16 ≤ 17 ↔ 12 ≤ py < 268) as <-.
  { split.
    - intros [Hlo Hhi]. split.
      + destruct (decide (12 ≤ py)) as [|Hn]; [done|].
        assert ((py + 20) / 16 < 2) by (apply Z.div_lt_upper_bound; lia). lia.
      + destruct (decide (py < 268)) as [|Hn]; [done|].
        assert (18 ≤ (py + 20) / 16) by (apply Z.div_le_lower_bound; lia). lia.
    - intros [Hlo Hhi]. split.
      + apply Z.div_le_lower_bound; lia.
      + assert ((py + 20) / 16 < 18) by (apply Z.div_lt_upper_bound; lia). lia. }
  generalize dependent ((px + 8) / 16). intros col Hcol.
  generalize dependent ((py + 20) / 16). intros row Hrow.
  rewrite MAP_free_tiles by lia.
  replace (Z.to_nat (col + row * 30)) with (Z.to_nat col + Z.to_nat row * 30)%nat by lia.
  rewrite Nat.Div0.mod_add, Nat.div_add by lia.
  rewrite Nat.mod_small, Nat.div_small by lia.
  lia.
Qed.

Lemma moveEntity_inside (m : SimpleGameMap.t) (step : Z) (e : Entity.t) :
  0 ≤ step ≤ 16 → inside e → inside (AbstractWorld.moveEntity m step e).
Proof.
  intros Hstep (px & py & Hx & Hy & Hpx & Hpy).
  unfold AbstractWorld.moveEntity.
  rewrite (candidate_displacement step e px py Hx Hy).
  set (dx := (if Entity.right e then step else 0) - (if Entity.left e then step else 0)).
  set (dy := (if Entity.down e then step else 0) - (if Entity.up e then step else 0)).
  assert (-16 ≤ dx ≤ 16) by (unfold dx; destruct (Entity.right e), (Entity.left e); lia).
  assert (-16 ≤ dy ≤ 16) by (unfold dy; destruct (Entity.down e), (Entity.up e); lia).
  destruct (JS.strict_neq (Entity.x e) (JS.Num (px + dx))
            || JS.strict_neq (Entity.y e) (JS.Num (py + dy))); simpl;
    [|by exists px, py].
  destruct (SimpleGameMap.blockedAt m (JS.Num (px + dx)) (JS.Num (py + dy))) eqn:Hb; simpl;
    [by exists px, py|].
  exists (px + dx), (py + dy). split_and!; [done|done|..];
    apply (blockedAt_inside m (px + dx) (py + dy)) in Hb; lia.
Qed.

(** X2. On the map of the game the walls enclose the floor: a world whose
    entities all stand inside the walls, and that moves by at most one
    tile per step, still has all of them inside the walls after
    [moveEntities]. *)
Theorem SimpleGameMap_walls_enclose (w : AbstractWorld.t SimpleGameMap.t)
    (exclude : option ref) :
  0 ≤ AbstractWorld.moveStep w ≤ 16 →
  (∀ l e, l ∈ AbstractWorld.entities w → AbstractWorld.objects w !! l = Some e → inside e) →
  ∀ l e, l ∈ AbstractWorld.entities w →
    AbstractWorld.objects (AbstractWorld.moveEntities exclude w) !! l = Some e → inside e.
Proof.
  intros Hstep Hinside. simpl.
  apply (moveLoop_preserves inside (λ l, l ∈ AbstractWorld.entities w)); [|done].
  intros e. by apply moveEntity_inside.
Qed.

Lemma SimpleGameMap_walls_enclose_witness :
  let e := Entity.mk 7 (JS.Num 12) (JS.Num 100) (JS.Num 2) false false true false false false in
  let w := AbstractWorld.mk [e] [0%nat] (SimpleGameMap.mk []) 2 in
  ∃ e', AbstractWorld.objects (AbstractWorld.moveEntities None w) !! 0%nat = Some e' ∧
    Entity.x e' = JS.Num 12 ∧ inside e'.
Proof.
  intros e w. eexists. split_and!; [reflexivity|reflexivity|].
  apply (SimpleGameMap_walls_enclose w None) with (l := 0%nat);
    [vm_compute; split; discriminate| |by left|reflexivity].
  intros l e0 Hl He0. apply list_elem_of_singleton in Hl as ->.
  injection He0 as <-. exists 12, 100. split_and!; (reflexivity || lia).
Defined.

(** X3. [blockedAt] does not test the column against the width of the map:
    the tile 30 columns to the right is the tile one row down, so that the
    positions beside the right wall are as free as the floor of the next
    row. *)
Theorem blockedAt_rows_wrap (m : SimpleGameMap.t) (px py : Z) :
  blockedAt m (JS.Num (px + 480)) (JS.Num py) = blockedAt m (JS.Num px) (JS.Num (py + 16)) ∧
  (8 ≤ px < 456 ∧ 12 ≤ py < 268 →
   blockedAt m (JS.Num (px + 480)) (JS.Num (py - 16)) = false).
Proof.
  assert (∀ qx qy, blockedAt m (JS.Num (qx + 480)) (JS.Num qy)
                   = blockedAt m (JS.Num qx) (JS.Num (qy + 16))) as Hwrap.
  { intros qx qy. simpl. unfold SimpleGameMap.blockedAt, SimpleGameMap.getTile. simpl.
    unfold SimpleGameMap.width.
    replace (qx + 480 + 8) with (qx + 8 + 30 * 16) by lia.
    replace (qy + 16 + 20) with (qy + 20 + 1 * 16) by lia.
    rewrite !Z.div_add by lia.
    by replace ((qx + 8) / 16 + 30 + (qy + 20) / 16 * 30)
      with ((qx + 8) / 16 + ((qy + 20) / 16 + 1) * 30) by lia. }
  split; [apply Hwrap|].
  intros [Hx Hy]. rewrite Hwrap. replace (py - 16 + 16) with py by lia.
  apply blockedAt_inside; lia.
Qed.

Lemma blockedAt_rows_wrap_witness :
  blockedAt (SimpleGameMap.mk []) (JS.Num 490) (JS.Num 100) = false ∧
  490 > 16 * width (SimpleGameMap.mk []).
Proof.
  split; [|reflexivity].
  destruct (blockedAt_rows_wrap (SimpleGameMap.mk []) 10 116) as [_ Hfree].
  apply Hfree. lia.
Defined.

(** ** State reports on the map of the game *)

(** X4. On the map of the game a state report with fewer than two words
    has no position: the server discards it, whoever sent it. *)
Theorem clientStateReceived_short_report (sw : ServerWorld.t SimpleGameMap.t)
    (client : Z) (array : list Z) :
  (length array < 2)%nat → ServerWorld.clientStateReceived client array sw = sw.
Proof.
  intros Hlen. unfold ServerWorld.clientStateReceived.
  destruct (ServerWorld.clientToEntity sw !! client) as [entity|]; [|done].
  assert (JS.get array 1 = JS.Undefined) as ->.
  { unfold JS.get. by rewrite lookup_ge_None_2 by lia. }
  simpl. unfold SimpleGameMap.blockedAt. simpl.
  by destruct (SimpleGameMap.floorDiv16 (JS.add (JS.get array 0) 8)).
Qed.

Lemma clientStateReceived_short_report_witness :
  let e := Entity.mk 7 (JS.Num 100) (JS.Num 100) (JS.Num 2) true false false false false false in
  let sw := ServerWorld.mk (AbstractWorld.mk [e] [0%nat] (SimpleGameMap.mk []) 2) 8 {[ 1 := 0%nat ]} 0 in
  ServerWorld.clientStateReceived 1 [120] sw = sw.
Proof. intros e sw. apply clientStateReceived_short_report. simpl. lia. Defined.

(** ** The ids of the entities *)

Lemma find_is_Some {A} (f : A → bool) (l : list A) :
  is_Some (List.find f l) ↔ ∃ x, x ∈ l ∧ f x = true.
Proof.
  induction l as [|a l IH]; simpl.
  - split; [by intros [? ?]|]. intros (x & Hx & _). by apply elem_of_nil in Hx.
  - destruct (f a) eqn:Hfa.
    + split; [|by eauto]. intros _. exists a. split; [by left|done].
    + rewrite IH. split.
      * intros (x & Hx & Hfx). exists x. split; [by right|done].
      * intros (x & Hx & Hfx). apply elem_of_cons in Hx as [->|Hx]; [congruence|].
        by exists x.
Qed.

Lemma elem_of_entityIds (o : list Entity.t) (es : list nat) (i : Z) :
  i ∈ entityIds o es ↔ ∃ l, l ∈ es ∧ AbstractWorld.hasId o i l = true.
Proof.
  unfold entityIds. rewrite list_elem_of_omap.
  split; intros (l & Hl & Hid); exists l; (split; [done|]).
  - apply hasId_true. destruct (o !! l) as [e|]; [|done].
    exists e. split; [done|]. simpl in Hid. congruence.
  - apply hasId_true in Hid as (e & -> & <-). done.
Qed.

Lemma entityIds_ext (o o' : list Entity.t) (es : list nat) :
  (∀ l, l ∈ es → Entity.id <$> o' !! l = Entity.id <$> o !! l) →
  entityIds o' es = entityIds o es.
Proof.
  intros Hext. unfold entityIds.
  apply list_omap_ext, Forall_Forall2_diag, Forall_forall. exact Hext.
Qed.

Lemma lookup_id_alter (f : Entity.t → Entity.t) (k : nat) (o : list Entity.t) (l : nat) :
  (∀ e, Entity.id (f e) = Entity.id e) →
  Entity.id <$> alter f k o !! l = Entity.id <$> o !! l.
Proof.
  intros Hf. destruct (decide (k = l)) as [->|Hne].
  - rewrite list_lookup_alter_eq. destruct (o !! l); simpl; [by rewrite Hf|done].
  - by rewrite list_lookup_alter_ne.
Qed.

Lemma entityIds_sublist (o : list Entity.t) (es es' : list nat) :
  es' `sublist_of` es → entityIds o es' `sublist_of` entityIds o es.
Proof.
  unfold entityIds. induction 1 as [|l es1 es2 _ IH|l es1 es2 _ IH]; simpl.
  - constructor.
  - destruct (Entity.id <$> o !! l); [by constructor|done].
  - destruct (Entity.id <$> o !! l); [by constructor|done].
Qed.

Section ids.
Context {M : Type} `{WorldMap M}.

Lemma findById_is_Some (i : Z) (w : AbstractWorld.t M) :
  is_Some (AbstractWorld.findById i w)
  ↔ i ∈ entityIds (AbstractWorld.objects w) (AbstractWorld.entities w).
Proof. unfold AbstractWorld.findById. by rewrite find_is_Some, elem_of_entityIds. Qed.

Lemma moveLoop_lookup_id (m : M) (step : Z) (exclude : option ref) (es : list ref)
    (o : list Entity.t) (l : ref) :
  Entity.id <$> foldl (AbstractWorld.moveOne m step exclude) o es !! l = Entity.id <$> o !! l.
Proof.
  revert o. induction es as [|entity es IH]; intros o; simpl; [done|].
  rewrite IH. unfold AbstractWorld.moveOne. case_decide; [done|].
  apply lookup_id_alter, moveEntity_id.
Qed.

Lemma moveEntities_wellformed_ids (exclude : option ref) (w : AbstractWorld.t M) :
  wellformed w → wellformed (AbstractWorld.moveEntities exclude w).
Proof.
  intros (Halloc & Hnd & Hids).
  destruct (moveEntities_wellformed exclude w (conj Halloc Hnd)) as [Halloc' Hnd'].
  split_and!; [done|done|]. simpl.
  rewrite (entityIds_ext (AbstractWorld.objects w)); [done|].
  intros l _. apply moveLoop_lookup_id.
Qed.

Lemma applyRecord_wellformed_ids (cw : ClientWorld.t M) (entitiesInUpdate : list ref)
    (r : ClientWorld.EntityRecord) :
  wellformed (ClientWorld.world cw) →
  wellformed (ClientWorld.world (ClientWorld.applyRecord (cw, entitiesInUpdate) r).1).
Proof.
  intros (Halloc & Hnd & Hids).
  destruct (applyRecord_wellformed cw entitiesInUpdate r (conj Halloc Hnd)) as [Halloc' Hnd'].
  split_and!; [done|done|]. clear Halloc' Hnd'.
  destruct r as [[[[id x] y] type] controls].
  destruct (AbstractWorld.findById id (ClientWorld.world cw)) as [l|] eqn:Hfind.
  - destruct (decide (id = ClientWorld.myId cw)) as [Hid|Hid].
    + by rewrite (applyRecord_local cw entitiesInUpdate id x y type controls l Hfind Hid).
    + rewrite (applyRecord_other cw entitiesInUpdate id x y type controls l Hfind Hid). simpl.
      rewrite (entityIds_ext (AbstractWorld.objects (ClientWorld.world cw))); [done|].
      intros l' _. apply lookup_id_alter. intros e. apply updateState_id.
  - rewrite (applyRecord_created cw entitiesInUpdate id x y type controls Hfind). simpl.
    unfold entityIds. rewrite omap_app. simpl.
    rewrite lookup_app_r, Nat.sub_diag by done. simpl.
    fold (entityIds (AbstractWorld.objects (ClientWorld.world cw) ++
                       [Entity.mk id x y type true false
                          (controlBit controls LEFT) (controlBit controls RIGHT)
                          (controlBit controls UP) (controlBit controls DOWN)])
            (AbstractWorld.entities (ClientWorld.world cw))).
    rewrite (entityIds_ext (AbstractWorld.objects (ClientWorld.world cw))).
    + apply NoDup_app. split_and!; [done| |apply NoDup_singleton].
      intros i Hi ->%list_elem_of_singleton.
      apply findById_is_Some in Hi. rewrite Hfind in Hi. by destruct Hi.
    + intros l Hl. by rewrite lookup_app_l by (by apply Halloc).
Qed.

Lemma applyRecords_wellformed_ids (rs : list ClientWorld.EntityRecord) (cw : ClientWorld.t M)
    (entitiesInUpdate : list ref) :
  wellformed (ClientWorld.world cw) →
  wellformed (ClientWorld.world (foldl ClientWorld.applyRecord (cw, entitiesInUpdate) rs).1).
Proof.
  revert cw entitiesInUpdate. induction rs as [|r rs IH]; intros cw eiu Hwf; [done|].
  cbn [foldl].
  pose proof (applyRecord_wellformed_ids cw eiu r Hwf) as Hstep.
  destruct (ClientWorld.applyRecord (cw, eiu) r) as [cw' eiu']. by apply IH.
Qed.

Lemma replay_iter_wellformed_ids (n : nat) (cw : ClientWorld.t M) :
  wellformed (ClientWorld.world cw) →
  wellformed
    (ClientWorld.world
       (Nat.iter n
          (λ cw, ClientWorld.withWorld
                   (AbstractWorld.moveEntities (ClientWorld.getLocalEntity cw)
                      (ClientWorld.world cw)) cw) cw)).
Proof.
  intros Hwf. induction n as [|n IH]; [done|].
  simpl. by apply moveEntities_wellformed_ids.
Qed.

Lemma replay_wellformed_ids (cw : ClientWorld.t M) :
  wellformed (ClientWorld.world cw) → wellformed (ClientWorld.world (ClientWorld.replay cw)).
Proof.
  intros Hwf. unfold ClientWorld.replay. case_decide; [|done].
  by apply replay_iter_wellformed_ids.
Qed.

Lemma handleState_wellformed_ids (state : list Z) (cw : ClientWorld.t M) :
  wellformed (ClientWorld.world cw) →
  wellformed (ClientWorld.world (ClientWorld.handleState state cw)).
Proof.
  intros Hwf. unfold ClientWorld.handleState. case_decide; [done|].
  match goal with |- context [foldl ClientWorld.applyRecord (?cw0, []) ?rs] =>
    pose proof (applyRecords_wellformed_ids rs cw0 [] Hwf) as Hloop;
    destruct (foldl ClientWorld.applyRecord (cw0, []) rs) as [cw1 eiu] end.
  simpl in Hloop. destruct Hloop as (Halloc & Hnd & Hids).
  apply replay_wellformed_ids. simpl. rewrite removeUnmentioned_filter. split_and!.
  - intros l [_ Hl]%list_elem_of_filter. by apply Halloc.
  - by apply NoDup_filter.
  - eapply sublist_NoDup; [exact Hids|]. apply entityIds_sublist, sublist_filter.
Qed.

Lemma ClientWorld_handle_wellformed (ev : ClientWorld.Event) (cw : ClientWorld.t M) :
  wellformed (ClientWorld.world cw) →
  wellformed (ClientWorld.world (ClientWorld.handle ev cw)).
Proof.
  intros Hwf. destruct ev as [message|buffer| |]; simpl.
  - by destruct message.
  - by apply handleState_wellformed_ids.
  - done.
  - by apply moveEntities_wellformed_ids.
Qed.

(** X15. The client world keeps its entities apart: whatever messages,
    snapshots and timer ticks reach it, every reference of its array
    points to an object, no object is in the array twice, and no two
    entities of the array carry the same id. *)
Theorem ClientWorld_unique_ids (evs : list ClientWorld.Event) (cw : ClientWorld.t M) :
  wellformed (ClientWorld.world cw) →
  wellformed (ClientWorld.world (ClientWorld.run evs cw)).
Proof.
  revert cw. induction evs as [|ev evs IH]; intros cw Hwf; [done|].
  simpl. by apply IH, ClientWorld_handle_wellformed.
Qed.

End ids.

Lemma ClientWorld_unique_ids_witness :
  let cw := ClientWorld.run
              [ClientWorld.orderedText (ClientWorld.identify 7);
               ClientWorld.unorderedBinary [1; 0; 7; 100; 100; 2; 0; 7; 200; 200; 3; 0];
               ClientWorld.moveTimer]
              (ClientWorld.new (SimpleGameMap.mk [])) in
  entityIds (AbstractWorld.objects (ClientWorld.world cw))
    (AbstractWorld.entities (ClientWorld.world cw)) = [7] ∧
  wellformed (ClientWorld.world cw).
Proof.
  intros cw. split; [reflexivity|].
  apply ClientWorld_unique_ids. split_and!.
  - intros l Hl. by apply elem_of_nil in Hl.
  - constructor.
  - constructor.
Defined.

(** ** What an accepted snapshot leaves in the client world *)

Section mentioned.
Context {M : Type} `{WorldMap M}.

(** One record: the entity it names is found or created, and ends in
    [entitiesInUpdate]; no object changes its id. *)
Lemma applyRecord_mentions (cw : ClientWorld.t M) (entitiesInUpdate : list ref)
    (id : Z) (x y type controls : JS.num) :
  let acc := ClientWorld.applyRecord (cw, entitiesInUpdate) (id, x, y, type, controls) in
  ∃ entity,
    acc.2 = entitiesInUpdate ++ [entity] ∧
    entity ∈ AbstractWorld.entities (ClientWorld.world acc.1) ∧
    AbstractWorld.hasId (AbstractWorld.objects (ClientWorld.world acc.1)) id entity = true ∧
    (∀ l, l ∈ AbstractWorld.entities (ClientWorld.world cw) →
          l ∈ AbstractWorld.entities (ClientWorld.world acc.1)) ∧
    (∀ i l, AbstractWorld.hasId (AbstractWorld.objects (ClientWorld.world cw)) i l = true →
            AbstractWorld.hasId (AbstractWorld.objects (ClientWorld.world acc.1)) i l = true).
Proof.
  intros acc. subst acc.
  destruct (AbstractWorld.findById id (ClientWorld.world cw)) as [l|] eqn:Hfind.
  - destruct (findById_Some id (ClientWorld.world cw) l Hfind) as (Hl & e & He & Hid).
    assert (AbstractWorld.hasId (AbstractWorld.objects (ClientWorld.world cw)) id l = true)
      as Hhas by (apply hasId_true; eauto).
    destruct (decide (id = ClientWorld.myId cw)) as [Hmy|Hmy].
    + rewrite (applyRecord_local cw entitiesInUpdate id x y type controls l Hfind Hmy).
      exists l. by split_and!.
    + rewrite (applyRecord_other cw entitiesInUpdate id x y type controls l Hfind Hmy).
      exists l. simpl. split_and!; [done|done|..].
      * rewrite hasId_alter; [done|]. intros e0. apply updateState_id.
      * done.
      * intros i l' Hi. rewrite hasId_alter; [done|]. intros e0. apply updateState_id.
  - rewrite (applyRecord_created cw entitiesInUpdate id x y type controls Hfind).
    exists (length (AbstractWorld.objects (ClientWorld.world cw))). simpl. split_and!.
    + done.
    + apply elem_of_app. right. by left.
    + apply hasId_true. eexists. split; [by rewrite lookup_app_r, Nat.sub_diag|done].
    + intros l Hl. apply elem_of_app. by left.
    + intros i l Hi. rewrite hasId_app; [done|].
      apply hasId_true in Hi as (e & He & _). by apply lookup_lt_Some in He.
Qed.

Lemma applyRecords_mentions (rs : list ClientWorld.EntityRecord) (cw : ClientWorld.t M)
    (entitiesInUpdate : list ref) (seen : list Z) :
  (∀ l, l ∈ entitiesInUpdate →
     l ∈ AbstractWorld.entities (ClientWorld.world cw) ∧
     ∃ i, i ∈ seen ∧
       AbstractWorld.hasId (AbstractWorld.objects (ClientWorld.world cw)) i l = true) →
  (∀ i, i ∈ seen →
     ∃ l, l ∈ entitiesInUpdate ∧
       AbstractWorld.hasId (AbstractWorld.objects (ClientWorld.world cw)) i l = true) →
  let acc := foldl ClientWorld.applyRecord (cw, entitiesInUpdate) rs in
  let ids := seen ++ ((λ r : ClientWorld.EntityRecord, r.1.1.1.1) <$> rs) in
  (∀ l, l ∈ acc.2 →
     l ∈ AbstractWorld.entities (ClientWorld.world acc.1) ∧
     ∃ i, i ∈ ids ∧
       AbstractWorld.hasId (AbstractWorld.objects (ClientWorld.world acc.1)) i l = true) ∧
  (∀ i, i ∈ ids →
     ∃ l, l ∈ acc.2 ∧
       AbstractWorld.hasId (AbstractWorld.objects (ClientWorld.world acc.1)) i l = true).
Proof.
  revert cw entitiesInUpdate seen.
  induction rs as [|r rs IH]; intros cw eiu seen Hrefs Hids.
  { simpl. rewrite app_nil_r. by split. }
  destruct r as [[[[id x] y] type] controls].
  cbn [foldl]. rewrite fmap_cons. cbn [fst].
  destruct (applyRecord_mentions cw eiu id x y type controls)
    as (entity & Heiu & Hentity & Hhas & Hkeep & Hsame).
  destruct (ClientWorld.applyRecord (cw, eiu) (id, x, y, type, controls)) as [cw' eiu'].
  simpl in Heiu, Hentity, Hhas, Hkeep, Hsame. subst eiu'.
  replace (seen ++ id :: ((λ r : ClientWorld.EntityRecord, r.1.1.1.1) <$> rs))
    with ((seen ++ [id]) ++ ((λ r : ClientWorld.EntityRecord, r.1.1.1.1) <$> rs))
    by (by rewrite <-app_assoc).
  apply IH.
  - intros l [Hl| ->%list_elem_of_singleton]%elem_of_app.
    + destruct (Hrefs l Hl) as (Hin & i & Hi & Hil). split; [by apply Hkeep|].
      exists i. split; [apply elem_of_app; by left|by apply Hsame].
    + split; [done|]. exists id. split; [apply elem_of_app; right; by left|done].
  - intros i [Hi| ->%list_elem_of_singleton]%elem_of_app.
    + destruct (Hids i Hi) as (l & Hl & Hil).
      exists l. split; [apply elem_of_app; by left|by apply Hsame].
    + exists entity. split; [apply elem_of_app; right; by left|done].
Qed.

Lemma replay_iter_hasId (n : nat) (cw : ClientWorld.t M) (i : Z) (l : ref) :
  AbstractWorld.hasId
    (AbstractWorld.objects
       (ClientWorld.world
          (Nat.iter n
             (λ cw, ClientWorld.withWorld
                      (AbstractWorld.moveEntities (ClientWorld.getLocalEntity cw)
                         (ClientWorld.world cw)) cw) cw))) i l
  = AbstractWorld.hasId (AbstractWorld.objects (ClientWorld.world cw)) i l.
Proof.
  induction n as [|n IH]; [done|].
  simpl. by rewrite hasId_moveLoop.
Qed.

Lemma replay_hasId (cw : ClientWorld.t M) (i : Z) (l : ref) :
  AbstractWorld.hasId (AbstractWorld.objects (ClientWorld.world (ClientWorld.replay cw))) i l
  = AbstractWorld.hasId (AbstractWorld.objects (ClientWorld.world cw)) i l.
Proof.
  unfold ClientWorld.replay. case_decide; [|done]. apply replay_iter_hasId.
Qed.

(** X14. After an accepted snapshot the client world holds an entity for
    an id exactly when a record of the snapshot carries that id: what the
    snapshot does not mention is gone, what it mentions is there. *)
Theorem handleState_holds_what_is_mentioned (state : list Z) (cw : ClientWorld.t M) (id : Z) :
  ClientWorld.lastSequenceNumber cw < ClientWorld.decodeSequence state →
  is_Some (AbstractWorld.findById id (ClientWorld.world (ClientWorld.handleState state cw)))
  ↔ id ∈ (λ r : ClientWorld.EntityRecord, r.1.1.1.1) <$> ClientWorld.readRecords (drop 2 state).
Proof.
  intros Hnew.
  unfold AbstractWorld.findById.
  rewrite (handleState_entities_mentioned state cw Hnew).
  assert (∀ i l,
    AbstractWorld.hasId
      (AbstractWorld.objects (ClientWorld.world (ClientWorld.handleState state cw))) i l
    = AbstractWorld.hasId
        (AbstractWorld.objects
           (ClientWorld.world
              (foldl ClientWorld.applyRecord
                 (ClientWorld.mk (ClientWorld.world cw) (ClientWorld.myId cw)
                    (ClientWorld.decodeSequence state) (ClientWorld.nameById cw)
                    (ClientWorld.localSequenceNumber2 cw), [])
                 (ClientWorld.readRecords (drop 2 state))).1)) i l) as Hobjects.
  { intros i l. unfold ClientWorld.handleState. case_decide; [lia|].
    destruct (foldl ClientWorld.applyRecord _ _) as [cw1 eiu]. by rewrite replay_hasId. }
  pose proof (applyRecords_mentions (ClientWorld.readRecords (drop 2 state))
                (ClientWorld.mk (ClientWorld.world cw) (ClientWorld.myId cw)
                   (ClientWorld.decodeSequence state) (ClientWorld.nameById cw)
                   (ClientWorld.localSequenceNumber2 cw)) [] []) as Hloop.
  simpl in Hloop.
  destruct Hloop as [Hrefs Hids].
  { intros l Hl. by apply elem_of_nil in Hl. }
  { intros i Hi. by apply elem_of_nil in Hi. }
  rewrite find_is_Some. split.
  - intros (l & [Hl _]%list_elem_of_filter & Hhas).
    rewrite Hobjects in Hhas.
    destruct (Hrefs l Hl) as (_ & i & Hi & Hil).
    apply hasId_true in Hhas as (e & He & <-).
    apply hasId_true in Hil as (e' & He' & <-). congruence.
  - intros Hid. destruct (Hids id Hid) as (l & Hl & Hhas).
    exists l. split; [|by rewrite Hobjects].
    apply list_elem_of_filter. split; [done|]. by apply Hrefs.
Qed.

Lemma replay_iter_localSequenceNumber2 (n : nat) (cw : ClientWorld.t M) :
  ClientWorld.localSequenceNumber2
    (Nat.iter n
       (λ cw, ClientWorld.withWorld
                (AbstractWorld.moveEntities (ClientWorld.getLocalEntity cw)
                   (ClientWorld.world cw)) cw) cw)
  = ClientWorld.localSequenceNumber2 cw.
Proof. induction n as [|n IH]; [done|]. by simpl. Qed.

(** X13. The two clocks of the client.  The last accepted sequence number
    never goes back: after [handleState] it is the larger of what it was
    and the sequence number of the snapshot.  And an accepted snapshot
    pulls the local clock up to its own tick, unless the local clock is
    already ahead of it. *)
Theorem handleState_clocks (state : list Z) (cw : ClientWorld.t M) :
  ClientWorld.lastSequenceNumber (ClientWorld.handleState state cw)
  = Z.max (ClientWorld.lastSequenceNumber cw) (ClientWorld.decodeSequence state) ∧
  (ClientWorld.lastSequenceNumber cw < ClientWorld.decodeSequence state →
   ClientWorld.localSequenceNumber2 (ClientWorld.handleState state cw)
   = Z.max (ClientWorld.localSequenceNumber2 cw) (2 * ClientWorld.decodeSequence state)).
Proof.
  split.
  - destruct (decide (ClientWorld.decodeSequence state ≤ ClientWorld.lastSequenceNumber cw))
      as [Hstale|Hnew].
    + rewrite handleState_stale by done. lia.
    + rewrite handleState_accepted_lastSequenceNumber by lia. lia.
  - intros Hnew. unfold ClientWorld.handleState. case_decide; [lia|].
    match goal with |- context [foldl ClientWorld.applyRecord ?a ?rs] =>
      pose proof (applyRecords_fields rs a) as (_ & Hlast & _ & Hlocal & _);
      destruct (foldl ClientWorld.applyRecord a rs) as [cw1 eiu] end.
    simpl in Hlast, Hlocal.
    unfold ClientWorld.replay, ClientWorld.stepsAhead. simpl.
    rewrite Hlast, Hlocal.
    change ClientWorld.step2 with 1. rewrite Z.div_1_r.
    case_decide.
    + rewrite replay_iter_localSequenceNumber2. simpl. lia.
    + simpl. lia.
Qed.

End mentioned.

Lemma handleState_holds_what_is_mentioned_witness :
  let e7 := Entity.mk 7 (JS.Num 120) (JS.Num 100) (JS.Num 2) false true false true false false in
  let e8 := Entity.mk 8 (JS.Num 50) (JS.Num 50) (JS.Num 1) true false false false false false in
  let cw := ClientWorld.mk (AbstractWorld.mk [e7; e8] [0%nat; 1%nat] (SimpleGameMap.mk []) 1)
              7 10 ∅ 0 in
  let cw' := ClientWorld.handleState [11; 0; 8; 60; 60; 3; 1; 9; 10; 10; 1; 0] cw in
  AbstractWorld.findById 7 (ClientWorld.world cw') = None ∧
  is_Some (AbstractWorld.findById 9 (ClientWorld.world cw')).
Proof.
  intros e7 e8 cw cw'. split; [reflexivity|].
  apply (handleState_holds_what_is_mentioned [11; 0; 8; 60; 60; 3; 1; 9; 10; 10; 1; 0] cw 9).
  - vm_compute. reflexivity.
  - simpl. right. left.
Defined.

(** ** Arrays of references without repetition *)

Lemma filter_all {A} (P : A → Prop) `{∀ x, Decision (P x)} (l : list A) :
  Forall P l → filter P l = l.
Proof.
  induction 1 as [|x l Hx _ IH]; [done|]. by rewrite filter_cons_True, IH.
Qed.

Lemma NoDup_delete_filter (x : nat) (i : nat) (l : list nat) :
  NoDup l → l !! i = Some x → delete i l = filter (λ y, y ≠ x) l.
Proof.
  intros Hnd. revert i. induction Hnd as [|a l Ha Hnd IH]; intros i Hi; [done|].
  destruct i as [|i]; simpl in *.
  - injection Hi as ->. rewrite filter_cons_False by naive_solver.
    symmetry. apply filter_all, Forall_forall. intros y Hy ->. done.
  - rewrite filter_cons_True.
    + f_equal. by apply IH.
    + intros ->. apply Ha. by eapply list_elem_of_lookup_2.
Qed.

(** ** The books of the server world *)

Section server_books.
Context {M : Type} `{WorldMap M}.

Lemma server_ok_new (m : M) : server_ok (ServerWorld.new m).
Proof.
  split_and!.
  - split_and!; [|constructor|constructor]. intros l Hl. by apply elem_of_nil in Hl.
  - intros i Hi. by apply elem_of_nil in Hi.
  - done.
  - intros c l Hc. simpl in Hc. by rewrite lookup_empty in Hc.
  - intros c c' l Hc. simpl in Hc. by rewrite lookup_empty in Hc.
Qed.

Lemma server_ok_clientStateReceived (client : Z) (array : list Z) (sw : ServerWorld.t M) :
  server_ok sw → server_ok (ServerWorld.clientStateReceived client array sw).
Proof.
  intros Hok. unfold ServerWorld.clientStateReceived.
  destruct (ServerWorld.clientToEntity sw !! client) as [entity|]; [|done].
  destruct (negb _); [|done].
  destruct Hok as ((Halloc & Hnd & Hids) & Hbelow & Hnext & Hbound & Hinj).
  assert (entityIds
            (alter (λ e, Entity.updateState (JS.get array 0) (JS.get array 1) (Entity.type e)
                           (controlBit (JS.get array 2) LEFT)
                           (controlBit (JS.get array 2) RIGHT)
                           (controlBit (JS.get array 2) UP)
                           (controlBit (JS.get array 2) DOWN) e)
               entity (AbstractWorld.objects (ServerWorld.world sw)))
            (AbstractWorld.entities (ServerWorld.world sw))
          = entityIds (AbstractWorld.objects (ServerWorld.world sw))
              (AbstractWorld.entities (ServerWorld.world sw))) as Hsame.
  { apply entityIds_ext. intros l _. by apply lookup_id_alter. }
  split_and!; simpl.
  - split_and!; simpl.
    + intros l Hl. simpl. rewrite length_alter. by apply Halloc.
    + done.
    + by rewrite Hsame.
  - by rewrite Hsame.
  - done.
  - done.
  - done.
Qed.

Lemma server_ok_clientConnected (server : WebChannelServer.t) (client : WebChannelServer.cref)
    (rx ry rt : Z) (sw : ServerWorld.t M) :
  server_ok sw → server_ok (ServerWorld.clientConnected server client rx ry rt sw).1.
Proof.
  intros Hok. unfold ServerWorld.clientConnected.
  destruct (WebChannelServer.clientObjects server !! client) as [c|]; [|done].
  destruct Hok as ((Halloc & Hnd & Hids) & Hbelow & Hnext & Hbound & Hinj).
  assert (entityIds
            (AbstractWorld.objects (ServerWorld.world sw)
               ++ [Entity.new (ServerWorld.nextEntityId sw) (JS.Num (100 + rx))
                     (JS.Num (100 + ry)) (JS.Num (1 + rt))])
            (AbstractWorld.entities (ServerWorld.world sw)
               ++ [length (AbstractWorld.objects (ServerWorld.world sw))])
          = entityIds (AbstractWorld.objects (ServerWorld.world sw))
              (AbstractWorld.entities (ServerWorld.world sw))
            ++ [ServerWorld.nextEntityId sw]) as Hnew.
  { unfold entityIds at 1. rewrite omap_app. simpl.
    rewrite lookup_app_r, Nat.sub_diag by done. simpl. f_equal.
    apply entityIds_ext. intros l Hl. by rewrite lookup_app_l by (by apply Halloc). }
  split_and!; simpl.
  - split_and!; simpl.
    + intros l [Hl| ->%list_elem_of_singleton]%elem_of_app; simpl; rewrite length_app; simpl.
      * specialize (Halloc l Hl). lia.
      * lia.
    + apply NoDup_app. split_and!; [done| |apply NoDup_singleton].
      intros l Hl ->%list_elem_of_singleton. specialize (Halloc _ Hl). lia.
    + rewrite Hnew. apply NoDup_app. split_and!; [done| |apply NoDup_singleton].
      intros i Hi ->%list_elem_of_singleton. specialize (Hbelow _ Hi). lia.
  - rewrite Hnew. intros i [Hi| ->%list_elem_of_singleton]%elem_of_app.
    + specialize (Hbelow _ Hi). lia.
    + lia.
  - lia.
  - intros c0 l. destruct (decide (c0 = WebChannelServer.id c)) as [->|Hne].
    + rewrite lookup_insert_eq. intros [= <-]. apply elem_of_app. right. by left.
    + rewrite lookup_insert_ne by done. intros Hc0. apply elem_of_app. left. by eapply Hbound.
  - intros c1 c2 l.
    destruct (decide (c1 = WebChannelServer.id c)) as [->|Hne1];
      destruct (decide (c2 = WebChannelServer.id c)) as [->|Hne2]; [done|..].
    + rewrite lookup_insert_eq, lookup_insert_ne by done. intros [= <-] Hc2.
      apply Hbound, Halloc in Hc2. lia.
    + rewrite lookup_insert_eq, lookup_insert_ne by done. intros Hc1 [= <-].
      apply Hbound, Halloc in Hc1. lia.
    + rewrite !lookup_insert_ne by done. apply Hinj.
Qed.

(** A disconnection takes the entity of the client, and no other, out of
    the array. *)
Lemma clientDisconnected_entities (server : WebChannelServer.t)
    (client : WebChannelServer.cref) (c : WebChannelServer.WebChannelClient) (l : ref)
    (sw : ServerWorld.t M) :
  server_ok sw →
  WebChannelServer.clientObjects server !! client = Some c →
  ServerWorld.clientToEntity sw !! WebChannelServer.id c = Some l →
  AbstractWorld.entities (ServerWorld.world (ServerWorld.clientDisconnected server client sw))
  = filter (λ l', l' ≠ l) (AbstractWorld.entities (ServerWorld.world sw)).
Proof.
  intros ((Halloc & Hnd & Hids) & Hbelow & Hnext & Hbound & Hinj) Hc Hl.
  unfold ServerWorld.clientDisconnected. rewrite Hc, Hl. simpl.
  destruct (indexOf_elem l _ (Hbound _ _ Hl)) as (i & -> & Hi & _).
  rewrite splice1_nat. by apply NoDup_delete_filter.
Qed.

Lemma server_ok_clientDisconnected (server : WebChannelServer.t)
    (client : WebChannelServer.cref) (sw : ServerWorld.t M) :
  server_ok sw → server_ok (ServerWorld.clientDisconnected server client sw).
Proof.
  intros Hok.
  destruct (WebChannelServer.clientObjects server !! client) as [c|] eqn:Hc;
    [|unfold ServerWorld.clientDisconnected; by rewrite Hc].
  destruct (ServerWorld.clientToEntity sw !! WebChannelServer.id c) as [l|] eqn:Hl;
    [|unfold ServerWorld.clientDisconnected; by rewrite Hc, Hl].
  pose proof (clientDisconnected_entities server client c l sw Hok Hc Hl) as Hes.
  destruct Hok as ((Halloc & Hnd & Hids) & Hbelow & Hnext & Hbound & Hinj).
  assert (AbstractWorld.objects
            (ServerWorld.world (ServerWorld.clientDisconnected server client sw))
          = AbstractWorld.objects (ServerWorld.world sw)) as Hobjects.
  { unfold ServerWorld.clientDisconnected. by rewrite Hc, Hl. }
  assert (ServerWorld.clientToEntity (ServerWorld.clientDisconnected server client sw)
          = delete (WebChannelServer.id c) (ServerWorld.clientToEntity sw)) as Hmap.
  { unfold ServerWorld.clientDisconnected. by rewrite Hc, Hl. }
  assert (ServerWorld.nextEntityId (ServerWorld.clientDisconnected server client sw)
          = ServerWorld.nextEntityId sw) as Hid.
  { unfold ServerWorld.clientDisconnected. by rewrite Hc, Hl. }
  assert (entityIds (AbstractWorld.objects (ServerWorld.world sw))
            (filter (λ l', l' ≠ l) (AbstractWorld.entities (ServerWorld.world sw)))
          `sublist_of` entityIds (AbstractWorld.objects (ServerWorld.world sw))
                         (AbstractWorld.entities (ServerWorld.world sw))) as Hsub.
  { apply entityIds_sublist, sublist_filter. }
  unfold server_ok, wellformed, allocated. rewrite Hes, Hobjects, Hmap, Hid.
  split_and!.
  - intros l' [_ Hl']%list_elem_of_filter. by apply Halloc.
  - by apply NoDup_filter.
  - eapply sublist_NoDup; [exact Hids|exact Hsub].
  - intros i Hi. apply Hbelow. eapply elem_of_sublist; [exact Hi|exact Hsub].
  - done.
  - intros c0 l0 [Hne Hc0]%lookup_delete_Some.
    apply list_elem_of_filter. split; [|by eapply Hbound].
    intros ->. apply Hne. by eapply Hinj.
  - intros c1 c2 l0 [_ Hc1]%lookup_delete_Some [_ Hc2]%lookup_delete_Some. by eapply Hinj.
Qed.

Lemma server_ok_tick (sw : ServerWorld.t M) : server_ok sw → server_ok (ServerWorld.tick sw).2.
Proof.
  intros (Hwf & Hbelow & Hnext & Hbound & Hinj). split_and!; simpl.
  - by apply moveEntities_wellformed_ids.
  - rewrite (entityIds_ext (AbstractWorld.objects (ServerWorld.world sw))); [done|].
    intros l _. apply moveLoop_lookup_id.
  - done.
  - done.
  - done.
Qed.

Lemma server_ok_handle (ev : ServerWorld.Event) (sw : ServerWorld.t M) :
  server_ok sw → server_ok (ServerWorld.handle ev sw).
Proof.
  intros Hok. destruct ev as [server client rx ry rt|server client|client array|]; simpl.
  - by apply server_ok_clientConnected.
  - by apply server_ok_clientDisconnected.
  - by apply server_ok_clientStateReceived.
  - by apply server_ok_tick.
Qed.

(** X6. The books of the server world stay in order under every sequence
    of connections, disconnections, state reports and ticks: the entities
    of the world are apart and carry distinct ids, every id in use is
    positive and below [nextEntityId] (no id is handed out twice), and the
    clients bound to an entity are bound to distinct entities of the
    world. *)
Theorem ServerWorld_books (evs : list ServerWorld.Event) (sw : ServerWorld.t M) :
  server_ok sw → server_ok (ServerWorld.run evs sw).
Proof.
  revert sw. induction evs as [|ev evs IH]; intros sw Hok; [done|].
  simpl. by apply IH, server_ok_handle.
Qed.

(** X7. When a client that is bound to an entity disconnects, its entity
    and no other leaves the world, the order of the others is kept, the
    client is unbound, and a state report of that client that is still
    under way is discarded. *)
Theorem clientDisconnected_removes_entity (server : WebChannelServer.t)
    (client : WebChannelServer.cref) (c : WebChannelServer.WebChannelClient) (l : ref)
    (sw : ServerWorld.t M) (array : list Z) :
  server_ok sw →
  WebChannelServer.clientObjects server !! client = Some c →
  ServerWorld.clientToEntity sw !! WebChannelServer.id c = Some l →
  let sw' := ServerWorld.clientDisconnected server client sw in
  AbstractWorld.entities (ServerWorld.world sw')
  = filter (λ l', l' ≠ l) (AbstractWorld.entities (ServerWorld.world sw)) ∧
  (l ∉ AbstractWorld.entities (ServerWorld.world sw')) ∧
  ServerWorld.clientToEntity sw' !! WebChannelServer.id c = None ∧
  ServerWorld.clientStateReceived (WebChannelServer.id c) array sw' = sw'.
Proof.
  intros Hok Hc Hl sw'.
  pose proof (clientDisconnected_entities server client c l sw Hok Hc Hl) as Hes.
  assert (ServerWorld.clientToEntity sw' !! WebChannelServer.id c = None) as Hgone.
  { unfold sw', ServerWorld.clientDisconnected. rewrite Hc, Hl. simpl.
    apply lookup_delete_eq. }
  split_and!; [done| |done|].
  - fold sw' in Hes. rewrite Hes. intros [Hne _]%list_elem_of_filter. done.
  - unfold ServerWorld.clientStateReceived. by rewrite Hgone.
Qed.

End server_books.

Lemma ServerWorld_books_witness :
  let alice := WebChannelServer.mkClient (Some "unordered") (Some "ordered") true true 1 "alice" in
  let bob := WebChannelServer.mkClient (Some "unordered") (Some "ordered") true true 2 "bob" in
  let server := WebChannelServer.mk [alice; bob] [0%nat; 1%nat] 3 true true in
  let sw := ServerWorld.run
              [ServerWorld.connected server 0%nat 5 6 1;
               ServerWorld.connected server 1%nat 50 60 2;
               ServerWorld.timer;
               ServerWorld.disconnected server 0%nat]
              (ServerWorld.new (SimpleGameMap.mk [])) in
  entityIds (AbstractWorld.objects (ServerWorld.world sw))
    (AbstractWorld.entities (ServerWorld.world sw)) = [2] ∧
  server_ok sw.
Proof.
  intros alice bob server sw. split; [reflexivity|].
  apply ServerWorld_books, server_ok_new.
Defined.

Lemma clientDisconnected_removes_entity_witness :
  let alice := WebChannelServer.mkClient (Some "unordered") (Some "ordered") true true 1 "alice" in
  let bob := WebChannelServer.mkClient (Some "unordered") (Some "ordered") true true 2 "bob" in
  let server := WebChannelServer.mk [alice; bob] [0%nat; 1%nat] 3 true true in
  let sw := ServerWorld.run
              [ServerWorld.connected server 0%nat 5 6 1;
               ServerWorld.connected server 1%nat 50 60 2]
              (ServerWorld.new (SimpleGameMap.mk [])) in
  let sw' := ServerWorld.clientDisconnected server 0%nat sw in
  AbstractWorld.entities (ServerWorld.world sw) = [0%nat; 1%nat] ∧
  AbstractWorld.entities (ServerWorld.world sw') = [1%nat] ∧
  ServerWorld.clientStateReceived 1 [120; 104; 9] sw' = sw'.
Proof.
  intros alice bob server sw sw'. split; [reflexivity|].
  destruct (clientDisconnected_removes_entity server 0%nat alice 0%nat sw [120; 104; 9])
    as (Hes & _ & _ & Hreport); [|reflexivity|reflexivity|].
  - apply (server_ok_handle (ServerWorld.connected server 1%nat 50 60 2)).
    apply (server_ok_handle (ServerWorld.connected server 0%nat 5 6 1)).
    apply server_ok_new.
  - split; [exact Hes|exact Hreport].
Defined.

(** ** The sequence number *)

Lemma Z_land_low_high (a k : Z) : 0 ≤ a < 65536 → Z.land a (k * 65536) = 0.
Proof.
  intros Ha. apply Z.bits_inj'. intros n Hn.
  rewrite Z.land_spec, Z.bits_0.
  destruct (decide (n < 16)) as [Hlt|Hge].
  - replace (k * 65536) with (Z.shiftl k 16) by (rewrite Z.shiftl_mul_pow2; lia).
    rewrite (Z.shiftl_spec_low k 16 n) by lia. apply andb_false_r.
  - destruct (decide (a = 0)) as [->|Hne]; [by rewrite Z.bits_0|].
    rewrite (Z.bits_above_log2 a n); [done|lia|].
    assert (Z.log2 a < 16) by (apply Z.log2_lt_pow2; lia). lia.
Qed.

Lemma Z_land_high_mask (k : Z) : Z.land (k * 65536) (-65536) = k * 65536.
Proof.
  change (-65536) with (Z.lnot (Z.ones 16)).
  rewrite <-Z.ldiff_land, Z.ldiff_ones_r by lia.
  rewrite Z.shiftr_div_pow2, Z.shiftl_mul_pow2 by lia.
  change (2 ^ 16) with 65536. by rewrite Z.div_mul by lia.
Qed.

(** X12. [handleState] reads the sequence number as the signed 32-bit
    integer whose low half is the first word of the snapshot and whose
    high half is the second. *)
Theorem decodeSequence_int32 (s0 s1 : Z) (rest : list Z) :
  0 ≤ s0 < 65536 → 0 ≤ s1 < 65536 →
  ClientWorld.decodeSequence (s0 :: s1 :: rest) = JS.wrap32 (s0 + 65536 * s1).
Proof.
  intros Hs0 Hs1. unfold ClientWorld.decodeSequence, JS.bor, JS.band, JS.shl. simpl.
  rewrite (wrap32_small s0), (wrap32_small s1) by lia.
  rewrite Z.shiftl_mul_pow2 by lia. change (2 ^ 16) with 65536.
  change (JS.wrap32 4294901760) with (-65536).
  assert (∃ k, JS.wrap32 (s1 * 65536) = k * 65536 ∧ -32768 ≤ k < 32768 ∧
               JS.wrap32 (s0 + 65536 * s1) = s0 + k * 65536) as (k & -> & Hk & ->).
  { destruct (decide (s1 < 32768)) as [Hlo|Hhi].
    - exists s1. rewrite !wrap32_small by lia. split_and!; lia.
    - exists (s1 - 65536). unfold JS.wrap32. split_and!; [|lia|lia|].
      + replace (s1 * 65536 + 2147483648)
          with ((s1 - 65536) * 65536 + 2147483648 + 1 * 4294967296) by lia.
        rewrite Z.mod_add, Z.mod_small by lia. lia.
      + replace (s0 + 65536 * s1 + 2147483648)
          with (s0 + (s1 - 65536) * 65536 + 2147483648 + 1 * 4294967296) by lia.
        rewrite Z.mod_add, Z.mod_small by lia. lia. }
  rewrite (wrap32_small (k * 65536)) by lia.
  rewrite Z_land_high_mask, (wrap32_small (k * 65536)) by lia.
  rewrite <-Z.lxor_lor by (by apply Z_land_low_high).
  symmetry. apply Z.add_nocarry_lxor. by apply Z_land_low_high.
Qed.

Lemma decodeSequence_int32_witness :
  ClientWorld.decodeSequence [1; 7; 100; 100; 2; 0] = 458753 ∧
  ClientWorld.decodeSequence [5; 40000] = -1673527291.
Proof.
  split.
  - rewrite (decodeSequence_int32 1 7) by lia. reflexivity.
  - rewrite (decodeSequence_int32 5 40000) by lia. reflexivity.
Defined.

Section sequence.
Context {M : Type} `{WorldMap M}.

Lemma tick_sequence_step (sw : ServerWorld.t M) :
  0 ≤ ServerWorld.sequenceNumber sw ≤ 50000 →
  ServerWorld.sequenceNumber (ServerWorld.tick sw).2
  = (ServerWorld.sequenceNumber sw + 1) `mod` 50001.
Proof.
  intros Hs. simpl. unfold ServerWorld.advanceSequence. case_decide.
  - replace (ServerWorld.sequenceNumber sw + 1) with (1 * 50001) by lia.
    by rewrite Z.mod_mul.
  - rewrite Z.mod_small; lia.
Qed.

(** X10. The sequence number of the server counts the ticks modulo 50001:
    it runs from 0 to 50000 and starts again, and each snapshot carries
    the count of its tick in its first word. *)
Theorem tick_sequence_cycle (n : nat) (sw : ServerWorld.t M) :
  0 ≤ ServerWorld.sequenceNumber sw ≤ 50000 →
  let sw' := ServerWorld.run (replicate n ServerWorld.timer) sw in
  ServerWorld.sequenceNumber sw' = (ServerWorld.sequenceNumber sw + Z.of_nat n) `mod` 50001 ∧
  (ServerWorld.tick sw').1 !! 0%nat = Some ((ServerWorld.sequenceNumber sw + Z.of_nat n + 1) `mod` 50001).
Proof.
  intros Hs sw'.
  assert (ServerWorld.sequenceNumber sw' = (ServerWorld.sequenceNumber sw + Z.of_nat n) `mod` 50001)
    as Hn.
  { subst sw'. revert sw Hs. induction n as [|n IH]; intros sw Hs.
    - simpl. rewrite Z.add_0_r, Z.mod_small; lia.
    - cbn [replicate]. unfold ServerWorld.run in *. cbn [foldl ServerWorld.handle].
      rewrite IH.
      + rewrite tick_sequence_step by done.
        rewrite Zplus_mod_idemp_l. f_equal. lia.
      + rewrite tick_sequence_step by done.
        pose proof (Z.mod_pos_bound (ServerWorld.sequenceNumber sw + 1) 50001). lia. }
  split; [done|].
  assert (0 ≤ ServerWorld.sequenceNumber sw' ≤ 50000) as Hs'.
  { rewrite Hn. pose proof (Z.mod_pos_bound (ServerWorld.sequenceNumber sw + Z.of_nat n) 50001). lia. }
  destruct (tick_sequenceNumber sw' Hs') as [_ ->].
  rewrite tick_sequence_step, Hn by done.
  rewrite Zplus_mod_idemp_l. done.
Qed.

End sequence.

Lemma tick_sequence_cycle_witness :
  let sw := ServerWorld.mk (AbstractWorld.mk [] [] (SimpleGameMap.mk []) 2) 1 ∅ 49999 in
  ServerWorld.sequenceNumber (ServerWorld.run (replicate 3 ServerWorld.timer) sw) = 1.
Proof.
  intros sw.
  destruct (tick_sequence_cycle 3 sw) as [-> _]; [simpl; lia|reflexivity].
Defined.

(** ** Snapshots: what the server writes and what the record loop reads *)

Lemma encodeEntity_records (es : list Entity.t) :
  Forall fits16 es →
  ClientWorld.readRecords (JS.newUint16Array (concat (ServerWorld.encodeEntity <$> es)))
  = (λ e, (Entity.id e, Entity.x e, Entity.y e, Entity.type e, JS.Num (encodeControls e)))
    <$> es.
Proof.
  induction 1 as [|e es (Hid & px & py & pt & Hx & Hy & Ht & Hpx & Hpy & Hpt) _ IH]; [done|].
  rewrite !fmap_cons. cbn [concat ServerWorld.encodeEntity app].
  unfold JS.newUint16Array in *. rewrite !fmap_cons. cbn [ClientWorld.readRecords].
  rewrite IH, Hx, Hy, Ht. simpl.
  pose proof (encodeControls_range e).
  by rewrite !Z.mod_small by lia.
Qed.

Section snapshots2.
Context {M : Type} `{WorldMap M}.

(** X11. A snapshot is one word for the sequence number and five words for
    every entity of the world; when the fields of the entities fit 16
    bits, the record loop of the client, started at the word where the
    records start, reads back every entity as the server wrote it, the
    four input flags included. *)
Theorem createState_records_roundtrip (sw : ServerWorld.t M) (sequence : Z) :
  Forall fits16 (ServerWorld.entityObjects (ServerWorld.world sw)) →
  let state := ServerWorld.createState sequence sw in
  length state = (1 + 5 * length (ServerWorld.entityObjects (ServerWorld.world sw)))%nat ∧
  ClientWorld.readRecords (drop 1 state)
  = (λ e, (Entity.id e, Entity.x e, Entity.y e, Entity.type e, JS.Num (encodeControls e)))
    <$> ServerWorld.entityObjects (ServerWorld.world sw) ∧
  ∀ e, e ∈ ServerWorld.entityObjects (ServerWorld.world sw) →
    controlBit (JS.Num (encodeControls e)) LEFT = Entity.left e ∧
    controlBit (JS.Num (encodeControls e)) RIGHT = Entity.right e ∧
    controlBit (JS.Num (encodeControls e)) UP = Entity.up e ∧
    controlBit (JS.Num (encodeControls e)) DOWN = Entity.down e.
Proof.
  intros Hfits state. subst state. unfold ServerWorld.createState.
  split_and!.
  - unfold JS.newUint16Array. rewrite length_fmap. cbn [length]. f_equal. clear Hfits.
    induction (ServerWorld.entityObjects (ServerWorld.world sw)) as [|e es IH]; [done|].
    rewrite fmap_cons. cbn [concat]. rewrite length_app, IH. simpl. lia.
  - unfold JS.newUint16Array at 1. rewrite fmap_cons. cbn [drop].
    by apply encodeEntity_records.
  - intros e _. apply controlBit_encodeControls.
Qed.

(** X17. A state report round trip.  The report the client makes of its
    local entity, handed to the server world for the client bound to
    [entity], puts that entity on the position of the local entity and
    gives it the same four input flags, as long as the position fits 16
    bits and is free on the map of the server; id, type and facing of the
    server's entity stay. *)
Theorem sendState_clientStateReceived (cw : ClientWorld.t M) (sw : ServerWorld.t M)
    (client : Z) (l entity : ref) (e se : Entity.t) (px py : Z) :
  ClientWorld.getLocalEntity cw = Some l →
  AbstractWorld.objects (ClientWorld.world cw) !! l = Some e →
  Entity.x e = JS.Num px → Entity.y e = JS.Num py →
  0 ≤ px < 65536 → 0 ≤ py < 65536 →
  ServerWorld.clientToEntity sw !! client = Some entity →
  AbstractWorld.objects (ServerWorld.world sw) !! entity = Some se →
  blockedAt (AbstractWorld.map (ServerWorld.world sw)) (JS.Num px) (JS.Num py) = false →
  ∃ array se',
    ClientWorld.sendState cw = Some array ∧
    AbstractWorld.objects
      (ServerWorld.world (ServerWorld.clientStateReceived client array sw)) !! entity
    = Some se' ∧
    Entity.x se' = Entity.x e ∧ Entity.y se' = Entity.y e ∧
    Entity.left se' = Entity.left e ∧ Entity.right se' = Entity.right e ∧
    Entity.up se' = Entity.up e ∧ Entity.down se' = Entity.down e ∧
    Entity.id se' = Entity.id se ∧ Entity.type se' = Entity.type se ∧
    Entity.faceLeft se' = Entity.faceLeft se.
Proof.
  intros Hlocal He Hx Hy Hpx Hpy Hbound Hse Hfree.
  destruct (sendState_decoded cw l e px py Hlocal He Hx Hy Hpx Hpy)
    as (array & Hsend & Ha0 & Ha1 & Hleft & Hright & Hup & Hdown).
  exists array. eexists. split; [exact Hsend|].
  unfold ServerWorld.clientStateReceived. rewrite Hbound, Ha0, Ha1, Hfree. simpl.
  rewrite list_lookup_alter_eq, Hse. simpl.
  split; [done|]. simpl. by rewrite Hx, Hy, Hleft, Hright, Hup, Hdown.
Qed.

End snapshots2.

Lemma createState_records_roundtrip_witness :
  let e7 := Entity.mk 7 (JS.Num 100) (JS.Num 120) (JS.Num 2) true false true false false true in
  let e8 := Entity.mk 8 (JS.Num 50) (JS.Num 60) (JS.Num 1) true false false false false false in
  let sw := ServerWorld.mk (AbstractWorld.mk [e7; e8] [0%nat; 1%nat] (SimpleGameMap.mk []) 2)
              9 {[ 1 := 0%nat ]} 4 in
  ServerWorld.createState 4 sw = [4; 7; 100; 120; 2; 9; 8; 50; 60; 1; 0] ∧
  ClientWorld.readRecords (drop 1 (ServerWorld.createState 4 sw))
  = [(7, JS.Num 100, JS.Num 120, JS.Num 2, JS.Num 9);
     (8, JS.Num 50, JS.Num 60, JS.Num 1, JS.Num 0)].
Proof.
  intros e7 e8 sw. split; [reflexivity|].
  destruct (createState_records_roundtrip sw 4) as (_ & Hrecords & _); [|exact Hrecords].
  repeat constructor; try (simpl; lia).
  - exists 100, 120, 2. split_and!; (reflexivity || lia).
  - exists 50, 60, 1. split_and!; (reflexivity || lia).
Defined.

Lemma sendState_clientStateReceived_witness :
  let e := Entity.mk 7 (JS.Num 120) (JS.Num 104) (JS.Num 2) false true true false false true in
  let cw := ClientWorld.mk (AbstractWorld.mk [e] [0%nat] (SimpleGameMap.mk []) 1) 7 3 ∅ 6 in
  let se := Entity.mk 7 (JS.Num 100) (JS.Num 100) (JS.Num 2) true false false false false false in
  let sw := ServerWorld.mk (AbstractWorld.mk [se] [0%nat] (SimpleGameMap.mk []) 2) 8 {[ 1 := 0%nat ]} 3 in
  ∃ array se',
    ClientWorld.sendState cw = Some array ∧
    AbstractWorld.objects
      (ServerWorld.world (ServerWorld.clientStateReceived 1 array sw)) !! 0%nat = Some se' ∧
    Entity.x se' = JS.Num 120 ∧ Entity.y se' = JS.Num 104 ∧ Entity.left se' = true.
Proof.
  intros e cw se sw.
  destruct (sendState_clientStateReceived cw sw 1 0%nat 0%nat e se 120 104)
    as (array & se' & Hsend & Hse' & Hx & Hy & Hleft & _); try reflexivity; try lia.
  exists array, se'. by split_and!.
Defined.

(** ** What the server world sends *)

Lemma sendReliable_elem (server : WebChannelServer.t) (client : WebChannelServer.cref)
    (data : ClientWorld.Reliable) (m : WebChannelServer.cref * ClientWorld.Reliable) :
  m ∈ ServerWorld.sendReliable server client data → m = (client, data).
Proof.
  unfold ServerWorld.sendReliable.
  destruct (WebChannelServer.clientObjects server !! client) as [c|];
    [|by intros ?%elem_of_nil].
  destruct (WebChannelServer.orderedChannel c); [|by intros ?%elem_of_nil].
  by intros ->%list_elem_of_singleton.
Qed.

Lemma sendAllReliable_elem (server : WebChannelServer.t) (data : ClientWorld.Reliable)
    (m : WebChannelServer.cref * ClientWorld.Reliable) :
  m ∈ ServerWorld.sendAllReliable server data → m.2 = data.
Proof.
  unfold ServerWorld.sendAllReliable.
  intros (client & _ & Hm)%list_elem_of_In%in_flat_map.
  apply list_elem_of_In in Hm.
  destruct (WebChannelServer.clientObjects server !! client) as [c|];
    [|by apply elem_of_nil in Hm].
  destruct (WebChannelServer.connected c); [|by apply elem_of_nil in Hm].
  by apply sendReliable_elem in Hm as ->.
Qed.

Section handshake.
Context {M : Type} `{WorldMap M}.

Lemma ClientWorld_run_cons (ev : ClientWorld.Event) (evs : list ClientWorld.Event)
    (cw : ClientWorld.t M) :
  ClientWorld.run (ev :: evs) cw = ClientWorld.run evs (ClientWorld.handle ev cw).
Proof. done. Qed.

Lemma run_names (messages : list ClientWorld.Reliable) (cw : ClientWorld.t M) :
  Forall (λ message, ∃ i n, message = ClientWorld.name i n) messages →
  ClientWorld.myId (ClientWorld.run (ClientWorld.orderedText <$> messages) cw)
  = ClientWorld.myId cw ∧
  ClientWorld.localSequenceNumber2 (ClientWorld.run (ClientWorld.orderedText <$> messages) cw)
  = ClientWorld.localSequenceNumber2 cw.
Proof.
  intros Hnames. revert cw.
  induction Hnames as [|message messages (i & n & ->) _ IH]; intros cw; [done|].
  rewrite fmap_cons, ClientWorld_run_cons.
  destruct (IH (ClientWorld.handle (ClientWorld.orderedText (ClientWorld.name i n)) cw))
    as [-> ->].
  done.
Qed.

(** X8. The handshake of a new connection.  When the server world learns
    that a client with an ordered channel has connected, the reliable
    messages it sends to that client, handled by the client world in the
    order sent, leave the client with the id of the entity the server has
    just bound to it and with the local clock on the sequence number of
    the server. *)
Theorem clientConnected_handshake (server : WebChannelServer.t)
    (client : WebChannelServer.cref) (c : WebChannelServer.WebChannelClient)
    (rx ry rt : Z) (sw : ServerWorld.t M) (cw : ClientWorld.t M) :
  WebChannelServer.clientObjects server !! client = Some c →
  is_Some (WebChannelServer.orderedChannel c) →
  let result := ServerWorld.clientConnected server client rx ry rt sw in
  let received := (filter (λ m, m.1 = client) result.2).*2 in
  let cw' := ClientWorld.run (ClientWorld.orderedText <$> received) cw in
  ClientWorld.myId cw' = ServerWorld.nextEntityId sw ∧
  ClientWorld.localSequenceNumber2 cw' = 2 * ServerWorld.sequenceNumber sw ∧
  ∃ l e,
    ServerWorld.clientToEntity result.1 !! WebChannelServer.id c = Some l ∧
    l ∈ AbstractWorld.entities (ServerWorld.world result.1) ∧
    AbstractWorld.objects (ServerWorld.world result.1) !! l = Some e ∧
    Entity.id e = ClientWorld.myId cw'.
Proof.
  intros Hc [channel Hchannel] result received cw'.
  assert (∃ names,
    received = ClientWorld.time (ServerWorld.sequenceNumber sw)
               :: ClientWorld.identify (ServerWorld.nextEntityId sw) :: names ∧
    Forall (λ message, ∃ i n, message = ClientWorld.name i n) names) as (names & Hreceived & Hnames).
  { subst received result. unfold ServerWorld.clientConnected. rewrite Hc. cbn [snd].
    unfold ServerWorld.sendReliable at 1 2. rewrite Hc, Hchannel. cbn [app Entity.id Entity.new].
    rewrite !filter_cons_True by done. rewrite !fmap_cons. cbn [snd].
    eexists. split; [reflexivity|].
    apply Forall_forall. intros message (m & -> & [_ Hm]%list_elem_of_filter)%list_elem_of_fmap.
    apply elem_of_app in Hm as [Hm|Hm].
    - apply sendAllReliable_elem in Hm as ->. eauto.
    - apply list_elem_of_In, in_flat_map in Hm as (other & _ & Hm).
      apply list_elem_of_In in Hm.
      case_decide; [|by apply elem_of_nil in Hm].
      destruct (WebChannelServer.clientObjects server !! other) as [o|];
        [|by apply elem_of_nil in Hm].
      destruct (ServerWorld.clientToEntity sw !! WebChannelServer.id o) as [l|];
        [|by apply elem_of_nil in Hm].
      destruct (AbstractWorld.objects (ServerWorld.world sw) !! l) as [e|];
        [|by apply elem_of_nil in Hm].
      apply sendReliable_elem in Hm as ->. eauto. }
  assert (ClientWorld.myId cw' = ServerWorld.nextEntityId sw ∧
          ClientWorld.localSequenceNumber2 cw' = 2 * ServerWorld.sequenceNumber sw)
    as [HmyId Hclock].
  { subst cw'. rewrite Hreceived, !fmap_cons, !ClientWorld_run_cons.
    by destruct (run_names names
                   (ClientWorld.handle
                      (ClientWorld.orderedText
                         (ClientWorld.identify (ServerWorld.nextEntityId sw)))
                      (ClientWorld.handle
                         (ClientWorld.orderedText
                            (ClientWorld.time (ServerWorld.sequenceNumber sw))) cw))
                   Hnames) as [-> ->]. }
  split_and!; [done|done|].
  exists (length (AbstractWorld.objects (ServerWorld.world sw))). eexists.
  subst result. unfold ServerWorld.clientConnected. rewrite Hc. cbn [fst]. simpl.
  split_and!.
  - apply lookup_insert_eq.
  - apply elem_of_app. right. by left.
  - by rewrite lookup_app_r, Nat.sub_diag.
  - by rewrite HmyId.
Qed.

End handshake.

Lemma clientConnected_handshake_witness :
  let alice := WebChannelServer.mkClient (Some "unordered") (Some "ordered") true true 1 "alice" in
  let bob := WebChannelServer.mkClient (Some "unordered") (Some "ordered") true true 2 "bob" in
  let server := WebChannelServer.mk [alice; bob] [0%nat; 1%nat] 3 true true in
  let sw := (ServerWorld.clientConnected server 0%nat 5 6 1
               (ServerWorld.mk (AbstractWorld.mk [] [] (SimpleGameMap.mk []) 2) 1 ∅ 41)).1 in
  let result := ServerWorld.clientConnected server 1%nat 50 60 2 sw in
  let received := (filter (λ m, m.1 = 1%nat) result.2).*2 in
  let cw' := ClientWorld.run (ClientWorld.orderedText <$> received)
               (ClientWorld.new (SimpleGameMap.mk [])) in
  received = [ClientWorld.time 41; ClientWorld.identify 2;
              ClientWorld.name 2 "bob"; ClientWorld.name 1 "alice"] ∧
  ClientWorld.myId cw' = 2 ∧ ClientWorld.localSequenceNumber2 cw' = 82.
Proof.
  intros alice bob server sw result received cw'. split; [reflexivity|].
  destruct (clientConnected_handshake server 1%nat bob 50 60 2 sw
              (ClientWorld.new (SimpleGameMap.mk []))) as (HmyId & Hclock & _);
    [reflexivity|by eexists|].
  split; [exact HmyId|exact Hclock].
Defined.

(** ** Who gets a snapshot *)

Lemma sendToAll_elem (server : WebChannelServer.t) (buffer : list Z)
    (client : WebChannelServer.cref) (data : list Z) :
  (client, data) ∈ ServerWorld.sendToAll server buffer ↔
  data = buffer ∧ client ∈ WebChannelServer.clients server ∧
  ∃ c, WebChannelServer.clientObjects server !! client = Some c ∧
       WebChannelServer.connected c = true ∧
       is_Some (WebChannelServer.unorderedChannel c).
Proof.
  unfold ServerWorld.sendToAll, WebChannelServer.sendUnorderedBinary.
  rewrite list_elem_of_In, in_flat_map. split.
  - intros (other & Hother%list_elem_of_In & Hm%list_elem_of_In).
    destruct (WebChannelServer.clientObjects server !! other) as [c|] eqn:Hc;
      [|by apply elem_of_nil in Hm].
    destruct (WebChannelServer.connected c) eqn:Hconnected; [|by apply elem_of_nil in Hm].
    destruct (WebChannelServer.unorderedChannel c) as [channel|] eqn:Hchannel;
      [|by apply elem_of_nil in Hm].
    apply list_elem_of_singleton in Hm as [= -> ->].
    split_and!; [done|done|]. exists c. by rewrite Hchannel.
  - intros (-> & Hclient & c & Hc & Hconnected & [channel Hchannel]).
    exists client. split; [by apply list_elem_of_In|].
    rewrite Hc, Hconnected, Hchannel. by left.
Qed.

Lemma sendToAll_sublist (server : WebChannelServer.t) (buffer : list Z) :
  (ServerWorld.sendToAll server buffer).*1 `sublist_of` WebChannelServer.clients server.
Proof.
  unfold ServerWorld.sendToAll, WebChannelServer.sendUnorderedBinary.
  induction (WebChannelServer.clients server) as [|client clients IH]; [done|].
  simpl. rewrite fmap_app.
  destruct (WebChannelServer.clientObjects server !! client) as [c|];
    [|by apply sublist_cons].
  destruct (WebChannelServer.connected c); [|by apply sublist_cons].
  destruct (WebChannelServer.unorderedChannel c); [|by apply sublist_cons].
  simpl. by apply sublist_skip.
Qed.

(** X9. A snapshot handed to [sendToAll] goes, unchanged and once each,
    to the clients of the roster whose two channels have opened and whose
    unordered channel is still there, and to nobody else. *)
Theorem sendToAll_recipients (server : WebChannelServer.t) (buffer : list Z) :
  roster_ok server →
  NoDup (ServerWorld.sendToAll server buffer).*1 ∧
  ∀ client data,
    (client, data) ∈ ServerWorld.sendToAll server buffer ↔
    data = buffer ∧ client ∈ WebChannelServer.clients server ∧
    ∃ c, WebChannelServer.clientObjects server !! client = Some c ∧
         WebChannelServer.connected c = true ∧
         is_Some (WebChannelServer.unorderedChannel c).
Proof.
  intros [Hnd _]. split.
  - eapply sublist_NoDup; [exact Hnd|apply sendToAll_sublist].
  - apply sendToAll_elem.
Qed.

Lemma sendToAll_recipients_witness :
  let server := (WebChannelServer.run
                   [WebChannelServer.connect "alice"; WebChannelServer.connect "bob";
                    WebChannelServer.orderedStatus 1%nat open;
                    WebChannelServer.unorderedStatus 1%nat open;
                    WebChannelServer.orderedStatus 0%nat open]
                   (WebChannelServer.new true true)).1 in
  ServerWorld.sendToAll server [4; 7; 100; 120; 2; 9] = [(1%nat, [4; 7; 100; 120; 2; 9])] ∧
  NoDup (ServerWorld.sendToAll server [4; 7; 100; 120; 2; 9]).*1.
Proof.
  intros server. split; [reflexivity|].
  destruct (sendToAll_recipients server [4; 7; 100; 120; 2; 9]) as [Hnd _]; [|exact Hnd].
  apply roster_ok_run, roster_ok_new.
Defined.

(** ** What movement leaves alone *)

Section frame.
Context {M : Type} `{WorldMap M}.

(** X1. What [moveEntities] never does: it adds and removes no entity,
    changes neither the map nor the step, touches no object outside the
    array and not the excluded one, and changes the id, the type and the
    four input flags of no object at all, also when the array holds an
    object twice. *)
Theorem moveEntities_frame (w : AbstractWorld.t M) (exclude : option ref) :
  let w' := AbstractWorld.moveEntities exclude w in
  AbstractWorld.entities w' = AbstractWorld.entities w ∧
  AbstractWorld.map w' = AbstractWorld.map w ∧
  AbstractWorld.stepSize2 w' = AbstractWorld.stepSize2 w ∧
  length (AbstractWorld.objects w') = length (AbstractWorld.objects w) ∧
  (∀ l, l ∉ AbstractWorld.entities w ∨ Some l = exclude →
        AbstractWorld.objects w' !! l = AbstractWorld.objects w !! l) ∧
  (∀ l e, AbstractWorld.objects w !! l = Some e →
     ∃ e', AbstractWorld.objects w' !! l = Some e' ∧
       Entity.id e' = Entity.id e ∧ Entity.type e' = Entity.type e ∧
       Entity.left e' = Entity.left e ∧ Entity.right e' = Entity.right e ∧
       Entity.up e' = Entity.up e ∧ Entity.down e' = Entity.down e).
Proof.
  intros w'. split_and!; try done.
  - apply moveLoop_length.
  - apply moveEntities_untouched.
  - intros l e He.
    assert (is_Some (AbstractWorld.objects w' !! l)) as [e' He'].
    { apply lookup_lt_is_Some. subst w'. simpl. rewrite moveLoop_length.
      by eapply lookup_lt_Some. }
    exists e'. split; [done|].
    refine (moveLoop_preserves
              (λ e', Entity.id e' = Entity.id e ∧ Entity.type e' = Entity.type e ∧
                     Entity.left e' = Entity.left e ∧ Entity.right e' = Entity.right e ∧
                     Entity.up e' = Entity.up e ∧ Entity.down e' = Entity.down e)
              (λ l', l' = l) (AbstractWorld.map w) (AbstractWorld.moveStep w) exclude
              (AbstractWorld.entities w) (AbstractWorld.objects w) _ _ l e' eq_refl He').
    + intros e0 He0. unfold AbstractWorld.moveEntity.
      destruct (AbstractWorld.candidate _ e0). exact He0.
    + intros l' e0 -> He0. rewrite He in He0. by injection He0 as <-.
Qed.

(** X16. The local clock of the client.  As long as no [time] message
    has set it the clock reads 0 and the movement timer leaves it there;
    once it is set to a positive value every tick of the movement timer
    advances it by half a server tick. *)
Theorem clientTick_clock (n : nat) (cw : ClientWorld.t M) :
  0 ≤ ClientWorld.localSequenceNumber2 cw →
  ClientWorld.localSequenceNumber2
    (ClientWorld.run (replicate n ClientWorld.moveTimer) cw)
  = if decide (ClientWorld.localSequenceNumber2 cw = 0) then 0
    else ClientWorld.localSequenceNumber2 cw + Z.of_nat n.
Proof.
  revert cw. induction n as [|n IH]; intros cw Hpos.
  - simpl. case_decide; lia.
  - cbn [replicate]. unfold ClientWorld.run in *. cbn [foldl].
    rewrite IH; simpl; change ClientWorld.step2 with 1; repeat case_decide; lia.
Qed.

End frame.

Lemma clientTick_clock_witness :
  let cw := ClientWorld.handleReliable (ClientWorld.time 41) (ClientWorld.new (SimpleGameMap.mk [])) in
  ClientWorld.localSequenceNumber2 (ClientWorld.run (replicate 3 ClientWorld.moveTimer) cw) = 85 ∧
  ClientWorld.localSequenceNumber2
    (ClientWorld.run (replicate 3 ClientWorld.moveTimer) (ClientWorld.new (SimpleGameMap.mk [])))
  = 0.
Proof.
  intros cw. split.
  - rewrite (clientTick_clock 3 cw) by (simpl; lia). reflexivity.
  - rewrite (clientTick_clock 3 (ClientWorld.new (SimpleGameMap.mk []))) by (simpl; lia).
    reflexivity.
Defined.

(** ** The keys *)

Section keys.
Context {M : Type} `{WorldMap M}.

Lemma findById_alter (f : Entity.t → Entity.t) (k : ref) (i : Z) (w : AbstractWorld.t M) :
  (∀ e, Entity.id (f e) = Entity.id e) →
  AbstractWorld.findById i
    (AbstractWorld.withObjects (alter f k (AbstractWorld.objects w)) w)
  = AbstractWorld.findById i w.
Proof.
  intros Hf. unfold AbstractWorld.findById. simpl.
  apply find_ext_elem. intros l _. by apply hasId_alter.
Qed.

Lemma findById_same_ids (i : Z) (w w' : AbstractWorld.t M) :
  AbstractWorld.entities w' = AbstractWorld.entities w →
  (∀ l, AbstractWorld.hasId (AbstractWorld.objects w') i l
        = AbstractWorld.hasId (AbstractWorld.objects w) i l) →
  AbstractWorld.findById i w' = AbstractWorld.findById i w.
Proof.
  intros Hes Hids. unfold AbstractWorld.findById. rewrite Hes.
  apply find_ext_elem. intros l _. apply Hids.
Qed.

(** X18. Pressing and releasing a key.  With a client world that has a
    local entity, [keyDown] followed by [keyUp] of the same key leaves the
    input flags that the key drives false and every other field of the
    local entity as it was; it touches no other object and moves no
    entity in or out of the world. *)
Theorem keyUp_keyDown (key : string) (g : SimpleP2PGame.t M) (cw : ClientWorld.t M)
    (l : ref) (e : Entity.t) :
  SimpleP2PGame.clientWorld g = Some cw →
  ClientWorld.getLocalEntity cw = Some l →
  AbstractWorld.objects (ClientWorld.world cw) !! l = Some e →
  ∃ cw', SimpleP2PGame.clientWorld (SimpleP2PGame.keyUp key (SimpleP2PGame.keyDown key g))
         = Some cw' ∧
    AbstractWorld.objects (ClientWorld.world cw') !! l
    = Some (SimpleP2PGame.applyKey key false e) ∧
    (∀ l', l' ≠ l →
       AbstractWorld.objects (ClientWorld.world cw') !! l'
       = AbstractWorld.objects (ClientWorld.world cw) !! l') ∧
    AbstractWorld.entities (ClientWorld.world cw') = AbstractWorld.entities (ClientWorld.world cw) ∧
    ClientWorld.getLocalEntity cw' = Some l.
Proof.
  intros Hcw Hlocal He.
  assert (∀ value e0, Entity.id (SimpleP2PGame.applyKey key value e0) = Entity.id e0)
    as Hid by done.
  unfold SimpleP2PGame.keyUp, SimpleP2PGame.keyDown.
  assert (SimpleP2PGame.clientWorld
            (if negb (SimpleP2PGame.inGame g) && bool_decide (key = "s"%string)
             then SimpleP2PGame.startServer g else g) = Some cw) as Hcw'.
  { by destruct (negb (SimpleP2PGame.inGame g) && bool_decide (key = "s"%string)). }
  unfold SimpleP2PGame.withLocalEntity at 2. rewrite Hcw', Hlocal.
  unfold SimpleP2PGame.withLocalEntity. cbn [SimpleP2PGame.clientWorld].
  unfold ClientWorld.getLocalEntity in *. cbn [ClientWorld.world ClientWorld.withWorld ClientWorld.myId].
  rewrite findById_alter, Hlocal by apply Hid.
  eexists. split; [reflexivity|]. simpl. split_and!.
  - rewrite !list_lookup_alter_eq, He. simpl. f_equal.
    unfold SimpleP2PGame.applyKey. simpl. f_equal; match goal with |- context [if ?b then _ else _] => by destruct b end.
  - intros l' Hl'. by rewrite !list_lookup_alter_ne.
  - done.
  - rewrite <-Hlocal. apply findById_same_ids; [done|].
    intros l'. simpl. by rewrite !hasId_alter by apply Hid.
Qed.

(** X19. A key that is held down is reported.  After [keyDown] the state
    report of the client carries the position of the local entity and its
    input flags with the flags of the key set, as long as the position
    fits 16 bits. *)
Theorem keyDown_reported (key : string) (g : SimpleP2PGame.t M) (cw : ClientWorld.t M)
    (l : ref) (e : Entity.t) (px py : Z) :
  SimpleP2PGame.clientWorld g = Some cw →
  ClientWorld.getLocalEntity cw = Some l →
  AbstractWorld.objects (ClientWorld.world cw) !! l = Some e →
  Entity.x e = JS.Num px → Entity.y e = JS.Num py →
  0 ≤ px < 65536 → 0 ≤ py < 65536 →
  ∃ cw' array,
    SimpleP2PGame.clientWorld (SimpleP2PGame.keyDown key g) = Some cw' ∧
    ClientWorld.sendState cw' = Some array ∧
    JS.get array 0 = JS.Num px ∧ JS.get array 1 = JS.Num py ∧
    controlBit (JS.get array 2) LEFT
    = (bool_decide (key = "ArrowLeft"%string ∨ key = "a"%string) || Entity.left e) ∧
    controlBit (JS.get array 2) RIGHT
    = (bool_decide (key = "ArrowRight"%string ∨ key = "d"%string) || Entity.right e) ∧
    controlBit (JS.get array 2) UP
    = (bool_decide (key = "ArrowUp"%string ∨ key = "w"%string) || Entity.up e) ∧
    controlBit (JS.get array 2) DOWN
    = (bool_decide (key = "ArrowDown"%string ∨ key = "s"%string) || Entity.down e).
Proof.
  intros Hcw Hlocal He Hx Hy Hpx Hpy.
  unfold SimpleP2PGame.keyDown.
  assert (SimpleP2PGame.clientWorld
            (if negb (SimpleP2PGame.inGame g) && bool_decide (key = "s"%string)
             then SimpleP2PGame.startServer g else g) = Some cw) as Hcw'.
  { by destruct (negb (SimpleP2PGame.inGame g) && bool_decide (key = "s"%string)). }
  unfold SimpleP2PGame.withLocalEntity. rewrite Hcw', Hlocal.
  cbn [SimpleP2PGame.clientWorld].
  eexists. 
  edestruct (sendState_decoded
               (ClientWorld.withWorld
                  (AbstractWorld.withObjects
                     (alter (SimpleP2PGame.applyKey key true) l
                        (AbstractWorld.objects (ClientWorld.world cw)))
                     (ClientWorld.world cw)) cw)
               l (SimpleP2PGame.applyKey key true e) px py)
    as (array & Hsend & Ha0 & Ha1 & Hleft & Hright & Hup & Hdown); try done.
  - unfold ClientWorld.getLocalEntity in *. simpl. by rewrite findById_alter.
  - simpl. by rewrite list_lookup_alter_eq, He.
  - exists array. split; [reflexivity|]. by split_and!.
Qed.

End keys.

Lemma keyUp_keyDown_witness :
  let e := Entity.mk 7 (JS.Num 120) (JS.Num 104) (JS.Num 2) false true false true false false in
  let cw := ClientWorld.mk (AbstractWorld.mk [e] [0%nat] (SimpleGameMap.mk []) 1) 7 3 ∅ 6 in
  let g := SimpleP2PGame.mk true (Some cw) in
  ∃ cw', SimpleP2PGame.clientWorld (SimpleP2PGame.keyUp "d" (SimpleP2PGame.keyDown "d" g))
         = Some cw' ∧
    AbstractWorld.objects (ClientWorld.world cw')
    = [Entity.mk 7 (JS.Num 120) (JS.Num 104) (JS.Num 2) false true false false false false].
Proof.
  intros e cw g.
  destruct (keyUp_keyDown "d" g cw 0%nat e) as (cw' & Hcw' & _); [reflexivity..|].
  exists cw'. split; [exact Hcw'|].
  vm_compute in Hcw'. by injection Hcw' as <-.
Defined.

Lemma keyDown_reported_witness :
  let e := Entity.mk 7 (JS.Num 120) (JS.Num 104) (JS.Num 2) false true false false false false in
  let cw := ClientWorld.mk (AbstractWorld.mk [e] [0%nat] (SimpleGameMap.mk []) 1) 7 3 ∅ 6 in
  let g := SimpleP2PGame.mk false (Some cw) in
  ∃ cw' array,
    SimpleP2PGame.clientWorld (SimpleP2PGame.keyDown "s" g) = Some cw' ∧
    SimpleP2PGame.inGame (SimpleP2PGame.keyDown "s" g) = true ∧
    ClientWorld.sendState cw' = Some array ∧
    controlBit (JS.get array 2) DOWN = true.
Proof.
  intros e cw g.
  destruct (keyDown_reported "s" g cw 0%nat e 120 104)
    as (cw' & array & Hcw' & Hsend & _ & _ & _ & _ & _ & Hdown); try reflexivity; try lia.
  exists cw', array. split_and!; [exact Hcw'|reflexivity|exact Hsend|].
  rewrite Hdown. reflexivity.
Defined.

(** ** The roster and the ids of the transport server *)

Lemma run_cons_state (ev : WebChannelServer.Event) (evs : list WebChannelServer.Event)
    (s : WebChannelServer.t) :
  (WebChannelServer.run (ev :: evs) s).1
  = (WebChannelServer.run evs (WebChannelServer.handle ev s).1).1.
Proof.
  simpl. destruct (WebChannelServer.handle ev s) as [s1 fired]. simpl.
  by destruct (WebChannelServer.run evs s1).
Qed.

Lemma ids_ok_insert (s : WebChannelServer.t) (this : nat)
    (c c' : WebChannelServer.WebChannelClient) (clients : list nat) :
  ids_ok s →
  WebChannelServer.clientObjects s !! this = Some c →
  WebChannelServer.id c' = WebChannelServer.id c →
  ids_ok (WebChannelServer.withClientObjects
            (<[this := c']> (WebChannelServer.clientObjects s))
            (WebChannelServer.withClients clients s)).
Proof.
  intros [Hnext Hids] Hc Hid. split; simpl.
  - by rewrite length_insert.
  - intros k obj Hk. destruct (decide (this = k)) as [->|Hne].
    + rewrite list_lookup_insert_eq in Hk by (by eapply lookup_lt_Some).
      injection Hk as <-. rewrite Hid. by apply Hids.
    + rewrite list_lookup_insert_ne in Hk by done. by apply Hids.
Qed.

Lemma ids_ok_handle (ev : WebChannelServer.Event) (s : WebChannelServer.t) :
  ids_ok s → ids_ok (WebChannelServer.handle ev s).1.
Proof.
  intros Hok. destruct ev as [username|client readyState|client readyState]; simpl.
  - destruct Hok as [Hnext Hids]. split; simpl.
    + rewrite length_app. simpl. lia.
    + intros k obj Hk. apply lookup_app_Some in Hk as [Hk|[Hge Hk]]; [by apply Hids|].
      apply list_lookup_singleton_Some in Hk as [Hk <-]. simpl. lia.
  - unfold WebChannelServer.handleOrderedStatusChange.
    destruct (WebChannelServer.clientObjects s !! client) as [c|] eqn:Hc; [|done].
    destruct (WebChannelServer.orderedChannel c); [|done].
    case_decide; simpl.
    + by apply (ids_ok_insert s client c _ (WebChannelServer.clients s)).
    + destruct (WebChannelServer.connected c); simpl.
      * unfold WebChannelServer.removeClient. case_match.
        -- by apply (ids_ok_insert s client c).
        -- by apply (ids_ok_insert s client c _ (WebChannelServer.clients s)).
      * by apply (ids_ok_insert s client c _ (WebChannelServer.clients s)).
  - unfold WebChannelServer.handleUnorderedStatusChange.
    destruct (WebChannelServer.clientObjects s !! client) as [c|] eqn:Hc; [|done].
    destruct (WebChannelServer.unorderedChannel c); [|done].
    case_decide; simpl.
    + by apply (ids_ok_insert s client c _ (WebChannelServer.clients s)).
    + destruct (WebChannelServer.connected c); simpl.
      * unfold WebChannelServer.removeClient. case_match.
        -- by apply (ids_ok_insert s client c).
        -- by apply (ids_ok_insert s client c _ (WebChannelServer.clients s)).
      * by apply (ids_ok_insert s client c _ (WebChannelServer.clients s)).
Qed.

(** X20. Whatever connection requests and channel events reach a
    transport server after its construction, its roster holds no client
    twice and only clients that were constructed, and the client objects
    carry the ids 1, 2, 3, ... in the order of their construction, so
    that no two clients ever share an id and [nextId] is always fresh. *)
Theorem WebChannelServer_identities (evs : list WebChannelServer.Event)
    (onConnect onDisconnect : bool) :
  let s := (WebChannelServer.run evs (WebChannelServer.new onConnect onDisconnect)).1 in
  roster_ok s ∧ ids_ok s.
Proof.
  intros s. split; [apply roster_ok_run, roster_ok_new|].
  subst s.
  assert (ids_ok (WebChannelServer.new onConnect onDisconnect)) as Hnew.
  { split; [done|]. intros c obj Hc. simpl in Hc. by rewrite lookup_nil in Hc. }
  revert Hnew. generalize (WebChannelServer.new onConnect onDisconnect).
  induction evs as [|ev evs IH]; intros s Hok; [done|].
  rewrite run_cons_state. by apply IH, ids_ok_handle.
Qed.

(** ** A client that was reported disconnected *)

Lemma handle_no_return (ev : WebChannelServer.Event) (s : WebChannelServer.t) (c : nat) :
  (c < length (WebChannelServer.clientObjects s))%nat →
  c ∉ WebChannelServer.clients s →
  (c < length (WebChannelServer.clientObjects (WebChannelServer.handle ev s).1))%nat ∧
  c ∉ WebChannelServer.clients (WebChannelServer.handle ev s).1.
Proof.
  intros Hlt Hc.
  assert (∀ this, c ∉ WebChannelServer.clients (WebChannelServer.removeClient this s))
    as Hremove.
  { intros this Hin. apply Hc. eapply elem_of_sublist; [exact Hin|].
    apply removeClient_clients_sublist. }
  destruct ev as [username|client readyState|client readyState]; simpl.
  - rewrite length_app. split; [lia|].
    intros [Hin| ->%list_elem_of_singleton]%elem_of_app; [done|lia].
  - unfold WebChannelServer.handleOrderedStatusChange.
    repeat case_match; simplify_eq/=;
      rewrite ?length_insert, ?removeClient_clientObjects; done.
  - unfold WebChannelServer.handleUnorderedStatusChange.
    repeat case_match; simplify_eq/=;
      rewrite ?length_insert, ?removeClient_clientObjects; done.
Qed.

Lemma run_no_return (evs : list WebChannelServer.Event) (s : WebChannelServer.t) (c : nat) :
  (c < length (WebChannelServer.clientObjects s))%nat →
  c ∉ WebChannelServer.clients s →
  c ∉ WebChannelServer.clients (WebChannelServer.run evs s).1.
Proof.
  revert s. induction evs as [|ev evs IH]; intros s Hlt Hc; [done|].
  rewrite run_cons_state.
  destruct (handle_no_return ev s c Hlt Hc) as [Hlt' Hc']. by apply IH.
Qed.

Lemma removeClient_gone (s : WebChannelServer.t) (c : nat) :
  NoDup (WebChannelServer.clients s) →
  c ∉ WebChannelServer.clients (WebChannelServer.removeClient c s).
Proof.
  intros Hnd. destruct (decide (c ∈ WebChannelServer.clients s)) as [Hin|Hout].
  - destruct (removeClient_present s c Hin) as (i & Hi & ->). simpl.
    by apply NoDup_delete_not_elem.
  - by rewrite removeClient_absent.
Qed.

Lemma handle_disconnect_gone (ev : WebChannelServer.Event) (s : WebChannelServer.t) (c : nat) :
  roster_ok s →
  WebChannelServer.Disconnect c ∈ (WebChannelServer.handle ev s).2 →
  (c < length (WebChannelServer.clientObjects (WebChannelServer.handle ev s).1))%nat ∧
  c ∉ WebChannelServer.clients (WebChannelServer.handle ev s).1.
Proof.
  intros [Hnd _] Hin.
  destruct ev as [username|client readyState|client readyState]; simpl in *.
  - by apply elem_of_nil in Hin.
  - unfold WebChannelServer.handleOrderedStatusChange in *.
    destruct (WebChannelServer.clientObjects s !! client) as [obj|] eqn:Hobj;
      [|by apply elem_of_nil in Hin].
    destruct (WebChannelServer.orderedChannel obj); [|by apply elem_of_nil in Hin].
    case_decide; simpl in Hin.
    { repeat case_match; try (by apply elem_of_nil in Hin).
      by apply list_elem_of_singleton in Hin. }
    destruct (WebChannelServer.connected obj); simpl in *; [|by apply elem_of_nil in Hin].
    destruct (WebChannelServer.onDisconnect s); [|by apply elem_of_nil in Hin].
    apply list_elem_of_singleton in Hin as [= ->].
    rewrite length_insert, removeClient_clientObjects.
    split; [by eapply lookup_lt_Some|by apply removeClient_gone].
  - unfold WebChannelServer.handleUnorderedStatusChange in *.
    destruct (WebChannelServer.clientObjects s !! client) as [obj|] eqn:Hobj;
      [|by apply elem_of_nil in Hin].
    destruct (WebChannelServer.unorderedChannel obj); [|by apply elem_of_nil in Hin].
    case_decide; simpl in Hin.
    { repeat case_match; try (by apply elem_of_nil in Hin).
      by apply list_elem_of_singleton in Hin. }
    destruct (WebChannelServer.connected obj); simpl in *; [|by apply elem_of_nil in Hin].
    destruct (WebChannelServer.onDisconnect s); [|by apply elem_of_nil in Hin].
    apply list_elem_of_singleton in Hin as [= ->].
    rewrite length_insert, removeClient_clientObjects.
    split; [by eapply lookup_lt_Some|by apply removeClient_gone].
Qed.

(** X21. A client the transport server has reported disconnected is out of
    the roster, and stays out whatever happens afterwards. *)
Theorem WebChannelServer_disconnected_leaves_roster (evs : list WebChannelServer.Event)
    (s : WebChannelServer.t) (c : WebChannelServer.cref) :
  roster_ok s →
  WebChannelServer.Disconnect c ∈ (WebChannelServer.run evs s).2 →
  c ∉ WebChannelServer.clients (WebChannelServer.run evs s).1.
Proof.
  revert s. induction evs as [|ev evs IH]; intros s Hok Hin.
  { by apply elem_of_nil in Hin. }
  rewrite run_cons_fired in Hin. rewrite run_cons_state.
  apply elem_of_app in Hin as [Hnow|Hlater].
  - destruct (handle_disconnect_gone ev s c Hok Hnow) as [Hlt Hc]. by apply run_no_return.
  - apply IH; [by apply roster_ok_handle|done].
Qed.

Lemma WebChannelServer_disconnected_leaves_roster_witness :
  let evs := [WebChannelServer.connect "alice"; WebChannelServer.connect "bob";
              WebChannelServer.orderedStatus 0%nat open;
              WebChannelServer.unorderedStatus 0%nat open;
              WebChannelServer.unorderedStatus 0%nat closed;
              WebChannelServer.connect "carol"] in
  let result := WebChannelServer.run evs (WebChannelServer.new true true) in
  result.2 = [WebChannelServer.Connect 0%nat; WebChannelServer.Disconnect 0%nat] ∧
  0%nat ∉ WebChannelServer.clients result.1.
Proof.
  intros evs result. split; [reflexivity|].
  apply WebChannelServer_disconnected_leaves_roster; [apply roster_ok_new|].
  right. left.
Defined.

(** X22. The life cycle of a client of the transport server.  For a
    client object that has just been constructed and whose two channels
    each report open at most once, the server reports the connection at
    most once and the disconnection at most once, and when it reports the
    connection both channels have reported open. *)
Theorem WebChannelClient_life_cycle (username : string) (evs : list WebChannelServer.Event)
    (s : WebChannelServer.t) :
  let c := length (WebChannelServer.clientObjects s) in
  (length (filter (λ ev, ev = WebChannelServer.orderedStatus c open) evs) ≤ 1)%nat →
  (length (filter (λ ev, ev = WebChannelServer.unorderedStatus c open) evs) ≤ 1)%nat →
  let fired := (WebChannelServer.run (WebChannelServer.connect username :: evs) s).2 in
  (length (filter (λ cb, cb = WebChannelServer.Connect c) fired) ≤ 1)%nat ∧
  (length (filter (λ cb, cb = WebChannelServer.Disconnect c) fired) ≤ 1)%nat ∧
  (WebChannelServer.Connect c ∈ fired →
   WebChannelServer.orderedStatus c open ∈ evs ∧ WebChannelServer.unorderedStatus c open ∈ evs).
Proof.
  intros c Ho Hu fired.
  destruct (WebChannelClient_reports_once username evs s Ho Hu) as [Hc Hd].
  split_and!; [done|done|].
  apply WebChannelClient_connect_after_both_open.
Qed.

Lemma WebChannelClient_life_cycle_witness :
  let evs := [WebChannelServer.orderedStatus 0%nat open;
              WebChannelServer.unorderedStatus 0%nat open;
              WebChannelServer.orderedStatus 0%nat closed;
              WebChannelServer.unorderedStatus 0%nat closed] in
  let fired := (WebChannelServer.run (WebChannelServer.connect "alice" :: evs)
                  (WebChannelServer.new true true)).2 in
  fired = [WebChannelServer.Connect 0%nat; WebChannelServer.Disconnect 0%nat] ∧
  (length (filter (λ cb, cb = WebChannelServer.Connect 0%nat) fired) ≤ 1)%nat.
Proof.
  intros evs fired. split; [reflexivity|].
  destruct (WebChannelClient_life_cycle "alice" evs (WebChannelServer.new true true))
    as [Hc _]; [vm_compute; lia|vm_compute; lia|exact Hc].
Defined.

(** ** Relay messages at the transport server *)


Lemma findByUsername_Some (from : string) (s : WebChannelServer.t) (target : nat) :
  WebChannelServer.findByUsername from s = Some target →
  target ∈ WebChannelServer.clients s ∧
  WebChannelServer.username <$> WebChannelServer.clientObjects s !! target = Some from.
Proof.
  unfold WebChannelServer.findByUsername. intros [Hin Hname]%find_some.
  split; [by apply list_elem_of_In|]. by apply bool_decide_eq_true in Hname.
Qed.

(** X23. Routing of relay messages.  A relay message leaves the roster
    well formed; only a [connect] changes the server; what a message makes
    a peer connection do, it makes the connection of a client of the
    roster that is registered under the name of the sender do; and a
    message of a sender without a client in the roster does nothing. *)
Theorem onMessage_routes (from : string) (type : option string) (s : WebChannelServer.t) :
  roster_ok s →
  let result := WebChannelServer.onMessage from type s in
  roster_ok result.1 ∧
  (type ≠ Some "connect"%string → result.1 = s) ∧
  (∀ target action, (target, action) ∈ result.2 →
     target ∈ WebChannelServer.clients s ∧
     WebChannelServer.username <$> WebChannelServer.clientObjects s !! target = Some from) ∧
  (type ≠ Some "connect"%string → WebChannelServer.findByUsername from s = None →
   result = (s, [])).
Proof.
  intros Hok result. subst result. unfold WebChannelServer.onMessage.
  destruct type as [ty|]; [|split_and!; try done; by intros ?? ?%elem_of_nil].
  case_bool_decide as Hempty; [split_and!; try done; by intros ?? ?%elem_of_nil|].
  case_bool_decide as Hconnect.
  { subst ty. split_and!; try done.
    - by apply roster_ok_connectionRequest.
    - by intros ?? ?%elem_of_nil. }
  destruct (WebChannelServer.findByUsername from s) as [target|] eqn:Hfind;
    [|split_and!; try done; by intros ?? ?%elem_of_nil].
  split_and!; try done.
  intros target' action (a & [= -> ->] & _)%list_elem_of_fmap.
  by apply findByUsername_Some.
Qed.

Lemma onMessage_routes_witness :
  let s := (WebChannelServer.onMessage "bob" (Some "connect")
              (WebChannelServer.onMessage "alice" (Some "connect")
                 (WebChannelServer.new true true)).1).1 in
  WebChannelServer.onMessage "bob" (Some "answer") s
  = (s, [(1%nat, WebChannelServer.setRemoteDescription)]) ∧
  WebChannelServer.onMessage "carol" (Some "candidate") s = (s, []).
Proof.
  intros s. split; [reflexivity|].
  destruct (onMessage_routes "carol" (Some "candidate"%string) s) as (_ & _ & _ & Hnone).
  - apply (roster_ok_connectionRequest _ "bob"), (roster_ok_connectionRequest _ "alice").
    apply roster_ok_new.
  - by apply Hnone.
Defined.



(** ** The client side of a connection *)

Lemma WebChannel_run_cons (ev : WebChannel.Event) (evs : list WebChannel.Event)
    (c : WebChannel.t) :
  WebChannel.run (ev :: evs) c
  = ((WebChannel.run evs (WebChannel.handle ev c).1).1,
     (WebChannel.handle ev c).2 ++ (WebChannel.run evs (WebChannel.handle ev c).1).2).
Proof.
  simpl. destruct (WebChannel.handle ev c) as [c1 fired]. simpl.
  by destruct (WebChannel.run evs c1) as [c2 later].
Qed.

Lemma WebChannel_handle_fires (ev : WebChannel.Event) (c : WebChannel.t)
    (cb : WebChannel.Callback) :
  cb ∈ (WebChannel.handle ev c).2 → WebChannel.connected c = true.
Proof.
  destruct ev as [label|readyState|readyState]; simpl.
  - by intros ?%elem_of_nil.
  - unfold WebChannel.handleOrderedReceiveChannelStatusChange.
    destruct (WebChannel.orderedChannel c); [|by intros ?%elem_of_nil].
    case_decide; simpl; destruct (WebChannel.connected c); try done;
      rewrite ?andb_false_r; by intros ?%elem_of_nil.
  - unfold WebChannel.handleUnorderedReceiveChannelStatusChange.
    destruct (WebChannel.unorderedChannel c); [|by intros ?%elem_of_nil].
    case_decide; simpl; destruct (WebChannel.connected c); try done;
      rewrite ?andb_false_r; by intros ?%elem_of_nil.
Qed.

Lemma WebChannel_handle_channels (ev : WebChannel.Event) (c : WebChannel.t) :
  (is_Some (WebChannel.orderedChannel (WebChannel.handle ev c).1) →
   is_Some (WebChannel.orderedChannel c) ∨ ev = WebChannel.datachannel "ordered") ∧
  (is_Some (WebChannel.unorderedChannel (WebChannel.handle ev c).1) →
   is_Some (WebChannel.unorderedChannel c) ∨ ev = WebChannel.datachannel "unordered").
Proof.
  destruct ev as [label|readyState|readyState]; simpl.
  - unfold WebChannel.ondatachannel.
    repeat case_bool_decide; simplify_eq; simpl; split; auto.
  - unfold WebChannel.handleOrderedReceiveChannelStatusChange.
    destruct (WebChannel.orderedChannel c) eqn:Ho; [|simpl; rewrite ?Ho; auto].
    case_decide; simpl; [rewrite ?Ho; auto|]. split; [by intros [? ?]|auto].
  - unfold WebChannel.handleUnorderedReceiveChannelStatusChange.
    destruct (WebChannel.unorderedChannel c) eqn:Hu; [|simpl; rewrite ?Hu; auto].
    case_decide; simpl; [rewrite ?Hu; auto|]. split; [auto|by intros [? ?]].
Qed.

Lemma WebChannel_callback_needs_channels (evs : list WebChannel.Event) (c : WebChannel.t)
    (cb : WebChannel.Callback) :
  cb ∈ (WebChannel.run evs c).2 →
  (is_Some (WebChannel.orderedChannel c) ∨ WebChannel.datachannel "ordered" ∈ evs) ∧
  (is_Some (WebChannel.unorderedChannel c) ∨ WebChannel.datachannel "unordered" ∈ evs).
Proof.
  revert c. induction evs as [|ev evs IH]; intros c Hin.
  { by apply elem_of_nil in Hin. }
  rewrite WebChannel_run_cons in Hin. simpl in Hin.
  apply elem_of_app in Hin as [Hnow|Hlater].
  - apply WebChannel_handle_fires in Hnow.
    unfold WebChannel.connected in Hnow.
    apply andb_true_iff in Hnow as [Ho%bool_decide_eq_true Hu%bool_decide_eq_true].
    split; by left.
  - destruct (IH _ Hlater) as [Ho Hu].
    destruct (WebChannel_handle_channels ev c) as [Ho' Hu']. split.
    + destruct Ho as [Ho|Ho]; [|right; by right].
      destruct (Ho' Ho) as [?| ->]; [by left|right; by left].
    + destruct Hu as [Hu|Hu]; [|right; by right].
      destruct (Hu' Hu) as [?| ->]; [by left|right; by left].
Qed.

(** X25. The client side of a connection reports nothing, neither a
    connection nor a disconnection, before the peer has announced both
    data channels. *)
Theorem WebChannel_reports_need_both_channels (evs : list WebChannel.Event)
    (onConnect onDisconnect : bool) (cb : WebChannel.Callback) :
  cb ∈ (WebChannel.run evs (WebChannel.started onConnect onDisconnect)).2 →
  WebChannel.datachannel "ordered" ∈ evs ∧ WebChannel.datachannel "unordered" ∈ evs.
Proof.
  intros Hin.
  destruct (WebChannel_callback_needs_channels evs _ cb Hin) as [[Ho|Ho] [Hu|Hu]];
    try done; simpl in *; by destruct Ho || by destruct Hu.
Qed.

Lemma WebChannel_reports_need_both_channels_witness :
  let evs := [WebChannel.datachannel "unordered"; WebChannel.unorderedStatus open;
              WebChannel.datachannel "ordered"; WebChannel.orderedStatus open] in
  (WebChannel.run evs (WebChannel.started true true)).2 = [WebChannel.Connect] ∧
  WebChannel.datachannel "ordered" ∈ evs.
Proof.
  intros evs. split; [reflexivity|].
  destruct (WebChannel_reports_need_both_channels evs true true WebChannel.Connect)
    as [Ho _]; [by left|exact Ho].
Defined.

Lemma WebChannel_silent (evs : list WebChannel.Event) (c : WebChannel.t) :
  WebChannel.connected c = false →
  (∀ label, WebChannel.datachannel label ∉ evs) →
  (WebChannel.run evs c).2 = [].
Proof.
  revert c. induction evs as [|ev evs IH]; intros c Hc Hevs; [done|].
  rewrite WebChannel_run_cons. simpl.
  assert ((WebChannel.handle ev c).2 = [] ∧
          WebChannel.connected (WebChannel.handle ev c).1 = false) as [-> Hc'].
  { destruct ev as [label|readyState|readyState]; simpl.
    - exfalso. apply (Hevs label). by left.
    - unfold WebChannel.handleOrderedReceiveChannelStatusChange.
      destruct (WebChannel.orderedChannel c); [|done].
      case_decide; simpl; rewrite Hc, ?andb_false_r; done.
    - unfold WebChannel.handleUnorderedReceiveChannelStatusChange.
      destruct (WebChannel.unorderedChannel c); [|done].
      case_decide; simpl; rewrite Hc, ?andb_false_r; [done|].
      split; [done|]. unfold WebChannel.connected. simpl. apply andb_false_r. }
  simpl. apply IH; [done|]. intros label Hl. apply (Hevs label). by right.
Qed.

(** X26. On the client side a closing channel ends the connection for
    good: when a channel of a connected [WebChannel] reports a state
    other than open, the disconnection is reported once, and no callback
    fires afterwards as long as the peer announces no new data channel. *)
Theorem WebChannel_close_is_final (evs : list WebChannel.Event) (c : WebChannel.t)
    (readyState : RTCDataChannelState) :
  WebChannel.connected c = true →
  readyState ≠ open →
  (∀ label, WebChannel.datachannel label ∉ evs) →
  (WebChannel.run (WebChannel.orderedStatus readyState :: evs) c).2
  = (if WebChannel.onDisconnect c then [WebChannel.Disconnect] else []) ∧
  (WebChannel.run (WebChannel.unorderedStatus readyState :: evs) c).2
  = (if WebChannel.onDisconnect c then [WebChannel.Disconnect] else []).
Proof.
  intros Hc Hclose Hevs.
  pose proof Hc as Hboth. unfold WebChannel.connected in Hboth.
  apply andb_true_iff in Hboth
    as [[ordered Ho]%bool_decide_eq_true [unordered Hu]%bool_decide_eq_true].
  split; rewrite WebChannel_run_cons; simpl.
  - unfold WebChannel.handleOrderedReceiveChannelStatusChange. rewrite Ho.
    case_decide; [done|]. simpl. rewrite Hc, WebChannel_silent, app_nil_r; done.
  - unfold WebChannel.handleUnorderedReceiveChannelStatusChange. rewrite Hu.
    case_decide; [done|]. simpl. rewrite Hc, WebChannel_silent, app_nil_r; try done.
    unfold WebChannel.connected. simpl. apply andb_false_r.
Qed.

Lemma WebChannel_close_is_final_witness :
  let c := (WebChannel.run [WebChannel.datachannel "ordered"; WebChannel.datachannel "unordered"]
              (WebChannel.started true true)).1 in
  (WebChannel.run [WebChannel.orderedStatus closed; WebChannel.unorderedStatus closed;
                   WebChannel.unorderedStatus open] c).2
  = [WebChannel.Disconnect].
Proof.
  intros c.
  destruct (WebChannel_close_is_final
              [WebChannel.unorderedStatus closed; WebChannel.unorderedStatus open] c closed)
    as [Hordered _]; [reflexivity|done| |exact Hordered].
  intros label Hin. repeat (apply elem_of_cons in Hin as [Hin|Hin]; [done|]).
  by apply elem_of_nil in Hin.
Defined.

(** ** The snapshot of a world without entities, and the names *)

Section snapshots_and_names.
Context {M : Type} `{WorldMap M}.

(** X27. The snapshot of a server world without entities is read by the
    client as the server wrote it: when its sequence number is newer, the
    client accepts it, takes over the sequence number and is left without
    any entity. *)
Theorem handleState_empty_snapshot (sw : ServerWorld.t M) (cw : ClientWorld.t M)
    (sequence : Z) :
  ServerWorld.entityObjects (ServerWorld.world sw) = [] →
  0 ≤ sequence ≤ 50000 →
  ClientWorld.lastSequenceNumber cw < sequence →
  let cw' := ClientWorld.handleState (ServerWorld.createState sequence sw) cw in
  ClientWorld.lastSequenceNumber cw' = sequence ∧
  AbstractWorld.entities (ClientWorld.world cw') = [].
Proof.
  intros Hempty Hseq Hnew cw'.
  destruct (createState_no_entity sw sequence Hempty Hseq) as (Hstate & Hdecode & Hrecords).
  subst cw'. split.
  - rewrite handleState_accepted_lastSequenceNumber; [done|]. by rewrite Hdecode.
  - rewrite handleState_entities_mentioned by (by rewrite Hdecode).
    rewrite Hrecords. simpl.
    induction (AbstractWorld.entities (ClientWorld.world cw)) as [|l es IH]; [done|].
    rewrite filter_cons_False; [done|]. by intros ?%elem_of_nil.
Qed.

(** X28. The names a connection spreads.  When a client connects, every
    client of the roster that is connected and has its ordered channel is
    sent the name of the new entity, and the new client, when it has its
    ordered channel, is sent the name of the entity of every other client
    of the roster that is bound to one. *)
Theorem clientConnected_names (server : WebChannelServer.t) (client : WebChannelServer.cref)
    (c : WebChannelServer.WebChannelClient) (rx ry rt : Z) (sw : ServerWorld.t M) :
  WebChannelServer.clientObjects server !! client = Some c →
  let sent := (ServerWorld.clientConnected server client rx ry rt sw).2 in
  (∀ other o,
     other ∈ WebChannelServer.clients server →
     WebChannelServer.clientObjects server !! other = Some o →
     WebChannelServer.connected o = true →
     is_Some (WebChannelServer.orderedChannel o) →
     (other, ClientWorld.name (ServerWorld.nextEntityId sw) (WebChannelServer.username c))
     ∈ sent) ∧
  (is_Some (WebChannelServer.orderedChannel c) →
   ∀ other o l e,
     other ∈ WebChannelServer.clients server → other ≠ client →
     WebChannelServer.clientObjects server !! other = Some o →
     ServerWorld.clientToEntity sw !! WebChannelServer.id o = Some l →
     AbstractWorld.objects (ServerWorld.world sw) !! l = Some e →
     (client, ClientWorld.name (Entity.id e) (WebChannelServer.username o)) ∈ sent).
Proof.
  intros Hc sent. subst sent. unfold ServerWorld.clientConnected. rewrite Hc. cbn [snd].
  split.
  - intros other o Hother Ho Hconnected [channel Hchannel].
    apply elem_of_app. right. apply elem_of_app. right. apply elem_of_app. left.
    unfold ServerWorld.sendAllReliable.
    apply list_elem_of_In, in_flat_map. exists other.
    split; [by apply list_elem_of_In|].
    rewrite Ho, Hconnected. unfold ServerWorld.sendReliable. rewrite Ho, Hchannel.
    by left.
  - intros [channel Hchannel] other o l e Hother Hne Ho Hl He.
    apply elem_of_app. right. apply elem_of_app. right. apply elem_of_app. right.
    apply list_elem_of_In, in_flat_map. exists other.
    split; [by apply list_elem_of_In|].
    rewrite decide_True by done. rewrite Ho, Hl, He.
    unfold ServerWorld.sendReliable. rewrite Hc, Hchannel. by left.
Qed.

End snapshots_and_names.

Lemma handleState_empty_snapshot_witness :
  let sw := ServerWorld.mk (AbstractWorld.mk [] [] (SimpleGameMap.mk []) 2) 3 ∅ 12 in
  let e7 := Entity.mk 7 (JS.Num 120) (JS.Num 100) (JS.Num 2) false true false true false false in
  let cw := ClientWorld.mk (AbstractWorld.mk [e7] [0%nat] (SimpleGameMap.mk []) 1) 7 10 ∅ 20 in
  ServerWorld.createState 12 sw = [12] ∧
  AbstractWorld.entities (ClientWorld.world (ClientWorld.handleState [12] cw)) = [].
Proof.
  intros sw e7 cw. split; [reflexivity|].
  destruct (handleState_empty_snapshot sw cw 12) as [_ Hes];
    [reflexivity|lia|simpl; lia|exact Hes].
Defined.

Lemma clientConnected_names_witness :
  let alice := WebChannelServer.mkClient (Some "unordered") (Some "ordered") true true 1 "alice" in
  let bob := WebChannelServer.mkClient (Some "unordered") (Some "ordered") true true 2 "bob" in
  let server := WebChannelServer.mk [alice; bob] [0%nat; 1%nat] 3 true true in
  let sw := (ServerWorld.clientConnected server 0%nat 5 6 1
               (ServerWorld.new (SimpleGameMap.mk []))).1 in
  let sent := (ServerWorld.clientConnected server 1%nat 50 60 2 sw).2 in
  (0%nat, ClientWorld.name 2 "bob") ∈ sent ∧ (1%nat, ClientWorld.name 1 "alice") ∈ sent.
Proof.
  intros alice bob server sw sent.
  destruct (clientConnected_names server 1%nat bob 50 60 2 sw) as [Hall Hnew]; [reflexivity|].
  split.
  - apply (Hall 0%nat alice); [by left|reflexivity|reflexivity|by eexists].
  - apply (Hnew ltac:(by eexists) 0%nat alice 0%nat
             (Entity.new 1 (JS.Num 105) (JS.Num 106) (JS.Num 2)));
      [by left|done|reflexivity|reflexivity|reflexivity].
Defined.
